(** * send2ereader: the ephemeral key-to-file registry

    A shallow embedding of the two server variants of the repository:
    - [index.js], the Oak variant: uploaded files live on disk under
      [uploads/], sessions in the [keys] map ([Module Oak]);
    - the router variant (the second source file): uploaded files live in
      the in-memory [files] map ([Module Mem]).

    Both share the key generator [randomKey] and the allocation loop of the
    [generate] route, which are embedded once.

    Conventions of the embedding.
    - JavaScript strings are [string], a sequence of 8-bit characters.  The
      case conversions are those of the ASCII letters; a theorem whose
      truth depends on how a key sent to the server is upper-cased is
      stated for keys of ASCII characters.
    - JavaScript numbers are [N].  [Math.pow], the product with
      [Math.random()] and [toString(radix)] are exact on the integers up to
      [2 ^ 53]; the shape of a generated key is stated for key spaces
      within that range ([exactChoices]).
    - [Math.floor(Math.random() * choices)] is an input of the model: the
      integer draw, of which the generator only assumes [rnd < choices].
    - [crypto.randomUUID()] is an input of the model as well.
    - Paths are joined and normalised as the POSIX flavour of the path
      library does.  The file system of the Oak variant holds the working
      directory, its ancestors and the directory [uploads], which the
      server creates at start-up, and no other directory.
    - [setTimeout] is modelled by a list of pending one-shot timers and a
      simulated clock.  A timer callback and the [generate] handlers have no
      [await] and run as one turn of the event loop.  The upload handlers
      await between reading the session and binding the file; [upload]
      embeds the handler that resumes in the state in which it suspended,
      and the theorems about it say what the handler itself does to the
      state.  For the router variant the two halves are embedded as well
      ([Mem.suspend], [Mem.resume]), for what a download sees when other
      turns ran in between. *)

From Stdlib Require Import NArith Ascii String List.
From stdpp Require Import gmap strings list fin_maps.

Local Open Scope N_scope.

(** ** JavaScript string and number primitives used by the sources *)

(** [xs.join(sep)] on an array of strings. *)
Fixpoint joinWith (sep : string) (xs : list string) : string :=
  match xs with
  | [] => EmptyString
  | [x] => x
  | x :: xs' => x +:+ sep +:+ joinWith sep xs'
  end.

Module Js.

(** [s.split('')] *)
Definition chars (s : string) : list ascii := list_ascii_of_string s.

(** [s.length] *)
Definition length (s : string) : nat := String.length s.

(** [s[i]]: [undefined] (here [None]) outside the string. *)
Definition charAt (s : string) (i : N) : option ascii :=
  chars s !! N.to_nat i.

(** The digit characters of [Number.prototype.toString(radix)]. *)
Definition digitAlphabet : string := "0123456789abcdefghijklmnopqrstuvwxyz".

Definition digitChar (d : N) : ascii :=
  List.nth (N.to_nat d) (chars digitAlphabet) "0"%char.

(** Digits of [n] in base [radix], most significant first.  [fuel] bounds
    the number of divisions; [toStringRadix] passes enough of it. *)
Fixpoint toDigits (fuel : nat) (radix n : N) : list N :=
  match fuel with
  | O => []
  | S fuel' =>
      if n <? radix then [n]
      else toDigits fuel' radix (n / radix) ++ [n mod radix]
  end.

(** [n.toString(radix)] for a non-negative integer [n] that a number holds
    exactly ([n ≤ 2 ^ 53]; beyond, [toString] rounds or switches to the
    exponent notation, which the embedding does not follow); a radix
    outside 2..36 raises a RangeError ([None]). *)
Definition toStringRadix (radix n : N) : option string :=
  if (2 <=? radix) && (radix <=? 36)
  then Some (string_of_list_ascii
               (map digitChar (toDigits (S (N.to_nat (N.log2 n))) radix n)))
  else None.

(** [s.padStart(targetLength, pad)] for a one-character [pad]. *)
Definition padStart (targetLength : nat) (pad : ascii) (s : string) : string :=
  string_of_list_ascii (repeat pad (targetLength - String.length s)) +:+ s.

(** Value of one character as a digit, as [parseInt] reads it. *)
Definition digitValue (c : ascii) : option N :=
  let n := N_of_ascii c in
  if (48 <=? n) && (n <=? 57) then Some (n - 48)
  else if (97 <=? n) && (n <=? 122) then Some (n - 87)
  else if (65 <=? n) && (n <=? 90) then Some (n - 55)
  else None.

(** [parseInt(chr, radix)] on a one-character string; [NaN] is [None]. *)
Definition parseInt1 (chr : ascii) (radix : N) : option N :=
  let radix := if radix =? 0 then 10 else radix in
  if (2 <=? radix) && (radix <=? 36)
  then match digitValue chr with
       | Some d => if d <? radix then Some d else None
       | None => None
       end
  else None.

(** [xs.join('')] on an array whose elements are one-character strings or
    [undefined]; [undefined] joins as the empty string. *)
Definition join (xs : list (option ascii)) : string :=
  string_of_list_ascii (omap id xs).

(** [toUpperCase] and [toLowerCase] on strings of ASCII characters: the
    letters [a-z] and [A-Z] are converted, and every other ASCII character
    is left as it is.  Other characters are left as they are too, which is
    not what JavaScript does with all of them (it maps the sharp s to
    [SS]). *)
Definition upperChar (c : ascii) : ascii :=
  let n := N_of_ascii c in
  if (97 <=? n) && (n <=? 122) then ascii_of_N (n - 32) else c.

Definition lowerChar (c : ascii) : ascii :=
  let n := N_of_ascii c in
  if (65 <=? n) && (n <=? 90) then ascii_of_N (n + 32) else c.

Definition toUpperCase (s : string) : string :=
  string_of_list_ascii (map upperChar (chars s)).

Definition toLowerCase (s : string) : string :=
  string_of_list_ascii (map lowerChar (chars s)).

(** [s.split(sep)] for a one-character separator. *)
Fixpoint split_go (sep : ascii) (cur : list ascii) (s : list ascii)
  : list string :=
  match s with
  | [] => [string_of_list_ascii (rev cur)]
  | c :: s' =>
      if Ascii.eqb c sep
      then string_of_list_ascii (rev cur) :: split_go sep [] s'
      else split_go sep (c :: cur) s'
  end.

Definition split (sep : ascii) (s : string) : list string :=
  split_go sep [] (chars s).

(** [xs.pop()]: the last element. *)
Definition pop {A} (xs : list A) : option A := last xs.

(** [s.slice(1)] *)
Definition slice1 (s : string) : string :=
  match s with
  | EmptyString => EmptyString
  | String _ s' => s'
  end.

(** [xs.includes(x)] on an array of strings. *)
Definition includes (xs : list string) (x : string) : bool :=
  existsb (String.eqb x) xs.

(** [extname(path)] of the path library (POSIX flavour): the extension of
    the last path component, with its dot; empty when that component has
    no dot, starts with its only dot, or is [..]. *)
Fixpoint takeWhile (f : ascii → bool) (l : list ascii) : list ascii :=
  match l with
  | [] => []
  | c :: l' => if f c then c :: takeWhile f l' else []
  end.

Fixpoint dropWhile (f : ascii → bool) (l : list ascii) : list ascii :=
  match l with
  | [] => []
  | c :: l' => if f c then dropWhile f l' else l
  end.

Definition baseOf (p : list ascii) : list ascii :=
  rev (takeWhile (λ c, negb (Ascii.eqb c "/"%char))
                 (dropWhile (λ c, Ascii.eqb c "/"%char) (rev p))).

Definition extname (path : string) : string :=
  let base := baseOf (chars path) in
  let afterDot := takeWhile (λ c, negb (Ascii.eqb c "."%char)) (rev base) in
  if (List.length afterDot =? List.length base)%nat then EmptyString
  else
    let startDot := (List.length base - List.length afterDot - 1)%nat in
    if (startDot =? 0)%nat then EmptyString
    else if String.eqb (string_of_list_ascii base) ".." then EmptyString
    else string_of_list_ascii (drop startDot base).

(** [normalize(path)] of the path library (POSIX flavour).  The segments
    between separators are folded from left to right ([res] holds the
    segments kept so far, the last one first): an empty segment and [.]
    are dropped, [..] cancels the segment before it and, where there is
    none to cancel, is kept if the path is relative. *)
Definition pushSegment (allowAboveRoot : bool) (res : list string)
    (seg : string) : list string :=
  if String.eqb seg EmptyString || String.eqb seg "." then res
  else if String.eqb seg ".." then
    match res with
    | [] => if allowAboveRoot then [seg] else []
    | last :: res' =>
        if String.eqb last ".."
        then if allowAboveRoot then seg :: res else res
        else res'
    end
  else seg :: res.

Definition normalizeSegments (allowAboveRoot : bool) (segs : list string)
  : list string :=
  rev (foldl (pushSegment allowAboveRoot) [] segs).

Definition startsWithSeparator (path : string) : bool :=
  match path with
  | String c _ => Ascii.eqb c "/"%char
  | EmptyString => false
  end.

Definition endsWithSeparator (path : string) : bool :=
  match last (chars path) with
  | Some c => Ascii.eqb c "/"%char
  | None => false
  end.

Definition normalize (path : string) : string :=
  match path with
  | EmptyString => "."
  | String _ _ =>
      let isAbsolute := startsWithSeparator path in
      let p := joinWith "/" (normalizeSegments (negb isAbsolute)
                                               (split "/"%char path)) in
      let p := if String.eqb p EmptyString && negb isAbsolute then "."%string
               else p in
      let p := if negb (String.eqb p EmptyString) && endsWithSeparator path
               then p +:+ "/" else p in
      if isAbsolute then "/" +:+ p else p
  end.

(** [join(a, b)] of the path library: the non-empty arguments, joined with
    the separator and normalised. *)
Definition joinPath (a b : string) : string :=
  normalize (joinWith "/" (List.filter (λ s, negb (String.eqb s EmptyString))
                                       [a; b])).

End Js.

(** ** Configuration constants (identical in both source files) *)

Definition maxExpireDuration : N := 1 * 60 * 60.
Definition maxFileSize : N := 1024 * 1024 * 800.

Definition TYPE_EPUB : string := "application/epub+zip".
Definition TYPE_MOBI : string := "application/x-mobipocket-ebook".

Definition allowedTypes : list string :=
  [TYPE_EPUB; TYPE_MOBI; "application/pdf"; "application/vnd.comicbook+zip";
   "application/vnd.comicbook-rar"; "text/html"; "text/plain";
   "application/zip"; "application/x-rar-compressed"].

Definition allowedExtensions : list string :=
  ["epub"; "mobi"; "pdf"; "cbz"; "cbr"; "html"; "txt"].

Definition keyChars : string := "23456789ACDEFGHJKLMNPRSTUVWXYZ".
Definition keyLength : nat := 4.

(** ** The key generator *)

(** The alphabet and the code length are constants of the sources; the
    embedding takes them as a record so that the small configurations of
    the specification's scenarios can be run through the same code. *)
Record KeyConfig := {
  kc_chars : string;
  kc_length : nat
}.

Definition referenceConfig : KeyConfig :=
  {| kc_chars := keyChars; kc_length := keyLength |}.

(** [Math.pow(keyChars.length, keyLength)] *)
Definition choices (cfg : KeyConfig) : N :=
  N.of_nat (Js.length (kc_chars cfg)) ^ N.of_nat (kc_length cfg).

(** [randomKey()], given the draw [rnd = Math.floor(Math.random() * choices)].
    [None] is the RangeError of [toString] on an alphabet whose size is not
    a radix. *)
Definition randomKey (cfg : KeyConfig) (rnd : N) : option string :=
  let radix := N.of_nat (Js.length (kc_chars cfg)) in
  digits ← Js.toStringRadix radix rnd;
  Some (Js.join
          (map (λ chr, Js.parseInt1 chr radix ≫= Js.charAt (kc_chars cfg))
               (Js.chars (Js.padStart (kc_length cfg) "0"%char digits)))).

(** A configuration [randomKey] works on: the alphabet size is a radix of
    [toString] and [parseInt], and a code has at least one character. *)
Definition validConfig (cfg : KeyConfig) : Prop :=
  (2 ≤ Js.length (kc_chars cfg) ≤ 36)%nat ∧ (1 ≤ kc_length cfg)%nat.

(** The size of the key space is an integer a JavaScript number holds
    exactly: [Math.pow] returns it, every draw below it is such an integer
    as well, and [toString] writes all the digits of the draw. *)
Definition exactChoices (cfg : KeyConfig) : Prop := choices cfg ≤ 2 ^ 53.

(** Value of a digit list, most significant digit first. *)
Definition digitsValue (radix : N) (ds : list N) : N :=
  foldl (λ acc d, acc * radix + d) 0 ds.

(** The digits [randomKey] maps through the alphabet: those of the draw,
    padded with zeros at the front. *)
Definition keyDigits (cfg : KeyConfig) (rnd : N) : list N :=
  let ds := Js.toDigits (S (N.to_nat (N.log2 rnd)))
                        (N.of_nat (Js.length (kc_chars cfg))) rnd in
  repeat 0 (kc_length cfg - List.length ds) ++ ds.

(** The character of the alphabet at index [d]. *)
Definition pick (cfg : KeyConfig) (d : N) : ascii :=
  List.nth (N.to_nat d) (Js.chars (kc_chars cfg)) "0"%char.

(** A code of the key space: [kc_length] characters of the alphabet. *)
Definition inKeySpace (cfg : KeyConfig) (key : string) : Prop :=
  Js.length key = kc_length cfg
  ∧ ∀ c, In c (Js.chars key) → In c (Js.chars (kc_chars cfg)).

(** ** The allocation loop of the [generate] route

    Both sources run
    [do { key = randomKey(); if (attempts > keys.size) fail; attempts++; }
     while (keys.has(key))].
    [rnd i] is the draw of the [i]-th call of [randomKey] in this request,
    [has] and [size] are [keys.has] and [keys.size]; no other turn runs
    inside the loop, so both are fixed. *)

Inductive AllocOutcome :=
  | AllocKey (key : string)   (* the loop exits with a free key *)
  | AllocUnavailable          (* "Can't generate more keys" *)
  | AllocThrew                (* [randomKey] raised *)
  | AllocOutOfFuel.           (* artefact of the embedding, never returned *)

Record AllocResult := {
  alloc_outcome : AllocOutcome;
  alloc_draws : nat           (* number of calls of [randomKey] *)
}.

Fixpoint generateLoop (fuel : nat) (cfg : KeyConfig) (rnd : nat → N)
    (has : string → bool) (size : nat) (attempts : nat) : AllocResult :=
  match fuel with
  | O => {| alloc_outcome := AllocOutOfFuel; alloc_draws := attempts |}
  | S fuel' =>
      match randomKey cfg (rnd attempts) with
      | None => {| alloc_outcome := AllocThrew; alloc_draws := S attempts |}
      | Some key =>
          if (size <? attempts)%nat
          then {| alloc_outcome := AllocUnavailable; alloc_draws := S attempts |}
          else if has key
               then generateLoop fuel' cfg rnd has size (S attempts)
               else {| alloc_outcome := AllocKey key; alloc_draws := S attempts |}
      end
  end.

Definition allocate (cfg : KeyConfig) (rnd : nat → N)
    (has : string → bool) (size : nat) : AllocResult :=
  generateLoop (size + 2) cfg rnd has size 0.

(** Whether the alphabet size is a radix [toString] accepts. *)
Definition radixOk (cfg : KeyConfig) : bool :=
  (2 <=? N.of_nat (Js.length (kc_chars cfg)))
  && (N.of_nat (Js.length (kc_chars cfg)) <=? 36).

(** A candidate the loop would exit on: a key that is not live (or the
    exception of [randomKey]). *)
Definition isFree (has : string → bool) (c : option string) : bool :=
  match c with Some key => negb (has key) | None => true end.

(** The first candidate that is not live among the [count] candidates
    starting at draw [from]. *)
Definition firstFree (cfg : KeyConfig) (rnd : nat → N) (has : string → bool)
    (from count : nat) : AllocOutcome :=
  match List.find (isFree has)
                  (map (λ i, randomKey cfg (rnd i)) (seq from count)) with
  | Some (Some key) => AllocKey key
  | Some None => AllocThrew
  | None => AllocUnavailable
  end.

(** The retry budget as the specification words it: the first of the first
    [size + 1] candidates that is not live, and a failure when there is
    none. *)
Definition allocate_spec (cfg : KeyConfig) (rnd : nat → N)
    (has : string → bool) (size : nat) : AllocOutcome :=
  firstFree cfg rnd has 0 (size + 1).

(** What the specification says of the loop: at most [size + 1] calls of
    [randomKey], and the outcome of [allocate_spec]. *)
Definition budget_as_specified (cfg : KeyConfig) (rnd : nat → N)
    (has : string → bool) (size : nat) : Prop :=
  (alloc_draws (allocate cfg rnd has size) ≤ size + 1)%nat
  ∧ alloc_outcome (allocate cfg rnd has size) = allocate_spec cfg rnd has size.

(** ** Requests and responses *)

(** An uploaded file: [File] of the Fetch API, a multipart file of Oak. *)
Record File := {
  f_name : string;
  f_type : string;
  f_data : list Byte.byte
}.

(** [file.size] *)
Definition f_size (f : File) : N := N.of_nat (List.length (f_data f)).

Inductive HeaderValue :=
  | Literal (s : string)
  | MediaTypeOf (ext : string).  (* [contentType(ext)] of the media-type library *)

Inductive Body :=
  | BodyNone
  | BodyText (s : string)
  | BodyJson (success : bool) (message : string)
  | BodyBytes (data : list Byte.byte).

Record Response := {
  status : N;
  headers : list (string * HeaderValue);
  body : Body
}.

(** A pending [setTimeout]: when it is due, the key its closure captured
    and the identity of the [info] object the closure captured. *)
Record Timer := {
  t_due : N;
  t_key : string;
  t_oid : nat
}.

(** The answer of a successful [generate]: the key as plain text. *)
Definition keyResponse (key : string) : Response :=
  {| status := 200; headers := []; body := BodyText key |}.

(** The session lifetime in milliseconds, the delay of [setTimeout]. *)
Definition ttl : N := maxExpireDuration * 1000.

(** The map once the callbacks of the timers [L] have deleted their keys. *)
Definition deleteKeys {A} (L : list Timer) (m : gmap string A) : gmap string A :=
  foldl (λ m tm, delete (t_key tm) m) m L.

(** The pending timers and the live sessions (as the map from a key to the
    creation time and the identity of its session) correspond one to one,
    and no pending timer is due. *)
Definition TimersOk (sess : gmap string (N * nat)) (tms : list Timer)
    (now : N) (next : nat) : Prop :=
  NoDup (t_key <$> tms)
  ∧ (∀ tm, tm ∈ tms →
       now < t_due tm
       ∧ ∃ c, sess !! t_key tm = Some (c, t_oid tm) ∧ t_due tm = c + ttl)
  ∧ (∀ k c o, sess !! k = Some (c, o) →
       (o < next)%nat
       ∧ {| t_due := c + ttl; t_key := k; t_oid := o |} ∈ tms).

(** Truthiness of a string, as [if (s)] and [!s] test it: every string
    but the empty one. *)
Definition truthy (s : string) : bool :=
  match s with
  | EmptyString => false
  | String _ _ => true
  end.

(** The double-quote character. *)
Definition dquote : string := String (ascii_of_nat 34) EmptyString.

(** A string of ASCII characters. *)
Definition isAscii (s : string) : Prop :=
  Forall (λ c, N_of_ascii c < 128) (Js.chars s).

(** No character of [s] is [c]. *)
Definition lacks (c : ascii) (s : string) : Prop := ¬ In c (Js.chars s).

(** ** The router variant: files in memory *)

Module Mem.

(** The [info] object of a session.  [oid] is the identity of the object;
    the field [urls] is never read. *)
Record Info := {
  created : N;
  agent : string;
  fileId : option string;
  oid : nat
}.

(** An entry of the [files] map. *)
Record Stored := {
  data : list Byte.byte;
  name : string;
  type : string
}.

Record State := {
  keys : gmap string Info;
  files : gmap string Stored;
  timers : list Timer;
  now : N;             (* the clock, in milliseconds *)
  nextOid : nat        (* identities handed to [info] objects so far *)
}.

Definition init : State :=
  {| keys := ∅; files := ∅; timers := []; now := 0; nextOid := 0 |}.

Definition has (st : State) (key : string) : bool :=
  bool_decide (is_Some (keys st !! key)).

(** *** [POST /api/generate] *)

Definition unavailable : Response :=
  {| status := 503; headers := []; body := BodyText "Can't generate more keys" |}.

Definition serverError : Response :=
  {| status := 500; headers := []; body := BodyNone |}.

Definition generate (cfg : KeyConfig) (st : State) (agent : string)
    (rnd : nat → N) : State * Response :=
  match alloc_outcome (allocate cfg rnd (has st) (size (keys st))) with
  | AllocKey key =>
      let info := {| created := now st; agent := agent; fileId := None;
                     oid := nextOid st |} in
      ({| keys := <[key := info]> (keys st);
          files := files st;
          timers := timers st ++
                    [{| t_due := now st + ttl;
                        t_key := key; t_oid := nextOid st |}];
          now := now st;
          nextOid := S (nextOid st) |},
       keyResponse key)
  | AllocUnavailable => (st, unavailable)
  | AllocThrew | AllocOutOfFuel => (st, serverError)
  end.

(** *** The expiration callback *)

Definition expire (tm : Timer) (st : State) : State :=
  match keys st !! t_key tm with
  | Some info =>
      let files' :=
        match fileId info with
        | Some id =>
            if truthy id && bool_decide (is_Some (files st !! id))
            then delete id (files st) else files st
        | None => files st
        end in
      {| keys := delete (t_key tm) (keys st);
         files := files';
         timers := timers st;
         now := now st;
         nextOid := nextOid st |}
  | None => st
  end.

(** The timer [tm] is due at time [t]. *)
Definition isDue (t : N) (tm : Timer) : bool := t_due tm <=? t.

(** The state in which the callbacks of an [advance] start to run. *)
Definition beforeCallbacks (dt : N) (st : State) : State :=
  {| keys := keys st; files := files st;
     timers := List.filter (λ tm, negb (isDue (now st + dt) tm)) (timers st);
     now := now st + dt; nextOid := nextOid st |}.

(** Advancing the simulated clock by [dt] milliseconds runs the callbacks
    of the timers that are due, oldest first, and leaves the others
    pending. *)
Definition advance (dt : N) (st : State) : State :=
  foldl (λ s tm, expire tm s) (beforeCallbacks dt st)
        (List.filter (isDue (now st + dt)) (timers st)).

(** *** [POST /api/upload] *)

Inductive FormValue :=
  | FVString (s : string)
  | FVFile (f : File).

(** [v.toString()] *)
Definition fvToString (v : FormValue) : string :=
  match v with
  | FVString s => s
  | FVFile _ => "[object File]"
  end.

Record FormData := {
  fd_key : option FormValue;    (* [formData.get("key")] *)
  fd_file : option FormValue    (* [formData.get("file")] *)
}.

Inductive ReqBody :=
  | NoBody
  | Malformed (message : string)  (* [req.formData()] rejects *)
  | Form (fd : FormData).

Definition badRequest (message : string) : Response :=
  {| status := 400;
     headers := [("Content-Type", Literal "application/json")];
     body := BodyJson false message |}.

Definition uploaded : Response :=
  {| status := 200;
     headers := [("Content-Type", Literal "application/json")];
     body := BodyJson true "File uploaded successfully" |}.

(** [file.name.split('.').pop()?.toLowerCase()] *)
Definition fileExt (f : File) : option string :=
  Js.toLowerCase <$> Js.pop (Js.split "."%char (f_name f)).

(** [uuid] is the value of [crypto.randomUUID()], drawn only when the
    request passed every check. *)
Definition upload (st : State) (req : ReqBody) (uuid : string)
  : State * Response :=
  match req with
  | NoBody => (st, badRequest "No body provided")
  | Malformed message => (st, badRequest message)
  | Form fd =>
      match Js.toUpperCase <$> (fvToString <$> fd_key fd) with
      | None => (st, badRequest "Invalid key")
      | Some key =>
          match (if truthy key then keys st !! key else None) with
          | None => (st, badRequest "Invalid key")
          | Some info =>
              match fd_file fd with
              | Some (FVFile file) =>
                  match fileExt file with
                  | Some ext =>
                      if truthy ext && Js.includes allowedExtensions ext
                      then
                        ({| keys :=
                              <[key := {| created := created info;
                                          agent := agent info;
                                          fileId := Some uuid;
                                          oid := oid info |}]> (keys st);
                            files :=
                              <[uuid := {| data := f_data file;
                                           name := f_name file;
                                           type := f_type file |}]> (files st);
                            timers := timers st;
                            now := now st;
                            nextOid := nextOid st |},
                         uploaded)
                      else (st, badRequest "Invalid file type")
                  | None => (st, badRequest "Invalid file type")
                  end
              | _ => (st, badRequest "No file uploaded")
              end
          end
      end
  end.

(** *** The two halves of an upload

    [await file.arrayBuffer()] separates the checks and [keys.get(key)]
    from [files.set] and [info.fileId = fileId]: other turns of the event
    loop, the expiration of the session among them, can run in between.
    [upload] above is the handler that resumes in the state in which it
    suspended. *)

(** What the handler holds when it suspends: the key, the [info] object it
    read (by its identity) and the file. *)
Record Pending := {
  pd_key : string;
  pd_oid : nat;
  pd_file : File
}.

(** The handler up to the [await]: the message of the error it throws, or
    what it holds when it suspends. *)
Definition suspend (st : State) (req : ReqBody) : string + Pending :=
  match req with
  | NoBody => inl "No body provided"
  | Malformed message => inl message
  | Form fd =>
      match Js.toUpperCase <$> (fvToString <$> fd_key fd) with
      | None => inl "Invalid key"
      | Some key =>
          match (if truthy key then keys st !! key else None) with
          | None => inl "Invalid key"
          | Some info =>
              match fd_file fd with
              | Some (FVFile file) =>
                  match fileExt file with
                  | Some ext =>
                      if truthy ext && Js.includes allowedExtensions ext
                      then inr {| pd_key := key; pd_oid := oid info;
                                  pd_file := file |}
                      else inl "Invalid file type"
                  | None => inl "Invalid file type"
                  end
              | _ => inl "No file uploaded"
              end
          end
      end
  end.

(** The entry of [files] the handler stores for the file [f]. *)
Definition blobOf (f : File) : Stored :=
  {| data := f_data f; name := f_name f; type := f_type f |}.

(** The handler from the [await] on, in the state [st] in which it resumes:
    [files.set], then [info.fileId = fileId] on the object it holds, which
    is stored under the key only if the session is still live; the answer
    is [uploaded]. *)
Definition resume (st : State) (p : Pending) (uuid : string) : State :=
  {| keys :=
       match keys st !! pd_key p with
       | Some info =>
           if bool_decide (oid info = pd_oid p)
           then <[pd_key p := {| created := created info;
                                 agent := agent info;
                                 fileId := Some uuid;
                                 oid := oid info |}]> (keys st)
           else keys st
       | None => keys st
       end;
     files := <[uuid := blobOf (pd_file p)]> (files st);
     timers := timers st;
     now := now st;
     nextOid := nextOid st |}.

(** *** [GET /api/download/:key] *)

Definition notFound : Response :=
  {| status := 404; headers := []; body := BodyText "File not found" |}.

Definition download (st : State) (key : string) : Response :=
  if negb (truthy key) then notFound
  else
    match keys st !! key with
    | None => notFound
    | Some info =>
        match fileId info with
        | Some id =>
            if truthy id
            then match files st !! id with
                 | Some file =>
                     {| status := 200;
                        headers :=
                          [("Content-Type", Literal (type file));
                           ("Content-Disposition",
                            Literal ("attachment; filename=" +:+ dquote
                                     +:+ name file +:+ dquote))];
                        body := BodyBytes (data file) |}
                 | None => notFound
                 end
            else notFound
        | None => notFound
        end
    end.

(** *** The server as a transition system *)

Inductive Event :=
  | EvGenerate (agent : string) (rnd : nat → N)
  | EvUpload (req : ReqBody) (uuid : string)
  | EvDownload (key : string)
  | EvAdvance (dt : N).

Definition exec (cfg : KeyConfig) (st : State) (ev : Event) : State :=
  match ev with
  | EvGenerate agent rnd => fst (generate cfg st agent rnd)
  | EvUpload req uuid => fst (upload st req uuid)
  | EvDownload _ => st
  | EvAdvance dt => advance dt st
  end.

(** What the environment guarantees about the inputs of the model:
    [crypto.randomUUID()] never returns the empty string. *)
Definition admissible (st : State) (ev : Event) : Prop :=
  match ev with
  | EvUpload _ uuid => truthy uuid = true
  | _ => True
  end.

Inductive steps (cfg : KeyConfig) : State → State → Prop :=
  | steps_refl st : steps cfg st st
  | steps_step st st' ev :
      steps cfg st st' → admissible st' ev → steps cfg st (exec cfg st' ev).

Definition reachable (cfg : KeyConfig) (st : State) : Prop :=
  steps cfg init st.

(** The callback of [tm] fires in state [sti]: some reachable state
    advances its clock, [tm] is among the timers then due, and [sti] is the
    state the callbacks of the timers before it have left. *)
Definition fires (cfg : KeyConfig) (tm : Timer) (sti : State) : Prop :=
  ∃ st dt before after,
    reachable cfg st
    ∧ List.filter (isDue (now st + dt)) (timers st) = before ++ tm :: after
    ∧ sti = foldl (λ s tm, expire tm s) (beforeCallbacks dt st) before.

(** Key, creation time and identity of the live sessions. *)
Definition sessions (st : State) : gmap string (N * nat) :=
  (λ info, (created info, oid info)) <$> keys st.

(** The invariant of the reachable states. *)
Definition Inv (st : State) : Prop :=
  TimersOk (sessions st) (timers st) (now st) (nextOid st)
  ∧ ∀ key info id,
      keys st !! key = Some info → fileId info = Some id → truthy id = true.

End Mem.

(** ** The Oak variant: files on disk *)

Module Oak.

(** [info.file], the object [handleUpload] returns. *)
Record FileInfo := {
  filename : string;
  path : string;
  type : string
}.

(** The [info] object of a session.  [oid] is the identity of the object,
    which the expiration callback compares with [===]; the fields [urls]
    and [timer] are never read. *)
Record Info := {
  created : N;
  agent : string;
  file : option FileInfo;
  oid : nat
}.

Record State := {
  keys : gmap string Info;
  disk : gmap string (list Byte.byte);   (* the files, by normalised path *)
  timers : list Timer;
  now : N;
  nextOid : nat
}.

Definition init : State :=
  {| keys := ∅; disk := ∅; timers := []; now := 0; nextOid := 0 |}.

Definition has (st : State) (key : string) : bool :=
  bool_decide (is_Some (keys st !! key)).

(** *** [POST /generate] *)

Definition unavailable : Response :=
  {| status := 503; headers := []; body := BodyText "Can't generate more keys" |}.

Definition serverError : Response :=
  {| status := 500; headers := []; body := BodyNone |}.

Definition generate (cfg : KeyConfig) (st : State) (agent : string)
    (rnd : nat → N) : State * Response :=
  match alloc_outcome (allocate cfg rnd (has st) (size (keys st))) with
  | AllocKey key =>
      let info := {| created := now st; agent := agent; file := None;
                     oid := nextOid st |} in
      ({| keys := <[key := info]> (keys st);
          disk := disk st;
          timers := timers st ++
                    [{| t_due := now st + ttl;
                        t_key := key; t_oid := nextOid st |}];
          now := now st;
          nextOid := S (nextOid st) |},
       keyResponse key)
  | AllocUnavailable => (st, unavailable)
  | AllocThrew | AllocOutOfFuel => (st, serverError)
  end.

(** *** The expiration callback

    [keys.get(key) === info] holds when the object stored under the key is
    the one the closure captured; [Deno.removeSync] either removes the file
    or raises, and the callback catches that. *)
Definition expire (tm : Timer) (st : State) : State :=
  match keys st !! t_key tm with
  | Some info =>
      if bool_decide (oid info = t_oid tm)
      then
        {| keys := delete (t_key tm) (keys st);
           disk := match file info with
                   | Some f => if truthy (path f)
                               then delete (path f) (disk st) else disk st
                   | None => disk st
                   end;
           timers := timers st;
           now := now st;
           nextOid := nextOid st |}
      else st
  | None => st
  end.

(** The timer [tm] is due at time [t]. *)
Definition isDue (t : N) (tm : Timer) : bool := t_due tm <=? t.

(** The state in which the callbacks of an [advance] start to run. *)
Definition beforeCallbacks (dt : N) (st : State) : State :=
  {| keys := keys st; disk := disk st;
     timers := List.filter (λ tm, negb (isDue (now st + dt) tm)) (timers st);
     now := now st + dt; nextOid := nextOid st |}.

(** Advancing the simulated clock by [dt] milliseconds runs the callbacks
    of the timers that are due, oldest first, and leaves the others
    pending. *)
Definition advance (dt : N) (st : State) : State :=
  foldl (λ s tm, expire tm s) (beforeCallbacks dt st)
        (List.filter (isDue (now st + dt)) (timers st)).

(** *** [handleUpload] and [POST /upload] *)

Inductive ReqBody :=
  | NotFormData                      (* [body.type !== "form-data"] *)
  | FormDataBody (files : list File).  (* [data.files] *)

Record UploadReq := {
  up_body : ReqBody;
  up_key : option string             (* the request header [key] *)
}.

(** [fileExt] of [handleUpload]:
    [extname(file.filename).toLowerCase().slice(1)]. *)
Definition fileExt (f : File) : string :=
  Js.slice1 (Js.toLowerCase (Js.extname (f_name f))).

(** [join("uploads", `${uuid}-${file.filename}`)]: the path is normalised,
    so the separators and the [..] of a file name take effect. *)
Definition uploadPath (uuid : string) (f : File) : string :=
  Js.joinPath "uploads" (uuid +:+ "-" +:+ f_name f).

(** A name the file system takes for a file: not empty, not [.] or [..],
    at most 255 characters, none of them NUL. *)
Definition validName (name : string) : bool :=
  negb (String.eqb name EmptyString || String.eqb name "."
        || String.eqb name "..")
  && (String.length name <=? 255)%nat
  && forallb (λ c, negb (Ascii.eqb c Ascii.zero)) (Js.chars name).

(** One path component: a name the file system takes, without a path
    separator. *)
Definition component (c : string) : Prop :=
  lacks "/"%char c ∧ validName c = true.

(** Whether [Deno.open(p, {write: true, create: true})] succeeds on the
    normalised path [p]: the parent of [p] has to be a directory that
    exists, one of [uploads], the working directory and its ancestors, and
    [p] must not name a directory itself.  Otherwise [Deno.open] raises. *)
Definition canOpen (p : string) : bool :=
  match rev (Js.split "/"%char p) with
  | name :: parents =>
      validName name
      && (match parents with
          | [dir] => String.eqb dir "uploads" || String.eqb dir ".."
          | [] => negb (String.eqb name "uploads")
          | _ => forallb (String.eqb "..") parents
          end)
  | [] => false
  end.

(** The message of the error [Deno.open] raises, which the route copies
    into its answer.  Its text depends on the version of the runtime; the
    theorems below only use the status of that answer. *)
Definition openError : string := "No such file or directory (os error 2)".

(** [copy(file.content, file)] on the file [Deno.open] returned: the file
    was created if absent, and it is written from its start, without
    truncation. *)
Definition writeFile (p : string) (content : list Byte.byte)
    (d : gmap string (list Byte.byte)) : gmap string (list Byte.byte) :=
  <[p := content ++ drop (List.length content) (default [] (d !! p))]> d.

(** The object [handleUpload] returns for the file [f]. *)
Definition fileInfoOf (uuid : string) (f : File) : FileInfo :=
  {| filename := f_name f; path := uploadPath uuid f; type := f_type f |}.

(** The state once [handleUpload] has saved [f]. *)
Definition afterWrite (st : State) (uuid : string) (f : File) : State :=
  {| keys := keys st;
     disk := writeFile (uploadPath uuid f) (f_data f) (disk st);
     timers := timers st;
     now := now st;
     nextOid := nextOid st |}.

(** [if (info.file?.path) { try { await Deno.remove(info.file.path) } ... }]:
    the previous file of the session is removed; a failure of the removal
    is caught and logged. *)
Definition removePrevious (info : Info) (d : gmap string (list Byte.byte))
  : gmap string (list Byte.byte) :=
  match file info with
  | Some old => if truthy (path old) then delete (path old) d else d
  | None => d
  end.

(** [info.file = file] *)
Definition withFile (info : Info) (f : FileInfo) : Info :=
  {| created := created info; agent := agent info; file := Some f;
     oid := oid info |}.

(** [handleUpload]: the state after it and either the message of the error
    it throws or the object it returns.  An error of [Deno.open] leaves the
    function before anything is written. *)
Definition handleUpload (st : State) (req : UploadReq) (uuid : string)
  : State * (string + FileInfo) :=
  match up_body req with
  | NotFormData => (st, inl "Expected multipart form data")
  | FormDataBody files =>
      match head files with
      | None => (st, inl "No file uploaded")
      | Some f =>
          if Js.includes allowedExtensions (fileExt f)
          then if canOpen (uploadPath uuid f)
               then (afterWrite st uuid f, inr (fileInfoOf uuid f))
               else (st, inl openError)
          else (st, inl "Invalid file type")
      end
  end.

(** The [catch] of the route answers every error with status 400. *)
Definition badRequest (message : string) : Response :=
  {| status := 400; headers := []; body := BodyJson false message |}.

Definition uploaded : Response :=
  {| status := 200; headers := [];
     body := BodyJson true "File uploaded successfully" |}.

Definition upload (st : State) (req : UploadReq) (uuid : string)
  : State * Response :=
  match handleUpload st req uuid with
  | (st1, inl message) => (st1, badRequest message)
  | (st1, inr f) =>
      match Js.toUpperCase <$> up_key req with
      | None => (st1, badRequest "Invalid key")
      | Some key =>
          match (if truthy key then keys st1 !! key else None) with
          | None => (st1, badRequest "Invalid key")
          | Some info =>
              ({| keys := <[key := withFile info f]> (keys st1);
                  disk := removePrevious info (disk st1);
                  timers := timers st1;
                  now := now st1;
                  nextOid := nextOid st1 |},
               uploaded)
          end
      end
  end.

(** *** [GET /:filename?key=...]

    The handler never assigns [ctx.response.body]: [copy(file, undefined)]
    raises at its first write, which the framework answers with status 500.
    Only an empty file is copied without a write; the handler then returns
    with the two headers set and no body, which the framework answers with
    status 404. *)

Definition notFound : Response :=
  {| status := 404; headers := []; body := BodyText "Not Found" |}.

(** The answer to a handler that returned without a body. *)
Definition noBody (f : FileInfo) : Response :=
  {| status := 404;
     headers :=
       [("Content-Type", MediaTypeOf (Js.extname (path f)));
        ("Content-Disposition",
         Literal ("attachment; filename=" +:+ dquote
                  +:+ filename f +:+ dquote))];
     body := BodyNone |}.

Definition download (st : State) (key : option string) : Response :=
  match key with
  | None => notFound
  | Some key =>
      match (if truthy key then keys st !! key else None) with
      | None => notFound
      | Some info =>
          match file info with
          | None => notFound
          | Some f =>
              match disk st !! path f with
              | None => serverError          (* [Deno.open] raises *)
              | Some [] => noBody f          (* nothing to copy *)
              | Some (_ :: _) => serverError (* [copy] raises *)
              end
          end
      end
  end.

(** *** The server as a transition system *)

Inductive Event :=
  | EvGenerate (agent : string) (rnd : nat → N)
  | EvUpload (req : UploadReq) (uuid : string)
  | EvDownload (key : option string)
  | EvAdvance (dt : N).

Definition exec (cfg : KeyConfig) (st : State) (ev : Event) : State :=
  match ev with
  | EvGenerate agent rnd => fst (generate cfg st agent rnd)
  | EvUpload req uuid => fst (upload st req uuid)
  | EvDownload _ => st
  | EvAdvance dt => advance dt st
  end.

(** The runs of the server: any requests, with any file names, keys and
    values of [crypto.randomUUID()], and any advances of the clock. *)
Inductive steps (cfg : KeyConfig) : State → State → Prop :=
  | steps_refl st : steps cfg st st
  | steps_step st st' ev :
      steps cfg st st' → steps cfg st (exec cfg st' ev).

Definition reachable (cfg : KeyConfig) (st : State) : Prop :=
  steps cfg init st.

(** Key, creation time and identity of the live sessions. *)
Definition sessions (st : State) : gmap string (N * nat) :=
  (λ info, (created info, oid info)) <$> keys st.

(** The file of every session has a non-empty path. *)
Definition PathsOk (st : State) : Prop :=
  ∀ key info f,
    keys st !! key = Some info → file info = Some f → truthy (path f) = true.

(** The invariant of the reachable states. *)
Definition Inv (st : State) : Prop :=
  TimersOk (sessions st) (timers st) (now st) (nextOid st) ∧ PathsOk st.



(** An ASCII character other than the path separator. *)
Definition plainChar (c : ascii) : bool :=
  (N_of_ascii c <? 128) && negb (Ascii.eqb c "/"%char).

(** The file is saved under a name of its own in [uploads/]: the
    identifier and the file name are strings of ASCII characters without a
    path separator, so that [join] has nothing to normalise, and
    [<uuid>-<name>] is a name the file system takes. *)
Definition plainUpload (uuid : string) (f : File) : Prop :=
  forallb plainChar (Js.chars (uuid +:+ "-" +:+ f_name f)) = true
  ∧ validName (uuid +:+ "-" +:+ f_name f) = true.

(** What [crypto.randomUUID()] guarantees for such an upload: the
    identifier was not issued before, so the path it yields names no file
    on disk. *)
Definition plainEvent (st : State) (ev : Event) : Prop :=
  match ev with
  | EvUpload req uuid =>
      match up_body req with
      | FormDataBody (f :: _) =>
          plainUpload uuid f ∧ disk st !! uploadPath uuid f = None
      | _ => True
      end
  | _ => True
  end.

(** The runs of the server in which every upload is a [plainEvent]. *)
Inductive plainSteps (cfg : KeyConfig) : State → State → Prop :=
  | plainSteps_refl st : plainSteps cfg st st
  | plainSteps_step st st' ev :
      plainSteps cfg st st' → plainEvent st' ev →
      plainSteps cfg st (exec cfg st' ev).

(** The session stored under the key of [tm], if any, is the one [tm] was
    scheduled for. *)
Definition scheduledFor (tm : Timer) (st : State) : Prop :=
  ∀ info, keys st !! t_key tm = Some info → oid info = t_oid tm.

(** A request of [POST /upload] whose key is missing or names no live
    session. *)
Definition keyInvalid (st : State) (req : UploadReq) : Prop :=
  match Js.toUpperCase <$> up_key req with
  | None => True
  | Some key => truthy key = false ∨ keys st !! key = None
  end.

(** The key of the request, if it has one, is a string of ASCII
    characters. *)
Definition asciiKey (req : UploadReq) : Prop :=
  match up_key req with
  | None => True
  | Some key => isAscii key
  end.


End Oak.

(** ** [doTransliterate] of [index.js]

    [name.normalize("NFD").replace(/[\u0300-\u036f]/g, ...)] leaves a string
    of ASCII characters as it is; the embedding covers those names (the
    extension, which the function copies, may be any string). *)

(** The character class [[a-zA-Z0-9]]. *)
Definition isAlnum (c : ascii) : bool :=
  let n := N_of_ascii c in
  ((48 <=? n) && (n <=? 57)) || ((65 <=? n) && (n <=? 90))
  || ((97 <=? n) && (n <=? 122)).

(** [.replace(/[^a-zA-Z0-9]/g, "-")] *)
Definition dashed (s : string) : string :=
  string_of_list_ascii
    (map (λ c, if isAlnum c then c else "-"%char) (Js.chars s)).

(** [name.splice(-1)] returns the array of the last segment and leaves the
    segments before it in [name]. *)
Definition doTransliterate (filename : string) : string :=
  let name := Js.split "."%char filename in
  let ext := "." +:+ joinWith "." (option_list (Js.pop name)) in
  let name := joinWith "." (removelast name) in
  dashed name +:+ ext.

(** ** Predicates of the further properties *)

(** A file name that can be written between the quotes of a header value:
    printable ASCII characters. *)
Definition nameSafe (s : string) : Prop :=
  Forall (λ c, 32 ≤ N_of_ascii c < 127) (Js.chars s).

(** A media type that can be written as a header value: visible ASCII
    characters. *)
Definition typeSafe (s : string) : Prop :=
  Forall (λ c, 32 < N_of_ascii c < 127) (Js.chars s).

(** [toUpperCase] leaves the characters of the alphabet as they are. *)
Definition upperStable (cfg : KeyConfig) : Prop :=
  Forall (λ c, Js.upperChar c = c) (Js.chars (kc_chars cfg)).

(** Every key of the map is a non-empty string over the alphabet. *)
Definition KeysOver {A} (cfg : KeyConfig) (m : gmap string A) : Prop :=
  ∀ key, is_Some (m !! key) →
         truthy key = true
         ∧ Forall (λ c, In c (Js.chars (kc_chars cfg))) (Js.chars key).

(** ** Scenarios

    The concrete requests and states the examples, the witnesses and the
    failing inputs below are evaluated on. *)

(** The configuration of the exhaustion scenario: 2 symbols, 1 character. *)
Definition twoCodes : KeyConfig := {| kc_chars := "AB"; kc_length := 1 |}.

Definition book : File :=
  {| f_name := "book.epub"; f_type := TYPE_EPUB;
     f_data := repeat Byte.x00 10 |}.

Definition book2 : File :=
  {| f_name := "book2.pdf"; f_type := "application/pdf";
     f_data := repeat Byte.x01 3 |}.

(** A file with an allowed extension, a media type outside [allowedTypes]
    and one byte more than [maxFileSize]. *)
Definition oversized : File :=
  {| f_name := "book.epub"; f_type := "application/x-msdownload";
     f_data := repeat Byte.x00 (N.to_nat (maxFileSize + 1)) |}.

(** A file with an allowed extension whose name has a directory
    component. *)
Definition nested : File :=
  {| f_name := "sub/b.epub"; f_type := TYPE_EPUB;
     f_data := repeat Byte.x00 10 |}.

(** A file whose name leads [join], whatever the identifier, to the path
    [uploads/uuid-2-book2.pdf]. *)
Definition crafted : File :=
  {| f_name := "x/../uuid-2-book2.pdf"; f_type := "application/pdf";
     f_data := repeat Byte.x02 3 |}.

Definition memForm (key : string) (f : File) : Mem.ReqBody :=
  Mem.Form {| Mem.fd_key := Some (Mem.FVString key);
              Mem.fd_file := Some (Mem.FVFile f) |}.

Definition oakReq (key : option string) (f : File) : Oak.UploadReq :=
  {| Oak.up_body := Oak.FormDataBody [f]; Oak.up_key := key |}.

(** The router variant: a key is generated (the draw 12345 gives "2GRJ"),
    [book] is uploaded to it, then [book2]. *)
Definition mem1 : Mem.State :=
  Mem.exec referenceConfig Mem.init (Mem.EvGenerate "agent" (λ _, 12345)).
Definition mem2 : Mem.State :=
  Mem.exec referenceConfig mem1 (Mem.EvUpload (memForm "2grj" book) "uuid-1").
Definition mem3 : Mem.State :=
  Mem.exec referenceConfig mem2 (Mem.EvUpload (memForm "2grj" book2) "uuid-2").

(** The same in the Oak variant. *)
Definition oak1 : Oak.State :=
  Oak.exec referenceConfig Oak.init (Oak.EvGenerate "agent" (λ _, 12345)).
Definition oak2 : Oak.State :=
  Oak.exec referenceConfig oak1
           (Oak.EvUpload (oakReq (Some "2grj") book) "uuid-1").
Definition oak3 : Oak.State :=
  Oak.exec referenceConfig oak2
           (Oak.EvUpload (oakReq (Some "2grj") book2) "uuid-2").

(** The exhaustion scenario: both codes of [twoCodes] are allocated. *)
Definition memFull : Mem.State :=
  Mem.exec twoCodes
    (Mem.exec twoCodes Mem.init (Mem.EvGenerate "agent" (λ _, 0)))
    (Mem.EvGenerate "agent" (λ _, 1)).
Definition oakFull : Oak.State :=
  Oak.exec twoCodes
    (Oak.exec twoCodes Oak.init (Oak.EvGenerate "agent" (λ _, 0)))
    (Oak.EvGenerate "agent" (λ _, 1)).

(** * Running the definitions *)

Example randomKey_0 : randomKey referenceConfig 0 = Some "2222".
Proof. reflexivity. Qed.

Example randomKey_last : randomKey referenceConfig 809999 = Some "ZZZZ".
Proof. vm_compute. reflexivity. Qed.

Example randomKey_12345 : randomKey referenceConfig 12345 = Some "2GRJ".
Proof. vm_compute. reflexivity. Qed.

Example extname_epub : Js.extname "My.Book.EPUB" = ".EPUB".
Proof. reflexivity. Qed.

Example extname_hidden : Js.extname ".bashrc" = EmptyString.
Proof. reflexivity. Qed.

Example extname_dotdot : Js.extname "a/.." = EmptyString.
Proof. reflexivity. Qed.

Example extname_dir : Js.extname "a.b/c.txt/" = ".txt".
Proof. reflexivity. Qed.

Example normalize_dots : Js.normalize "a//b/./c/../d/" = "a/b/d/".
Proof. reflexivity. Qed.

Example normalize_above_root : Js.normalize "/../a" = "/a".
Proof. reflexivity. Qed.

Example joinPath_name :
  Js.joinPath "uploads" "uuid-1-book.epub" = "uploads/uuid-1-book.epub".
Proof. reflexivity. Qed.

Example joinPath_dotdot :
  Js.joinPath "uploads" "uuid-3-x/../b.epub" = "uploads/b.epub".
Proof. reflexivity. Qed.

Example joinPath_above :
  Js.joinPath "uploads" "uuid-3-x/../../../b.epub" = "../b.epub".
Proof. reflexivity. Qed.

Example canOpen_nested :
  Oak.uploadPath "uuid-2" nested = "uploads/uuid-2-sub/b.epub"
  ∧ Oak.canOpen (Oak.uploadPath "uuid-2" nested) = false.
Proof. vm_compute. done. Qed.

Example canOpen_crafted :
  Oak.uploadPath "uuid-3" crafted = "uploads/uuid-2-book2.pdf"
  ∧ Oak.canOpen (Oak.uploadPath "uuid-3" crafted) = true.
Proof. vm_compute. done. Qed.

Example mem_fileExt_no_dot :
  Mem.fileExt {| f_name := "epub"; f_type := "x"; f_data := [] |} = Some "epub".
Proof. reflexivity. Qed.

Example oak_fileExt_no_dot :
  Oak.fileExt {| f_name := "epub"; f_type := "x"; f_data := [] |} = EmptyString.
Proof. reflexivity. Qed.

Example mem_scenario_download :
  Mem.download mem2 "2GRJ"
  = {| status := 200;
       headers := [("Content-Type", Literal TYPE_EPUB);
                   ("Content-Disposition",
                    Literal ("attachment; filename=" +:+ dquote
                             +:+ "book.epub" +:+ dquote))];
       body := BodyBytes (repeat Byte.x00 10) |}.
Proof. vm_compute. reflexivity. Qed.

Example mem_scenario_expired :
  Mem.download (Mem.advance 3600000 mem3) "2GRJ" = Mem.notFound.
Proof. vm_compute. reflexivity. Qed.

Example oak_scenario_rebind :
  Oak.disk oak3 !! Oak.uploadPath "uuid-1" book = None
  ∧ Oak.disk oak3 !! Oak.uploadPath "uuid-2" book2 = Some (f_data book2).
Proof. vm_compute. done. Qed.

Example oakFull_unavailable :
  Oak.generate twoCodes oakFull "agent" (λ _, 1) = (oakFull, Oak.unavailable).
Proof. vm_compute. reflexivity. Qed.

Example memFull_keys :
  is_Some (Mem.keys memFull !! "A") ∧ is_Some (Mem.keys memFull !! "B")
  ∧ size (Mem.keys memFull) = 2%nat.
Proof. vm_compute. eauto. Qed.

(** * Facts about the JavaScript primitives *)

Section Digits.

Lemma digitsValue_snoc radix ds d :
  digitsValue radix (ds ++ [d]) = digitsValue radix ds * radix + d.
Proof. unfold digitsValue. by rewrite foldl_app. Qed.

Lemma toDigits_value fuel : ∀ radix n,
  2 ≤ radix → n < 2 ^ N.of_nat fuel →
  digitsValue radix (Js.toDigits fuel radix n) = n.
Proof.
  induction fuel as [|fuel IH]; intros radix n Hr Hn.
  - simpl in Hn. assert (n = 0) as -> by lia. reflexivity.
  - cbn [Js.toDigits]. destruct (N.ltb_spec n radix) as [Hlt|Hge].
    + unfold digitsValue. simpl. lia.
    + rewrite digitsValue_snoc, IH; [|done|].
      * pose proof (N.div_mod n radix ltac:(lia)). lia.
      * rewrite Nat2N.inj_succ, N.pow_succ_r' in Hn.
        apply N.Div0.div_lt_upper_bound.
        eapply N.lt_le_trans; [exact Hn|].
        apply N.mul_le_mono_r. done.
Qed.

Lemma toDigits_bounded fuel : ∀ radix n,
  0 < radix → Forall (λ d, d < radix) (Js.toDigits fuel radix n).
Proof.
  induction fuel as [|fuel IH]; intros radix n Hr; cbn [Js.toDigits].
  - constructor.
  - destruct (N.ltb_spec n radix) as [Hlt|Hge].
    + by repeat constructor.
    + apply Forall_app. split; [by apply IH|].
      repeat constructor. apply N.mod_lt. lia.
Qed.

Lemma toDigits_length fuel : ∀ radix n k,
  2 ≤ radix → n < radix ^ N.of_nat k → (1 ≤ k)%nat →
  (List.length (Js.toDigits fuel radix n) ≤ k)%nat.
Proof.
  induction fuel as [|fuel IH]; intros radix n k Hr Hn Hk; cbn [Js.toDigits].
  - simpl. lia.
  - destruct (N.ltb_spec n radix) as [Hlt|Hge].
    + simpl. lia.
    + rewrite length_app. simpl.
      destruct k as [|[|k]]; [lia| |].
      * simpl in Hn. rewrite N.pow_1_r in Hn. lia.
      * specialize (IH radix (n / radix) (S k) Hr).
        rewrite (Nat2N.inj_succ (S k)), N.pow_succ_r' in Hn.
        assert (n / radix < radix ^ N.of_nat (S k)).
        { apply N.Div0.div_lt_upper_bound. lia. }
        specialize (IH H). lia.
Qed.

Lemma log2_fuel n : n < 2 ^ N.of_nat (S (N.to_nat (N.log2 n))).
Proof.
  rewrite Nat2N.inj_succ, N2Nat.id.
  destruct (N.eq_dec n 0) as [->|Hn]; [done|].
  apply N.log2_spec. lia.
Qed.

(** Two digit lists of the same length with the same value are equal. *)
Lemma digits_unique radix : ∀ ds1 ds2,
  List.length ds1 = List.length ds2 →
  Forall (λ d, d < radix) ds1 → Forall (λ d, d < radix) ds2 →
  digitsValue radix ds1 = digitsValue radix ds2 → ds1 = ds2.
Proof.
  induction ds1 as [|d1 ds1 IH] using rev_ind;
    intros ds2 Hlen Hb1 Hb2 Hval.
  - destruct ds2; [done|discriminate].
  - destruct ds2 as [|d2 ds2 _] using rev_ind.
    { rewrite length_app in Hlen. simpl in Hlen. lia. }
    rewrite !length_app in Hlen. simpl in Hlen.
    apply Forall_app in Hb1 as [Hb1 Hd1]. apply Forall_app in Hb2 as [Hb2 Hd2].
    apply Forall_inv in Hd1, Hd2.
    rewrite !digitsValue_snoc in Hval.
    assert (digitsValue radix ds1 = digitsValue radix ds2 ∧ d1 = d2) as [Hv ->].
    { apply (N.div_mod_unique radix); [done..|lia]. }
    f_equal. apply IH; [lia|done..].
Qed.

Lemma digitsValue_bound radix : ∀ ds,
  Forall (λ d, d < radix) ds →
  digitsValue radix ds < radix ^ N.of_nat (List.length ds).
Proof.
  induction ds as [|d ds IH] using rev_ind; intros Hb.
  - change (0 < radix ^ 0). rewrite N.pow_0_r. lia.
  - apply Forall_app in Hb as [Hb Hd]. apply Forall_inv in Hd.
    rewrite digitsValue_snoc, length_app, Nat.add_1_r, Nat2N.inj_succ,
      N.pow_succ_r'.
    specialize (IH Hb).
    generalize dependent (radix ^ N.of_nat (List.length ds)).
    generalize (digitsValue radix ds). intros v p Hv. nia.
Qed.

End Digits.

Section Strings.

Lemma chars_of_list l : Js.chars (string_of_list_ascii l) = l.
Proof. apply list_ascii_of_string_of_list_ascii. Qed.

Lemma chars_app s1 s2 : Js.chars (s1 +:+ s2) = Js.chars s1 ++ Js.chars s2.
Proof. induction s1 as [|c s1 IH]; simpl; [done|]. by rewrite <- IH. Qed.

Lemma length_chars s : List.length (Js.chars s) = String.length s.
Proof. induction s as [|c s IH]; simpl; [done|]. by rewrite IH. Qed.

Lemma length_of_list l : String.length (string_of_list_ascii l) = List.length l.
Proof. by rewrite <- length_chars, chars_of_list. Qed.

Lemma digitValue_digitChar d : d < 36 → Js.digitValue (Js.digitChar d) = Some d.
Proof.
  intros Hd. rewrite <- (N2Nat.id d) in *.
  assert (N.to_nat d < 36)%nat as Hn by lia. clear Hd.
  generalize dependent (N.to_nat d). intros n Hn.
  do 36 (destruct n as [|n]; [vm_compute; reflexivity|]). lia.
Qed.

(** [parseInt] reads back the digit [toString] wrote. *)
Lemma parseInt1_digitChar d radix :
  2 ≤ radix ≤ 36 → d < radix → Js.parseInt1 (Js.digitChar d) radix = Some d.
Proof.
  intros [Hlo Hhi] Hd. unfold Js.parseInt1.
  destruct (N.eqb_spec radix 0) as [->|_]; [lia|].
  destruct (N.leb_spec 2 radix); [|lia].
  destruct (N.leb_spec radix 36); [|lia]. simpl.
  rewrite digitValue_digitChar by lia.
  destruct (N.ltb_spec d radix); [done|lia].
Qed.

End Strings.

(** * Splitting and joining *)

Section Split.

Variable sep : ascii.

Local Abbreviation str := string_of_list_ascii.

Lemma split_go_nonempty cur s : Js.split_go sep cur s ≠ [].
Proof.
  revert cur. induction s as [|c s IH]; intros cur; cbn; [done|].
  destruct (Ascii.eqb c sep); [done|apply IH].
Qed.

(** A string without the separator is one segment. *)
Lemma split_go_lacks cur s :
  ¬ In sep s → Js.split_go sep cur s = [str (rev cur ++ s)].
Proof.
  revert cur. induction s as [|c s IH]; intros cur Hno; cbn.
  - by rewrite app_nil_r.
  - destruct (Ascii.eqb_spec c sep) as [->|Hne].
    + exfalso. apply Hno. by left.
    + rewrite IH; [|intros H; apply Hno; by right].
      cbn. by rewrite <- app_assoc.
Qed.

Lemma split_go_snoc b : ∀ a cur,
  ¬ In sep b →
  Js.split_go sep cur (a ++ sep :: b) = Js.split_go sep cur a ++ [str b].
Proof.
  induction a as [|c a IH]; intros cur Hno; cbn.
  - rewrite Ascii.eqb_refl. by rewrite split_go_lacks.
  - destruct (Ascii.eqb c sep); [|by apply IH].
    by rewrite IH.
Qed.

Lemma str_app a b : str (a ++ b) = str a +:+ str b.
Proof. induction a as [|c a IH]; cbn; [done|]. by rewrite IH. Qed.

Lemma joinWith_cons s x rest :
  rest ≠ [] → joinWith s (x :: rest) = x +:+ s +:+ joinWith s rest.
Proof. by destruct rest. Qed.

(** Joining the segments with the separator gives the string back. *)
Lemma joinWith_split_go s : ∀ cur,
  joinWith (String sep EmptyString) (Js.split_go sep cur s) = str (rev cur ++ s).
Proof.
  induction s as [|c s IH]; intros cur; cbn [Js.split_go].
  - cbn. by rewrite app_nil_r.
  - destruct (Ascii.eqb_spec c sep) as [->|Hne].
    + rewrite joinWith_cons by apply split_go_nonempty.
      rewrite IH. cbn. rewrite str_app. cbn. done.
    + rewrite IH. cbn. by rewrite <- app_assoc.
Qed.

End Split.

Section SplitStrings.

Lemma split_lacks sep s : lacks sep s → Js.split sep s = [s].
Proof.
  intros Hno. unfold Js.split. rewrite split_go_lacks by done.
  cbn. by rewrite string_of_list_ascii_of_string.
Qed.

Lemma chars_dot stem ext :
  Js.chars (stem +:+ "." +:+ ext) = Js.chars stem ++ "."%char :: Js.chars ext.
Proof. by rewrite chars_app. Qed.

Lemma split_snoc sep stem ext :
  lacks sep ext →
  Js.split sep (stem +:+ String sep ext) = Js.split sep stem ++ [ext].
Proof.
  intros Hno. unfold Js.split. rewrite chars_app. cbn.
  rewrite split_go_snoc by done. by rewrite string_of_list_ascii_of_string.
Qed.

Lemma joinWith_split sep s :
  joinWith (String sep EmptyString) (Js.split sep s) = s.
Proof.
  unfold Js.split. rewrite joinWith_split_go. cbn.
  apply string_of_list_ascii_of_string.
Qed.

Lemma pop_snoc {A} (l : list A) x : Js.pop (l ++ [x]) = Some x.
Proof. apply last_snoc. Qed.

End SplitStrings.

(** * Paths *)

Section Paths.

Lemma lacks_dotdot : lacks "/"%char "..".
Proof. unfold lacks. cbn. intuition discriminate. Qed.

Lemma lacks_uploads : lacks "/"%char "uploads".
Proof. unfold lacks. cbn. intuition discriminate. Qed.

Lemma append_assoc (a b c : string) : (a +:+ b) +:+ c = a +:+ b +:+ c.
Proof.
  induction a as [|x a IH]; [done|].
  change ((String x a +:+ b) +:+ c) with (String x ((a +:+ b) +:+ c)).
  change (String x a +:+ b +:+ c) with (String x (a +:+ b +:+ c)).
  by rewrite IH.
Qed.

Lemma split_go_cons sep s rest cur :
  ¬ In sep s →
  Js.split_go sep cur (s ++ sep :: rest)
  = string_of_list_ascii (rev cur ++ s) :: Js.split_go sep [] rest.
Proof.
  revert cur. induction s as [|c s IH]; intros cur Hno; cbn.
  - by rewrite Ascii.eqb_refl, app_nil_r.
  - destruct (Ascii.eqb_spec c sep) as [->|Hne].
    + exfalso. apply Hno. by left.
    + rewrite IH; [|intros H; apply Hno; by right].
      cbn. by rewrite <- app_assoc.
Qed.

(** Splitting undoes joining, for segments without the separator. *)
Lemma split_joinWith sep segs :
  segs ≠ [] → Forall (lacks sep) segs →
  Js.split sep (joinWith (String sep EmptyString) segs) = segs.
Proof.
  intros Hne Hall. induction Hall as [|x segs Hx Hall IH]; [done|].
  destruct segs as [|y segs]; [by apply split_lacks|].
  rewrite joinWith_cons by done. unfold Js.split.
  rewrite chars_app.
  change (Js.chars (String sep EmptyString
                    +:+ joinWith (String sep EmptyString) (y :: segs)))
    with (sep :: Js.chars (joinWith (String sep EmptyString) (y :: segs))).
  rewrite split_go_cons by exact Hx. cbn [rev app].
  rewrite string_of_list_ascii_of_string. f_equal. by apply IH.
Qed.

Lemma last_chars_append s c :
  c ≠ EmptyString → last (Js.chars (s +:+ c)) = last (Js.chars c).
Proof.
  intros Hc. rewrite chars_app.
  destruct (Js.chars c) as [|x l] eqn:Hl.
  - destruct c; [done|discriminate].
  - clear Hl. induction (Js.chars s) as [|y l' IH]; [done|].
    cbn [app]. rewrite <- IH.
    by destruct (l' ++ x :: l) eqn:E; [destruct l'; discriminate|].
Qed.

Lemma last_chars_None x : last (Js.chars x) = None → x = EmptyString.
Proof.
  destruct x as [|c x]; [done|]. intros H.
  change (Js.chars (String c x)) with (c :: Js.chars x) in H.
  by apply last_None in H.
Qed.

(** A joined path ends as its last segment does. *)
Lemma last_joinWith sep segs x :
  last segs = Some x → x ≠ EmptyString →
  last (Js.chars (joinWith sep segs)) = last (Js.chars x).
Proof.
  intros Hlast Hx. induction segs as [|y segs IH]; [done|].
  destruct segs as [|z segs].
  - cbn in Hlast. by injection Hlast as ->.
  - change (last (z :: segs) = Some x) in Hlast. specialize (IH Hlast).
    rewrite joinWith_cons by done. rewrite <- append_assoc.
    rewrite last_chars_append; [done|].
    intros Heq. rewrite Heq in IH. symmetry in IH.
    by apply last_chars_None in IH.
Qed.

Lemma startsWithSeparator_joinWith x segs :
  x ≠ EmptyString → lacks "/"%char x →
  Js.startsWithSeparator (joinWith "/" (x :: segs)) = false.
Proof.
  intros Hne Hno. destruct x as [|c x]; [done|].
  assert (Ascii.eqb c "/"%char = false) as Hc.
  { apply Ascii.eqb_neq. intros ->. apply Hno. by left. }
  by destruct segs.
Qed.

(** [normalize] on a relative path that does not end with a separator. *)
Lemma normalize_relative path segs :
  Js.startsWithSeparator path = false → Js.endsWithSeparator path = false →
  Js.normalizeSegments true (Js.split "/"%char path) = segs →
  joinWith "/" segs ≠ EmptyString →
  Js.normalize path = joinWith "/" segs.
Proof.
  intros Hstart Hend Hsegs Hne. unfold Js.normalize.
  destruct path as [|a path]; [by vm_compute in Hsegs; subst segs|].
  rewrite Hstart, Hend. cbn [negb]. rewrite Hsegs.
  destruct (String.eqb_spec (joinWith "/" segs) EmptyString) as [|_]; [done|].
  cbn [andb negb]. by rewrite andb_false_r.
Qed.

(** [normalize] on the segments of such a path. *)
Lemma normalize_joinWith x segs y :
  x ≠ EmptyString → Forall (lacks "/"%char) (x :: segs) →
  last (x :: segs) = Some y → y ≠ EmptyString →
  joinWith "/" (Js.normalizeSegments true (x :: segs)) ≠ EmptyString →
  Js.normalize (joinWith "/" (x :: segs))
  = joinWith "/" (Js.normalizeSegments true (x :: segs)).
Proof.
  intros Hx Hall Hlast Hy Hne.
  apply normalize_relative; [|..|done].
  - apply startsWithSeparator_joinWith; [done|]. by inversion Hall.
  - unfold Js.endsWithSeparator. rewrite (last_joinWith _ _ y) by done.
    destruct (last (Js.chars y)) as [c|] eqn:Hc; [|done].
    apply Ascii.eqb_neq. intros ->.
    assert (lacks "/"%char y) as Hno.
    { rewrite Forall_forall in Hall. apply Hall.
      apply last_Some in Hlast as [l ->].
      apply elem_of_app. right. apply list_elem_of_here. }
    apply Hno, list_elem_of_In. apply last_Some in Hc as [l ->].
    apply elem_of_app. right. apply list_elem_of_here.
  - change "/"%string with (String "/"%char EmptyString).
    by rewrite split_joinWith.
Qed.

(** [join("uploads", b)] on the segments of [b]. *)
Lemma joinPath_segments segs y :
  Forall (lacks "/"%char) segs → last segs = Some y → y ≠ EmptyString →
  joinWith "/" (Js.normalizeSegments true ("uploads" :: segs)) ≠ EmptyString →
  Js.joinPath "uploads" (joinWith "/" segs)
  = joinWith "/" (Js.normalizeSegments true ("uploads" :: segs)).
Proof.
  intros Hall Hlast Hy Hne.
  assert (segs ≠ []) as Hsegs by (by intros ->).
  assert (joinWith "/" segs ≠ EmptyString) as Hb.
  { intros Heq. pose proof (last_joinWith "/" segs y Hlast Hy) as H.
    rewrite Heq in H. symmetry in H. by apply last_chars_None in H. }
  unfold Js.joinPath. cbn [List.filter String.eqb negb].
  replace (String.eqb (joinWith "/" segs) EmptyString) with false
    by (symmetry; by apply String.eqb_neq).
  cbn [negb].
  change (joinWith "/" ["uploads"; joinWith "/" segs])
    with ("uploads" +:+ "/" +:+ joinWith "/" segs).
  rewrite <- (joinWith_cons "/" "uploads" segs) by done.
  apply (normalize_joinWith "uploads" segs y); try done.
  - constructor; [apply lacks_uploads|done].
  - by destruct segs.
Qed.

(** ** Names that are one path component *)


Lemma validName_parts c :
  Oak.validName c = true →
  c ≠ EmptyString
  ∧ String.eqb c EmptyString || String.eqb c "." = false
  ∧ String.eqb c ".." = false.
Proof.
  intros Hvalid. split; [by intros ->|].
  unfold Oak.validName in Hvalid.
  apply andb_true_iff in Hvalid as [[H _]%andb_true_iff _].
  apply negb_true_iff in H.
  apply orb_false_iff in H as [H ->]. by rewrite H.
Qed.


Lemma normalizeSegments_nested c name :
  Oak.validName c = true → Oak.validName name = true →
  Js.normalizeSegments true ["uploads"; c; name] = ["uploads"; c; name].
Proof.
  intros (_ & Hc1 & Hc2)%validName_parts (_ & Hn1 & Hn2)%validName_parts.
  unfold Js.normalizeSegments. cbn [foldl].
  unfold Js.pushSegment at 3. cbn [String.eqb Ascii.eqb orb].
  unfold Js.pushSegment at 2. rewrite Hc1, Hc2.
  unfold Js.pushSegment. by rewrite Hn1, Hn2.
Qed.

Lemma normalizeSegments_dotdot c name :
  Oak.validName c = true → Oak.validName name = true →
  Js.normalizeSegments true ["uploads"; c; ".."; name] = ["uploads"; name].
Proof.
  intros (_ & Hc1 & Hc2)%validName_parts (_ & Hn1 & Hn2)%validName_parts.
  unfold Js.normalizeSegments. cbn [foldl].
  unfold Js.pushSegment at 4. cbn [String.eqb Ascii.eqb orb].
  unfold Js.pushSegment at 3. rewrite Hc1, Hc2.
  unfold Js.pushSegment at 2. cbn [String.eqb Ascii.eqb orb]. rewrite Hc2.
  unfold Js.pushSegment. by rewrite Hn1, Hn2.
Qed.


(** A name of the form [dir/name] is saved in a directory of its own. *)
Lemma joinPath_nested_name c name :
  Oak.component c → Oak.component name →
  Js.joinPath "uploads" (c +:+ "/" +:+ name)
  = "uploads/" +:+ c +:+ "/" +:+ name.
Proof.
  intros [Hc Hcv] [Hn Hnv]. destruct (validName_parts name Hnv) as [Hne _].
  change (c +:+ "/" +:+ name) with (joinWith "/" [c; name]).
  rewrite (joinPath_segments _ name); [|by repeat constructor|done..|];
    by rewrite normalizeSegments_nested.
Qed.

(** A name of the form [dir/../name] loses its directory, and the
    identifier with it. *)
Lemma joinPath_dotdot_name c name :
  Oak.component c → Oak.component name →
  Js.joinPath "uploads" (c +:+ "/../" +:+ name) = "uploads/" +:+ name.
Proof.
  intros [Hc Hcv] [Hn Hnv]. destruct (validName_parts name Hnv) as [Hne _].
  change (c +:+ "/../" +:+ name) with (joinWith "/" [c; ".."; name]).
  rewrite (joinPath_segments _ name);
    [|repeat constructor; [done|apply lacks_dotdot|done]|done..|];
    by rewrite normalizeSegments_dotdot.
Qed.

(** [Deno.open] creates a file directly under [uploads/], and raises for a
    file in a directory under it. *)
Lemma canOpen_uploads c :
  Oak.component c → Oak.canOpen ("uploads/" +:+ c) = true.
Proof.
  intros [Hno Hvalid]. unfold Oak.canOpen.
  change ("uploads/" +:+ c) with (joinWith "/" ["uploads"; c]).
  change "/"%string with (String "/"%char EmptyString).
  rewrite split_joinWith;
    [|done|repeat constructor; [apply lacks_uploads|done]].
  cbn [rev app]. by rewrite Hvalid.
Qed.

Lemma canOpen_nested_name c name :
  Oak.component c → Oak.component name →
  Oak.canOpen ("uploads/" +:+ c +:+ "/" +:+ name) = false.
Proof.
  intros [Hc Hcv] [Hn Hnv]. unfold Oak.canOpen.
  change ("uploads/" +:+ c +:+ "/" +:+ name)
    with (joinWith "/" ["uploads"; c; name]).
  change "/"%string with (String "/"%char EmptyString).
  rewrite split_joinWith;
    [|done|repeat constructor; [apply lacks_uploads|done|done]].
  cbn [rev app]. rewrite Hnv. cbn.
  by destruct (match c with EmptyString => _ | String _ _ => _ end).
Qed.


End Paths.

(** * The key generator *)

Section KeyGenerator.

Variable cfg : KeyConfig.
Hypothesis Hvalid : validConfig cfg.

Local Abbreviation alphabet := (kc_chars cfg).
Local Abbreviation radix := (N.of_nat (Js.length (kc_chars cfg))).

Lemma radix_range : 2 ≤ radix ≤ 36.
Proof. destruct Hvalid as [[Hlo Hhi] _]. lia. Qed.

Lemma charAt_pick d : d < radix → Js.charAt alphabet d = Some (pick cfg d).
Proof.
  intros Hd. unfold Js.charAt, pick.
  destruct (nth_lookup_or_length (Js.chars alphabet) (N.to_nat d) "0"%char)
    as [->|Hlen]; [done|].
  rewrite length_chars in Hlen. unfold Js.length in Hd. lia.
Qed.

Lemma pick_in d : d < radix → In (pick cfg d) (Js.chars alphabet).
Proof.
  intros Hd. apply nth_In. rewrite length_chars. unfold Js.length in Hd. lia.
Qed.

Lemma keyDigits_bounded rnd : Forall (λ d, d < radix) (keyDigits cfg rnd).
Proof.
  pose proof radix_range. unfold keyDigits. apply Forall_app. split.
  - apply Forall_forall. intros d Hd%list_elem_of_In%repeat_spec. lia.
  - apply toDigits_bounded. lia.
Qed.

Lemma keyDigits_length rnd :
  rnd < choices cfg → List.length (keyDigits cfg rnd) = kc_length cfg.
Proof.
  intros Hrnd. pose proof radix_range. destruct Hvalid as [_ Hk].
  unfold keyDigits. rewrite length_app, repeat_length.
  pose proof (toDigits_length (S (N.to_nat (N.log2 rnd))) radix rnd
                (kc_length cfg) ltac:(lia) Hrnd Hk).
  lia.
Qed.

Lemma keyDigits_value rnd : digitsValue radix (keyDigits cfg rnd) = rnd.
Proof.
  pose proof radix_range. unfold keyDigits.
  set (ds := Js.toDigits _ _ _).
  assert (∀ n l, digitsValue radix (repeat 0 n ++ l) = digitsValue radix l)
    as ->.
  { induction n as [|n IH]; intros l; [done|]. simpl. apply IH. }
  apply toDigits_value; [lia|apply log2_fuel].
Qed.

Lemma pick_digits ds :
  Forall (λ d, d < radix) ds →
  omap id (map (λ chr, Js.parseInt1 chr radix ≫= Js.charAt alphabet)
               (map Js.digitChar ds))
  = map (pick cfg) ds.
Proof.
  intros Hb. induction Hb as [|d ds Hd _ IH]; [done|].
  rewrite !map_cons. cbn beta.
  rewrite parseInt1_digitChar by (apply radix_range || done).
  cbn [mbind option_bind]. rewrite charAt_pick by done.
  change (omap id (Some ?x :: ?l)) with (x :: omap id l).
  by rewrite IH.
Qed.

(** [randomKey] reads off the characters of the alphabet at the digits of
    the draw. *)
Lemma randomKey_digits rnd :
  randomKey cfg rnd
  = Some (string_of_list_ascii (map (pick cfg) (keyDigits cfg rnd))).
Proof.
  pose proof radix_range. unfold randomKey, Js.toStringRadix.
  destruct (N.leb_spec 2 radix); [|lia].
  destruct (N.leb_spec radix 36); [|lia].
  cbn [andb mbind option_bind]. f_equal. unfold Js.join. f_equal.
  unfold Js.padStart. rewrite chars_app, !chars_of_list, length_of_list.
  rewrite length_map.
  change "0"%char with (Js.digitChar 0).
  assert (∀ n, repeat (Js.digitChar 0) n = map Js.digitChar (repeat 0 n)) as ->.
  { induction n as [|n IH]; simpl; [done|]. by rewrite IH. }
  rewrite <- map_app. apply pick_digits, keyDigits_bounded.
Qed.

Lemma randomKey_inKeySpace rnd :
  rnd < choices cfg →
  ∃ key, randomKey cfg rnd = Some key ∧ inKeySpace cfg key.
Proof.
  intros Hrnd. eexists. split; [by apply randomKey_digits|]. split.
  - unfold Js.length. rewrite length_of_list, length_map.
    by apply keyDigits_length.
  - intros c. rewrite chars_of_list, in_map_iff. intros (d & <- & Hd).
    apply pick_in.
    pose proof (keyDigits_bounded rnd) as Hb.
    rewrite Forall_forall in Hb. apply Hb. by apply list_elem_of_In.
Qed.

(** C8. For every valid configuration and every draw below [choices],
    [randomKey] returns a string of exactly [kc_length] characters, each of
    which is a character of the alphabet.  A configuration is valid when
    its alphabet has 2 to 36 characters (the radixes of [toString]), its
    length is at least 1 and its key space has at most [2 ^ 53] codes, the
    range in which the numbers of [randomKey] are exact integers; the
    reference configuration, with 810000 codes, is one. *)
Theorem randomKey_shape rnd :
  exactChoices cfg → rnd < choices cfg →
  ∃ key, randomKey cfg rnd = Some key
         ∧ Js.length key = kc_length cfg
         ∧ Forall (λ c, In c (Js.chars alphabet)) (Js.chars key).
Proof.
  intros _ Hrnd.
  exists (string_of_list_ascii (map (pick cfg) (keyDigits cfg rnd))).
  split; [apply randomKey_digits|]. split.
  - unfold Js.length. rewrite length_of_list, length_map.
    by apply keyDigits_length.
  - rewrite chars_of_list. apply Forall_map.
    eapply Forall_impl; [apply keyDigits_bounded|].
    intros d Hd. by apply pick_in.
Qed.

(** ** The key space: draws and codes correspond one to one *)

Hypothesis Hdistinct : NoDup (Js.chars alphabet).

Lemma pick_inj d1 d2 :
  d1 < radix → d2 < radix → pick cfg d1 = pick cfg d2 → d1 = d2.
Proof.
  intros H1 H2 Hp. unfold pick, Js.length in *.
  apply N2Nat.inj.
  eapply (proj1 (List.NoDup_nth _ "0"%char)).
  - by apply NoDup_ListNoDup.
  - rewrite length_chars. lia.
  - rewrite length_chars. lia.
  - done.
Qed.

Lemma map_pick_inj ds1 ds2 :
  Forall (λ d, d < radix) ds1 → Forall (λ d, d < radix) ds2 →
  map (pick cfg) ds1 = map (pick cfg) ds2 → ds1 = ds2.
Proof.
  intros Hb1. revert ds2.
  induction Hb1 as [|d1 ds1 Hd1 _ IH]; intros [|d2 ds2] Hb2 Heq;
    simplify_eq/=; [done|].
  apply Forall_cons in Hb2 as [Hd2 Hb2].
  f_equal; [by apply pick_inj|by apply IH].
Qed.

(** Distinct draws give distinct codes. *)
Lemma randomKey_inj r1 r2 : randomKey cfg r1 = randomKey cfg r2 → r1 = r2.
Proof.
  rewrite !randomKey_digits. intros [= Heq].
  apply (f_equal Js.chars) in Heq. rewrite !chars_of_list in Heq.
  apply map_pick_inj in Heq; [|apply keyDigits_bounded..].
  rewrite <- (keyDigits_value r1), <- (keyDigits_value r2).
  by rewrite Heq.
Qed.

Lemma digits_of_key cs :
  (∀ c, In c cs → In c (Js.chars alphabet)) →
  ∃ ds, Forall (λ d, d < radix) ds ∧ map (pick cfg) ds = cs.
Proof.
  induction cs as [|c cs IH]; intros Hin.
  - by exists [].
  - destruct IH as (ds & Hb & Hmap); [intros; apply Hin; by right|].
    destruct (In_nth _ _ "0"%char (Hin c (or_introl eq_refl))) as (i & Hi & Hnth).
    rewrite length_chars in Hi.
    exists (N.of_nat i :: ds). split.
    + constructor; [unfold Js.length; lia|done].
    + simpl. unfold pick at 1. rewrite Nat2N.id. by rewrite Hnth, Hmap.
Qed.

(** Every code of the key space is the code of some draw. *)
Lemma randomKey_surj key :
  inKeySpace cfg key →
  ∃ rnd, rnd < choices cfg ∧ randomKey cfg rnd = Some key.
Proof.
  intros [Hlen Hin].
  destruct (digits_of_key (Js.chars key) Hin) as (ds & Hb & Hmap).
  assert (List.length ds = kc_length cfg) as Hds.
  { rewrite <- Hlen. unfold Js.length.
    by rewrite <- length_chars, <- Hmap, length_map. }
  assert (digitsValue radix ds < choices cfg) as Hlt.
  { unfold choices. rewrite <- Hds. by apply digitsValue_bound. }
  exists (digitsValue radix ds). split; [done|].
  rewrite randomKey_digits. f_equal.
  assert (keyDigits cfg (digitsValue radix ds) = ds) as ->.
  { apply (digits_unique radix).
    - by rewrite keyDigits_length.
    - apply keyDigits_bounded.
    - done.
    - apply keyDigits_value. }
  rewrite Hmap. apply string_of_list_ascii_of_string.
Qed.

End KeyGenerator.

(** * The reference configuration *)

Section ReferenceConfig.

Lemma keyChars_NoDup : NoDup (Js.chars keyChars).
Proof. apply (bool_decide_unpack _). vm_compute. reflexivity. Qed.

Lemma referenceConfig_valid : validConfig referenceConfig.
Proof. vm_compute. lia. Qed.

Lemma randomKey_shape_witness :
  validConfig referenceConfig ∧ exactChoices referenceConfig
  ∧ 12345 < choices referenceConfig
  ∧ ∃ key, randomKey referenceConfig 12345 = Some key
           ∧ Js.length key = 4%nat
           ∧ Forall (λ c, In c (Js.chars keyChars)) (Js.chars key).
Proof.
  assert (validConfig referenceConfig) as Hv by (vm_compute; lia).
  assert (exactChoices referenceConfig) as He by (vm_compute; discriminate).
  assert (12345 < choices referenceConfig) as Hr by (vm_compute; reflexivity).
  split; [exact Hv|]. split; [exact He|]. split; [exact Hr|].
  exact (randomKey_shape referenceConfig Hv 12345 He Hr).
Defined.

(** C9, as the specification states it, fails: the alphabet of both sources
    has 30 characters, not 31, and [choices] is not 923521. *)
Lemma keyspace_not_31 :
  ¬ (Js.length keyChars = 31%nat ∧ choices referenceConfig = 923521).
Proof. intros [H _]. vm_compute in H. discriminate. Qed.

(** C9, amended.  The reference alphabet has 30 characters and the length
    is 4, so [Math.pow] gives 810000 choices; the generator maps the draws
    below 810000 one-to-one onto the codes of 4 characters of the alphabet,
    which are therefore 810000. *)
Theorem keyspace_size :
  Js.length keyChars = 30%nat ∧ keyLength = 4%nat
  ∧ choices referenceConfig = 810000
  ∧ (∀ r1 r2, randomKey referenceConfig r1 = randomKey referenceConfig r2 →
              r1 = r2)
  ∧ (∀ rnd, rnd < 810000 →
            ∃ key, randomKey referenceConfig rnd = Some key
                   ∧ inKeySpace referenceConfig key)
  ∧ (∀ key, inKeySpace referenceConfig key →
            ∃ rnd, rnd < 810000 ∧ randomKey referenceConfig rnd = Some key).
Proof.
  assert (choices referenceConfig = 810000) as Hc by (vm_compute; reflexivity).
  split; [reflexivity|]. split; [reflexivity|]. split; [exact Hc|].
  split; [|split].
  - intros r1 r2.
    apply (randomKey_inj _ referenceConfig_valid keyChars_NoDup).
  - intros rnd Hr. apply (randomKey_inKeySpace _ referenceConfig_valid).
    by rewrite Hc.
  - intros key Hk. rewrite <- Hc.
    by apply (randomKey_surj _ referenceConfig_valid).
Qed.

Lemma keyspace_size_witness :
  12345 < 810000
  ∧ (∃ key, randomKey referenceConfig 12345 = Some key
            ∧ inKeySpace referenceConfig key)
  ∧ inKeySpace referenceConfig "ZZZZ"
  ∧ ∃ rnd, rnd < 810000 ∧ randomKey referenceConfig rnd = Some "ZZZZ".
Proof.
  assert (inKeySpace referenceConfig "ZZZZ") as Hz.
  { split; [reflexivity|].
    intros c Hc. vm_compute in Hc. vm_compute.
    repeat destruct Hc as [<-|Hc]; tauto. }
  destruct keyspace_size as (_ & _ & _ & _ & Hshape & Hsurj).
  split; [reflexivity|]. split; [exact (Hshape 12345 eq_refl)|].
  split; [exact Hz|]. exact (Hsurj "ZZZZ" Hz).
Defined.

End ReferenceConfig.

(** * The allocation loop *)

Section RadixOk.

Lemma randomKey_radixOk cfg rnd :
  radixOk cfg = true → is_Some (randomKey cfg rnd).
Proof.
  unfold radixOk, randomKey, Js.toStringRadix. intros ->.
  cbn [mbind option_bind]. eauto.
Qed.

Lemma randomKey_radixBad cfg rnd :
  radixOk cfg = false → randomKey cfg rnd = None.
Proof.
  unfold radixOk, randomKey, Js.toStringRadix. by intros ->.
Qed.

Lemma validConfig_radixOk cfg : validConfig cfg → radixOk cfg = true.
Proof.
  intros [[Hlo Hhi] _]. unfold radixOk.
  apply andb_true_intro. split; apply N.leb_le; lia.
Qed.

End RadixOk.

Section Allocation.

Variable cfg : KeyConfig.
Variable rnd : nat → N.          (* the draws of this request *)
Variable has : string → bool.    (* [keys.has] *)
Variable size : nat.             (* [keys.size] *)

Lemma generateLoop_firstFree :
  radixOk cfg = true →
  ∀ fuel attempts,
    (fuel + attempts = size + 2)%nat → (attempts ≤ size + 1)%nat →
    let r := generateLoop fuel cfg rnd has size attempts in
    alloc_outcome r = firstFree cfg rnd has attempts (size + 1 - attempts)
    ∧ (attempts < alloc_draws r ≤ size + 2)%nat
    ∧ (alloc_outcome r = AllocUnavailable → alloc_draws r = (size + 2)%nat)
    ∧ (∀ key, alloc_outcome r = AllocKey key →
              (alloc_draws r ≤ size + 1)%nat).
Proof.
  intros Hok. induction fuel as [|fuel IH]; intros attempts Hfuel Hatt.
  - lia.
  - cbn [generateLoop].
    destruct (randomKey_radixOk cfg (rnd attempts) Hok) as [key Hkey].
    rewrite Hkey. destruct (Nat.ltb_spec size attempts) as [Hlt|Hge].
    + replace (size + 1 - attempts)%nat with 0%nat by lia.
      cbn. repeat split; try lia. done.
    + replace (size + 1 - attempts)%nat
        with (S (size + 1 - S attempts)) by lia.
      unfold firstFree. cbn [seq map List.find]. rewrite Hkey.
      cbn [isFree]. destruct (has key) eqn:Hhas; cbn [negb].
      * specialize (IH (S attempts) ltac:(lia) ltac:(lia)).
        cbn zeta in IH. destruct IH as (Hout & Hdraws & Hun & Hk).
        repeat split; [exact Hout|lia|lia|exact Hun|exact Hk].
      * cbn. repeat split; try lia. done.
Qed.

(** The loop never runs out of the fuel [allocate] gives it. *)
Lemma allocate_terminates :
  alloc_outcome (allocate cfg rnd has size) ≠ AllocOutOfFuel.
Proof.
  unfold allocate. destruct (radixOk cfg) eqn:Hok.
  - destruct (generateLoop_firstFree Hok (size + 2) 0
                ltac:(lia) ltac:(lia)) as (Hout & _).
    rewrite Hout. unfold firstFree.
    destruct (List.find _ _) as [[?|]|]; done.
  - replace (size + 2)%nat with (S (size + 1)) by lia. cbn [generateLoop].
    by rewrite randomKey_radixBad.
Qed.

Lemma allocate_outcome :
  alloc_outcome (allocate cfg rnd has size) = allocate_spec cfg rnd has size.
Proof.
  unfold allocate, allocate_spec. destruct (radixOk cfg) eqn:Hok.
  - destruct (generateLoop_firstFree Hok (size + 2) 0
                ltac:(lia) ltac:(lia)) as (Hout & _).
    rewrite Hout. by rewrite Nat.sub_0_r.
  - replace (size + 2)%nat with (S (size + 1)) by lia. cbn [generateLoop].
    rewrite randomKey_radixBad by done. unfold firstFree.
    replace (size + 1)%nat with (S size) by lia. cbn [seq map List.find].
    by rewrite randomKey_radixBad.
Qed.

Lemma allocate_draws :
  (1 ≤ alloc_draws (allocate cfg rnd has size) ≤ size + 2)%nat
  ∧ (alloc_outcome (allocate cfg rnd has size) = AllocUnavailable →
     alloc_draws (allocate cfg rnd has size) = (size + 2)%nat)
  ∧ (∀ key, alloc_outcome (allocate cfg rnd has size) = AllocKey key →
            (alloc_draws (allocate cfg rnd has size) ≤ size + 1)%nat).
Proof.
  unfold allocate. destruct (radixOk cfg) eqn:Hok.
  - destruct (generateLoop_firstFree Hok (size + 2) 0
                ltac:(lia) ltac:(lia)) as (_ & Hd & Hun & Hk).
    repeat split; [lia|lia|exact Hun|exact Hk].
  - replace (size + 2)%nat with (S (size + 1)) by lia. cbn [generateLoop].
    rewrite randomKey_radixBad by done. cbn. repeat split; try lia; done.
Qed.

(** A key the loop returns is not live. *)
Lemma allocate_key_free key :
  alloc_outcome (allocate cfg rnd has size) = AllocKey key → has key = false.
Proof.
  rewrite allocate_outcome. unfold allocate_spec, firstFree.
  destruct (List.find _ _) as [[k|]|] eqn:Hfind; [|done..].
  intros [= ->]. apply find_some in Hfind as [_ Hfree].
  by apply negb_true_iff in Hfree.
Qed.

(** When every candidate of the budget is live the loop fails. *)
Lemma allocate_exhausted :
  (∀ i, (i ≤ size)%nat →
        ∃ key, randomKey cfg (rnd i) = Some key ∧ has key = true) →
  alloc_outcome (allocate cfg rnd has size) = AllocUnavailable.
Proof.
  intros Hlive. rewrite allocate_outcome. unfold allocate_spec, firstFree.
  destruct (List.find _ _) as [c|] eqn:Hfind; [|done].
  apply find_some in Hfind as [Hin Hfree].
  apply in_map_iff in Hin as (i & <- & Hi%in_seq).
  destruct (Hlive i ltac:(lia)) as (key & Hkey & Hhas).
  rewrite Hkey in Hfree. cbn in Hfree. by rewrite Hhas in Hfree.
Qed.

End Allocation.

(** * Pending timers and live sessions *)

Section Timers.

Lemma deleteKeys_cons {A} tm (L : list Timer) (m : gmap string A) :
  deleteKeys (tm :: L) m = deleteKeys L (delete (t_key tm) m).
Proof. reflexivity. Qed.

Lemma lookup_deleteKeys {A} (L : list Timer) : ∀ (m : gmap string A) k,
  deleteKeys L m !! k = if decide (k ∈ t_key <$> L) then None else m !! k.
Proof.
  induction L as [|tm L IH]; intros m k.
  - destruct (decide (k ∈ t_key <$> [])) as [H|_]; [|done].
    exfalso. by eapply not_elem_of_nil.
  - rewrite deleteKeys_cons, IH, fmap_cons.
    destruct (decide (k ∈ t_key <$> L)) as [H1|H1];
      destruct (decide (k ∈ t_key tm :: (t_key <$> L))) as [H2|H2].
    + done.
    + exfalso. apply H2. by apply list_elem_of_further.
    + apply elem_of_cons in H2 as [->|H2]; [|done]. apply lookup_delete_eq.
    + apply lookup_delete_ne. intros <-. apply H2. apply list_elem_of_here.
Qed.

Lemma deleteKeys_fmap {A B} (f : A → B) (L : list Timer) (m : gmap string A) :
  f <$> deleteKeys L m = deleteKeys L (f <$> m).
Proof.
  revert m. induction L as [|tm L IH]; intros m; [done|].
  by rewrite !deleteKeys_cons, IH, fmap_delete.
Qed.

Lemma elem_of_filter_bool {A} (p : A → bool) (l : list A) x :
  x ∈ List.filter p l ↔ x ∈ l ∧ p x = true.
Proof. rewrite !list_elem_of_In. apply filter_In. Qed.

Lemma NoDup_fmap_filter {A B} (f : A → B) (p : A → bool) (l : list A) :
  NoDup (f <$> l) → NoDup (f <$> List.filter p l).
Proof.
  induction l as [|x l IH]; [done|].
  rewrite fmap_cons, NoDup_cons. intros [Hx Hl]. cbn [List.filter].
  destruct (p x); [|by apply IH].
  rewrite fmap_cons, NoDup_cons. split; [|by apply IH].
  intros (y & Hy & Hin%elem_of_filter_bool)%list_elem_of_fmap.
  apply Hx. apply list_elem_of_fmap. exists y. tauto.
Qed.

(** Two pending timers with the same key are the same timer. *)
Lemma NoDup_key_inj (tms : list Timer) tm1 tm2 :
  NoDup (t_key <$> tms) → tm1 ∈ tms → tm2 ∈ tms →
  t_key tm1 = t_key tm2 → tm1 = tm2.
Proof.
  intros Hnd (i & Hi)%list_elem_of_lookup (j & Hj)%list_elem_of_lookup Hk.
  assert (i = j) as ->; [|congruence].
  eapply NoDup_lookup; [exact Hnd|..].
  - by rewrite list_lookup_fmap, Hi.
  - by rewrite list_lookup_fmap, Hj, Hk.
Qed.

Lemma ttl_pos : 0 < ttl.
Proof. reflexivity. Qed.

Lemma TimersOk_init : TimersOk ∅ [] 0 0.
Proof.
  split; [constructor|]. split.
  - intros tm H. exfalso. by eapply not_elem_of_nil.
  - intros k c o H. by rewrite lookup_empty in H.
Qed.

Lemma TimersOk_generate sess tms now next k :
  sess !! k = None → TimersOk sess tms now next →
  TimersOk (<[k := (now, next)]> sess)
           (tms ++ [{| t_due := now + ttl; t_key := k; t_oid := next |}])
           now (S next).
Proof.
  intros Hk (Hnd & Htm & Hsess). split; [|split].
  - rewrite fmap_app. apply NoDup_app. split; [done|]. split.
    + intros k' (tm & -> & Hin)%list_elem_of_fmap Hk'.
      apply list_elem_of_singleton in Hk'. simpl in Hk'. subst k.
      destruct (Htm tm Hin) as (_ & c & Hc & _). congruence.
    + apply NoDup_singleton.
  - intros tm [Hin|Hin%list_elem_of_singleton]%elem_of_app.
    + destruct (Htm tm Hin) as (Hdue & c & Hc & Hd). split; [done|].
      exists c. split; [|done]. rewrite lookup_insert_ne; [done|].
      intros ->. congruence.
    + subst tm. simpl. pose proof ttl_pos. split; [lia|].
      exists now. by rewrite lookup_insert_eq.
  - intros k' c o. rewrite lookup_insert. case_decide as Hkk.
    + intros [= <- <-]. subst k'. split; [lia|].
      apply elem_of_app. right. by apply list_elem_of_singleton.
    + intros Hs. destruct (Hsess k' c o Hs) as [Ho Hin]. split; [lia|].
      apply elem_of_app. by left.
Qed.

Lemma TimersOk_advance sess tms now next dt :
  TimersOk sess tms now next →
  TimersOk (deleteKeys (List.filter (λ tm, t_due tm <=? now + dt) tms) sess)
           (List.filter (λ tm, negb (t_due tm <=? now + dt)) tms)
           (now + dt) next.
Proof.
  intros (Hnd & Htm & Hsess). split; [|split].
  - by apply NoDup_fmap_filter.
  - intros tm [Hin Hnot]%elem_of_filter_bool.
    apply negb_true_iff, N.leb_gt in Hnot.
    destruct (Htm tm Hin) as (_ & c & Hc & Hd). split; [done|].
    exists c. split; [|done]. rewrite lookup_deleteKeys.
    case_decide as Hdel; [|done]. exfalso.
    apply list_elem_of_fmap in Hdel as (tm' & Hkey & [Hin' Hdue]%elem_of_filter_bool).
    assert (tm = tm') as <- by by eapply NoDup_key_inj.
    apply N.leb_le in Hdue. lia.
  - intros k c o. rewrite lookup_deleteKeys. case_decide as Hdel; [done|].
    intros Hs. destruct (Hsess k c o Hs) as [Ho Hin]. split; [done|].
    apply elem_of_filter_bool. split; [done|].
    apply negb_true_iff. cbn [t_due].
    destruct (N.leb_spec (c + ttl) (now + dt)); [|done].
    exfalso. apply Hdel. apply list_elem_of_fmap.
    exists {| t_due := c + ttl; t_key := k; t_oid := o |}. split; [done|].
    apply elem_of_filter_bool. split; [done|]. by apply N.leb_le.
Qed.

(** A live session has not reached its expiry. *)
Lemma TimersOk_not_expired sess tms now next k c o :
  TimersOk sess tms now next → sess !! k = Some (c, o) → now < c + ttl.
Proof.
  intros (_ & Htm & Hsess) Hs. destruct (Hsess k c o Hs) as [_ Hin].
  by destruct (Htm _ Hin) as [Hdue _].
Qed.

End Timers.

(** * The router variant *)

Section MemFacts.

Local Abbreviation mexpire := (λ s tm, Mem.expire tm s).

Lemma mem_has_true st key :
  Mem.has st key = true ↔ is_Some (Mem.keys st !! key).
Proof. unfold Mem.has. apply bool_decide_eq_true. Qed.

Lemma mem_has_false st key :
  Mem.has st key = false ↔ Mem.keys st !! key = None.
Proof.
  unfold Mem.has. rewrite bool_decide_eq_false. symmetry.
  apply eq_None_not_Some.
Qed.

(** ** The expiration callback *)

Lemma mem_expire_keys tm st :
  Mem.keys (Mem.expire tm st) = delete (t_key tm) (Mem.keys st).
Proof.
  unfold Mem.expire. destruct (Mem.keys st !! t_key tm) eqn:H; [done|].
  by rewrite delete_id.
Qed.

Lemma mem_expire_frame tm st :
  Mem.timers (Mem.expire tm st) = Mem.timers st
  ∧ Mem.now (Mem.expire tm st) = Mem.now st
  ∧ Mem.nextOid (Mem.expire tm st) = Mem.nextOid st.
Proof. unfold Mem.expire. by destruct (Mem.keys st !! t_key tm). Qed.

(** The callback never adds a file. *)
Lemma mem_expire_files_None tm st id :
  Mem.files st !! id = None → Mem.files (Mem.expire tm st) !! id = None.
Proof.
  intros Hid. unfold Mem.expire.
  destruct (Mem.keys st !! t_key tm) as [info|]; [|done]. cbn.
  destruct (Mem.fileId info) as [id'|]; [|done].
  destruct (truthy id' && _); [|done].
  apply lookup_delete_None. by right.
Qed.

(** The callback deletes the file of the session stored under its key. *)
Lemma mem_expire_deletes tm st info id :
  Mem.keys st !! t_key tm = Some info → Mem.fileId info = Some id →
  truthy id = true →
  Mem.files (Mem.expire tm st) !! id = None.
Proof.
  intros Hk Hid Ht. unfold Mem.expire. rewrite Hk. cbn. rewrite Hid, Ht.
  cbn [andb]. case_bool_decide as Hfile.
  - apply lookup_delete_eq.
  - by apply eq_None_not_Some.
Qed.

Lemma mem_callbacks_keys L : ∀ st,
  Mem.keys (foldl mexpire st L) = deleteKeys L (Mem.keys st).
Proof.
  induction L as [|tm L IH]; intros st; [done|].
  cbn [foldl]. by rewrite IH, mem_expire_keys.
Qed.

Lemma mem_callbacks_frame L : ∀ st,
  Mem.timers (foldl mexpire st L) = Mem.timers st
  ∧ Mem.now (foldl mexpire st L) = Mem.now st
  ∧ Mem.nextOid (foldl mexpire st L) = Mem.nextOid st.
Proof.
  induction L as [|tm L IH]; intros st; [done|].
  cbn [foldl]. destruct (IH (Mem.expire tm st)) as (-> & -> & ->).
  apply mem_expire_frame.
Qed.

Lemma mem_callbacks_files_None L : ∀ st id,
  Mem.files st !! id = None → Mem.files (foldl mexpire st L) !! id = None.
Proof.
  induction L as [|tm L IH]; intros st id Hid; [done|].
  cbn [foldl]. by apply IH, mem_expire_files_None.
Qed.

Lemma mem_callbacks_delete L : ∀ st key info id,
  Mem.keys st !! key = Some info → key ∈ t_key <$> L →
  Mem.fileId info = Some id → truthy id = true →
  Mem.files (foldl mexpire st L) !! id = None.
Proof.
  induction L as [|tm L IH]; intros st key info id Hk Hin Hid Ht.
  - exfalso. by eapply not_elem_of_nil.
  - cbn [foldl]. destruct (decide (key = t_key tm)) as [->|Hne].
    + apply mem_callbacks_files_None. by eapply mem_expire_deletes.
    + rewrite fmap_cons in Hin. apply elem_of_cons in Hin as [?|Hin]; [done|].
      eapply IH; [|exact Hin|exact Hid|exact Ht].
      by rewrite mem_expire_keys, lookup_delete_ne.
Qed.

(** ** [advance] *)

Lemma mem_advance_keys dt st :
  Mem.keys (Mem.advance dt st)
  = deleteKeys (List.filter (Mem.isDue (Mem.now st + dt)) (Mem.timers st))
               (Mem.keys st).
Proof. unfold Mem.advance. by rewrite mem_callbacks_keys. Qed.

Lemma mem_advance_frame dt st :
  Mem.timers (Mem.advance dt st)
  = List.filter (λ tm, negb (Mem.isDue (Mem.now st + dt) tm)) (Mem.timers st)
  ∧ Mem.now (Mem.advance dt st) = Mem.now st + dt
  ∧ Mem.nextOid (Mem.advance dt st) = Mem.nextOid st.
Proof.
  unfold Mem.advance.
  by destruct (mem_callbacks_frame
                 (List.filter (Mem.isDue (Mem.now st + dt)) (Mem.timers st))
                 (Mem.beforeCallbacks dt st)) as (-> & -> & ->).
Qed.

Lemma mem_sessions_lookup st key info :
  Mem.keys st !! key = Some info →
  Mem.sessions st !! key = Some (Mem.created info, Mem.oid info).
Proof. intros H. unfold Mem.sessions. by rewrite lookup_fmap, H. Qed.

(** ** The handlers, by cases *)

Lemma mem_generate_cases cfg st agent rnd :
  (∃ key,
      Mem.keys st !! key = None
      ∧ Mem.generate cfg st agent rnd
        = ({| Mem.keys :=
                <[key := {| Mem.created := Mem.now st; Mem.agent := agent;
                            Mem.fileId := None; Mem.oid := Mem.nextOid st |}]>
                  (Mem.keys st);
              Mem.files := Mem.files st;
              Mem.timers := Mem.timers st ++
                            [{| t_due := Mem.now st + ttl; t_key := key;
                                t_oid := Mem.nextOid st |}];
              Mem.now := Mem.now st;
              Mem.nextOid := S (Mem.nextOid st) |},
           keyResponse key))
  ∨ (∃ resp, Mem.generate cfg st agent rnd = (st, resp)
             ∧ (resp = Mem.unavailable ∨ resp = Mem.serverError)).
Proof.
  unfold Mem.generate.
  destruct (alloc_outcome _) as [key| | |] eqn:Hout; [left|right..]; eauto.
  exists key. split; [|done].
  apply allocate_key_free in Hout. by apply mem_has_false.
Qed.

Lemma mem_upload_cases st req uuid :
  (∃ key info file,
      Mem.keys st !! key = Some info
      ∧ Mem.upload st req uuid
        = ({| Mem.keys :=
                <[key := {| Mem.created := Mem.created info;
                            Mem.agent := Mem.agent info;
                            Mem.fileId := Some uuid;
                            Mem.oid := Mem.oid info |}]> (Mem.keys st);
              Mem.files :=
                <[uuid := {| Mem.data := f_data file; Mem.name := f_name file;
                             Mem.type := f_type file |}]> (Mem.files st);
              Mem.timers := Mem.timers st;
              Mem.now := Mem.now st;
              Mem.nextOid := Mem.nextOid st |},
           Mem.uploaded))
  ∨ (∃ message, Mem.upload st req uuid = (st, Mem.badRequest message)).
Proof.
  unfold Mem.upload. destruct req as [|message|fd]; [right; eauto..|].
  destruct (Js.toUpperCase <$> _) as [key|]; [|right; eauto].
  destruct (truthy key); [|right; eauto].
  destruct (Mem.keys st !! key) as [info|] eqn:Hk; [|right; eauto].
  destruct (Mem.fd_file fd) as [[s|file]|]; [right; eauto| |right; eauto].
  destruct (Mem.fileExt file) as [ext|]; [|right; eauto].
  destruct (truthy ext && _); [|right; eauto].
  left. by exists key, info, file.
Qed.

(** ** The invariant *)

Lemma mem_Inv_init : Mem.Inv Mem.init.
Proof.
  split.
  - unfold Mem.sessions. cbn. rewrite fmap_empty. apply TimersOk_init.
  - intros key info id H. cbn in H. by rewrite lookup_empty in H.
Qed.

Lemma mem_Inv_generate cfg st agent rnd :
  Mem.Inv st → Mem.Inv (fst (Mem.generate cfg st agent rnd)).
Proof.
  intros [Htm Hid].
  destruct (mem_generate_cases cfg st agent rnd)
    as [(key & Hfree & ->)|(resp & -> & _)]; [|by split].
  split.
  - unfold Mem.sessions. cbn. rewrite fmap_insert. cbn.
    apply TimersOk_generate; [|done].
    unfold Mem.sessions. by rewrite lookup_fmap, Hfree.
  - cbn. intros key' info id. rewrite lookup_insert. case_decide.
    + by intros [= <-].
    + apply Hid.
Qed.

Lemma mem_Inv_upload st req uuid :
  truthy uuid = true → Mem.Inv st → Mem.Inv (fst (Mem.upload st req uuid)).
Proof.
  intros Hu [Htm Hid].
  destruct (mem_upload_cases st req uuid)
    as [(key & info & file & Hk & ->)|(message & ->)]; [|by split].
  split.
  - unfold Mem.sessions. cbn. rewrite fmap_insert. cbn.
    rewrite insert_id; [done|]. by apply mem_sessions_lookup.
  - cbn. intros key' info' id. rewrite lookup_insert. case_decide.
    + intros [= <-]. cbn. by intros [= <-].
    + apply Hid.
Qed.

Lemma mem_Inv_advance dt st : Mem.Inv st → Mem.Inv (Mem.advance dt st).
Proof.
  intros [Htm Hid]. split.
  - unfold Mem.sessions. rewrite mem_advance_keys.
    destruct (mem_advance_frame dt st) as (-> & -> & ->).
    rewrite deleteKeys_fmap. by apply TimersOk_advance.
  - intros key info id. rewrite mem_advance_keys, lookup_deleteKeys.
    case_decide; [done|]. apply Hid.
Qed.

Lemma mem_Inv_exec cfg st ev :
  Mem.admissible st ev → Mem.Inv st → Mem.Inv (Mem.exec cfg st ev).
Proof.
  destruct ev as [agent rnd|req uuid|key|dt]; cbn; intros Hadm Hinv.
  - by apply mem_Inv_generate.
  - by apply mem_Inv_upload.
  - done.
  - by apply mem_Inv_advance.
Qed.

Lemma mem_Inv_steps cfg st st' :
  Mem.steps cfg st st' → Mem.Inv st → Mem.Inv st'.
Proof.
  induction 1 as [|st st' ev _ IH Hadm]; [done|].
  intros Hinv. by apply mem_Inv_exec, IH.
Qed.

Lemma mem_Inv_reachable cfg st : Mem.reachable cfg st → Mem.Inv st.
Proof. intros H. eapply mem_Inv_steps; [exact H|apply mem_Inv_init]. Qed.

End MemFacts.

(** * The Oak variant *)

Section OakFacts.

Local Abbreviation oexpire := (λ s tm, Oak.expire tm s).

Lemma oak_has_false st key :
  Oak.has st key = false ↔ Oak.keys st !! key = None.
Proof.
  unfold Oak.has. rewrite bool_decide_eq_false. symmetry.
  apply eq_None_not_Some.
Qed.

(** ** The expiration callback *)

Lemma oak_expire_keys tm st :
  Oak.scheduledFor tm st →
  Oak.keys (Oak.expire tm st) = delete (t_key tm) (Oak.keys st).
Proof.
  intros Hs. unfold Oak.expire.
  destruct (Oak.keys st !! t_key tm) as [info|] eqn:H.
  - rewrite bool_decide_eq_true_2; [done|]. by apply Hs.
  - by rewrite delete_id.
Qed.

Lemma oak_expire_keys_sub tm st key :
  Oak.keys st !! key = None → Oak.keys (Oak.expire tm st) !! key = None.
Proof.
  intros Hk. unfold Oak.expire.
  destruct (Oak.keys st !! t_key tm) as [info|]; [|done].
  case_bool_decide; [|done]. cbn. apply lookup_delete_None. by right.
Qed.

Lemma oak_expire_keys_other tm st key :
  key ≠ t_key tm →
  Oak.keys (Oak.expire tm st) !! key = Oak.keys st !! key.
Proof.
  intros Hne. unfold Oak.expire.
  destruct (Oak.keys st !! t_key tm) as [info|]; [|done].
  case_bool_decide; [|done]. cbn. by rewrite lookup_delete_ne.
Qed.

(** A session the callback leaves in the map is left as it was. *)
Lemma oak_expire_keys_Some tm st key info :
  Oak.keys (Oak.expire tm st) !! key = Some info →
  Oak.keys st !! key = Some info.
Proof.
  unfold Oak.expire.
  destruct (Oak.keys st !! t_key tm) as [info'|]; [|done].
  case_bool_decide; [|done]. cbn. by intros [_ ?]%lookup_delete_Some.
Qed.

Lemma oak_expire_frame tm st :
  Oak.timers (Oak.expire tm st) = Oak.timers st
  ∧ Oak.now (Oak.expire tm st) = Oak.now st
  ∧ Oak.nextOid (Oak.expire tm st) = Oak.nextOid st.
Proof.
  unfold Oak.expire. destruct (Oak.keys st !! t_key tm); [|done].
  by case_bool_decide.
Qed.

(** The callback never adds a file. *)
Lemma oak_expire_disk_None tm st p :
  Oak.disk st !! p = None → Oak.disk (Oak.expire tm st) !! p = None.
Proof.
  intros Hp. unfold Oak.expire.
  destruct (Oak.keys st !! t_key tm) as [info|]; [|done].
  case_bool_decide; [|done]. cbn.
  destruct (Oak.file info) as [f|]; [|done].
  destruct (truthy (Oak.path f)); [|done].
  apply lookup_delete_None. by right.
Qed.

(** The callback removes the file of the session it evicts. *)
Lemma oak_expire_deletes tm st info f :
  Oak.keys st !! t_key tm = Some info → Oak.oid info = t_oid tm →
  Oak.file info = Some f → truthy (Oak.path f) = true →
  Oak.disk (Oak.expire tm st) !! Oak.path f = None.
Proof.
  intros Hk Ho Hf Ht. unfold Oak.expire. rewrite Hk.
  rewrite bool_decide_eq_true_2 by done. cbn. rewrite Hf, Ht.
  apply lookup_delete_eq.
Qed.


Lemma oak_callbacks_keys L : ∀ st,
  (∀ tm, tm ∈ L → Oak.scheduledFor tm st) →
  Oak.keys (foldl oexpire st L) = deleteKeys L (Oak.keys st).
Proof.
  induction L as [|tm L IH]; intros st Hs; [done|].
  cbn [foldl]. rewrite deleteKeys_cons, IH.
  - rewrite oak_expire_keys; [done|]. apply Hs, list_elem_of_here.
  - intros tm' Hin info Hk. apply (Hs tm'); [by apply list_elem_of_further|].
    by eapply oak_expire_keys_Some.
Qed.

Lemma oak_callbacks_frame L : ∀ st,
  Oak.timers (foldl oexpire st L) = Oak.timers st
  ∧ Oak.now (foldl oexpire st L) = Oak.now st
  ∧ Oak.nextOid (foldl oexpire st L) = Oak.nextOid st.
Proof.
  induction L as [|tm L IH]; intros st; [done|].
  cbn [foldl]. destruct (IH (Oak.expire tm st)) as (-> & -> & ->).
  apply oak_expire_frame.
Qed.

Lemma oak_callbacks_disk_None L : ∀ st p,
  Oak.disk st !! p = None → Oak.disk (foldl oexpire st L) !! p = None.
Proof.
  induction L as [|tm L IH]; intros st p Hp; [done|].
  cbn [foldl]. by apply IH, oak_expire_disk_None.
Qed.

Lemma oak_callbacks_delete L : ∀ st key info f,
  (∀ tm, tm ∈ L → Oak.scheduledFor tm st) →
  Oak.keys st !! key = Some info → key ∈ t_key <$> L →
  Oak.file info = Some f → truthy (Oak.path f) = true →
  Oak.disk (foldl oexpire st L) !! Oak.path f = None.
Proof.
  induction L as [|tm L IH]; intros st key info f Hs Hk Hin Hf Ht.
  - exfalso. by eapply not_elem_of_nil.
  - cbn [foldl]. destruct (decide (key = t_key tm)) as [->|Hne].
    + apply oak_callbacks_disk_None.
      eapply oak_expire_deletes; [exact Hk| |exact Hf|exact Ht].
      by apply (Hs tm); [apply list_elem_of_here|].
    + rewrite fmap_cons in Hin. apply elem_of_cons in Hin as [?|Hin]; [done|].
      eapply IH; [|by rewrite oak_expire_keys_other|exact Hin|exact Hf|exact Ht].
      intros tm' Hin' info' Hk'.
      apply (Hs tm'); [by apply list_elem_of_further|].
      by eapply oak_expire_keys_Some.
Qed.

Lemma oak_sessions_lookup st key info :
  Oak.keys st !! key = Some info →
  Oak.sessions st !! key = Some (Oak.created info, Oak.oid info).
Proof. intros H. unfold Oak.sessions. by rewrite lookup_fmap, H. Qed.

Lemma oak_TimersOk_scheduledFor st tm :
  TimersOk (Oak.sessions st) (Oak.timers st) (Oak.now st) (Oak.nextOid st) →
  tm ∈ Oak.timers st → Oak.scheduledFor tm st.
Proof.
  intros (_ & Htm & _) Hin info Hk.
  destruct (Htm tm Hin) as (_ & c & Hc & _).
  rewrite (oak_sessions_lookup _ _ _ Hk) in Hc. congruence.
Qed.

(** ** [advance] *)

Lemma oak_due_scheduledFor dt st :
  TimersOk (Oak.sessions st) (Oak.timers st) (Oak.now st) (Oak.nextOid st) →
  ∀ tm, tm ∈ List.filter (Oak.isDue (Oak.now st + dt)) (Oak.timers st) →
        Oak.scheduledFor tm (Oak.beforeCallbacks dt st).
Proof.
  intros Hok tm [Hin _]%elem_of_filter_bool.
  by apply (oak_TimersOk_scheduledFor st tm Hok Hin).
Qed.

Lemma oak_advance_keys dt st :
  TimersOk (Oak.sessions st) (Oak.timers st) (Oak.now st) (Oak.nextOid st) →
  Oak.keys (Oak.advance dt st)
  = deleteKeys (List.filter (Oak.isDue (Oak.now st + dt)) (Oak.timers st))
               (Oak.keys st).
Proof.
  intros Hok. unfold Oak.advance.
  rewrite oak_callbacks_keys; [done|]. by apply oak_due_scheduledFor.
Qed.

Lemma oak_advance_frame dt st :
  Oak.timers (Oak.advance dt st)
  = List.filter (λ tm, negb (Oak.isDue (Oak.now st + dt) tm)) (Oak.timers st)
  ∧ Oak.now (Oak.advance dt st) = Oak.now st + dt
  ∧ Oak.nextOid (Oak.advance dt st) = Oak.nextOid st.
Proof.
  unfold Oak.advance.
  by destruct (oak_callbacks_frame
                 (List.filter (Oak.isDue (Oak.now st + dt)) (Oak.timers st))
                 (Oak.beforeCallbacks dt st)) as (-> & -> & ->).
Qed.

(** ** The handlers, by cases *)

Lemma oak_generate_cases cfg st agent rnd :
  (∃ key,
      Oak.keys st !! key = None
      ∧ Oak.generate cfg st agent rnd
        = ({| Oak.keys :=
                <[key := {| Oak.created := Oak.now st; Oak.agent := agent;
                            Oak.file := None; Oak.oid := Oak.nextOid st |}]>
                  (Oak.keys st);
              Oak.disk := Oak.disk st;
              Oak.timers := Oak.timers st ++
                            [{| t_due := Oak.now st + ttl; t_key := key;
                                t_oid := Oak.nextOid st |}];
              Oak.now := Oak.now st;
              Oak.nextOid := S (Oak.nextOid st) |},
           keyResponse key))
  ∨ (∃ resp, Oak.generate cfg st agent rnd = (st, resp)
             ∧ (resp = Oak.unavailable ∨ resp = Oak.serverError)).
Proof.
  unfold Oak.generate.
  destruct (alloc_outcome _) as [key| | |] eqn:Hout; [left|right..]; eauto.
  exists key. split; [|done].
  apply allocate_key_free in Hout. by apply oak_has_false.
Qed.

(** An upload is refused before anything is written, or it is refused for
    its key after the file was saved, or it binds the saved file. *)
Lemma oak_upload_cases st req uuid :
  (∃ message, Oak.upload st req uuid = (st, Oak.badRequest message))
  ∨ (∃ f rest,
        Oak.up_body req = Oak.FormDataBody (f :: rest)
        ∧ Js.includes allowedExtensions (Oak.fileExt f) = true
        ∧ Oak.canOpen (Oak.uploadPath uuid f) = true
        ∧ ((Oak.keyInvalid st req
            ∧ Oak.upload st req uuid
              = (Oak.afterWrite st uuid f, Oak.badRequest "Invalid key"))
           ∨ (∃ key info,
                 Js.toUpperCase <$> Oak.up_key req = Some key
                 ∧ Oak.keys st !! key = Some info
                 ∧ Oak.upload st req uuid
                   = ({| Oak.keys :=
                           <[key := Oak.withFile info (Oak.fileInfoOf uuid f)]>
                             (Oak.keys st);
                         Oak.disk :=
                           Oak.removePrevious info
                             (Oak.writeFile (Oak.uploadPath uuid f) (f_data f)
                                            (Oak.disk st));
                         Oak.timers := Oak.timers st;
                         Oak.now := Oak.now st;
                         Oak.nextOid := Oak.nextOid st |},
                      Oak.uploaded)))).
Proof.
  unfold Oak.upload, Oak.handleUpload, Oak.keyInvalid.
  destruct (Oak.up_body req) as [|[|f rest]]; [left; eauto..|].
  cbn [head]. destruct (Js.includes _ _) eqn:Hext; [|left; eauto].
  destruct (Oak.canOpen _) eqn:Hopen; [|left; eauto].
  right. exists f, rest. split; [done|]. split; [done|]. split; [done|].
  destruct (Js.toUpperCase <$> Oak.up_key req) as [key|]; [|left; eauto].
  destruct (truthy key) eqn:Ht; [|left; eauto].
  cbn [Oak.afterWrite Oak.keys].
  destruct (Oak.keys st !! key) as [info|] eqn:Hk; [|left; eauto].
  right. by exists key, info.
Qed.

(** ** The files of the sessions *)

Lemma oak_canOpen_truthy p : Oak.canOpen p = true → truthy p = true.
Proof. intros H. destruct p; [by vm_compute in H|done]. Qed.

Lemma oak_writeFile_lookup p content d q :
  Oak.writeFile p content d !! q
  = if decide (p = q)
    then Some (content ++ drop (List.length content) (default [] (d !! p)))
    else d !! q.
Proof. unfold Oak.writeFile. apply lookup_insert. Qed.

Lemma oak_writeFile_fresh p content d :
  d !! p = None → Oak.writeFile p content d !! p = Some content.
Proof.
  intros Hp. rewrite oak_writeFile_lookup, decide_True by done.
  rewrite Hp. cbn. by rewrite drop_nil, app_nil_r.
Qed.


Lemma oak_PathsOk_expire tm st : Oak.PathsOk st → Oak.PathsOk (Oak.expire tm st).
Proof.
  intros Hok key info f Hk. apply (Hok key). by eapply oak_expire_keys_Some.
Qed.

Lemma oak_PathsOk_callbacks L : ∀ st,
  Oak.PathsOk st → Oak.PathsOk (foldl oexpire st L).
Proof.
  induction L as [|tm L IH]; intros st Hok; [done|].
  cbn [foldl]. by apply IH, oak_PathsOk_expire.
Qed.

Lemma oak_PathsOk_advance dt st : Oak.PathsOk st → Oak.PathsOk (Oak.advance dt st).
Proof. intros Hok. unfold Oak.advance. by apply oak_PathsOk_callbacks. Qed.

Lemma oak_PathsOk_generate cfg st agent rnd :
  Oak.PathsOk st → Oak.PathsOk (fst (Oak.generate cfg st agent rnd)).
Proof.
  intros Hok.
  destruct (oak_generate_cases cfg st agent rnd)
    as [(key & Hfree & ->)|(resp & -> & _)]; [|done].
  intros key' info f. cbn. rewrite lookup_insert. case_decide.
  - by intros [= <-].
  - apply Hok.
Qed.

Lemma oak_PathsOk_upload st req uuid :
  Oak.PathsOk st → Oak.PathsOk (fst (Oak.upload st req uuid)).
Proof.
  intros Hok.
  destruct (oak_upload_cases st req uuid)
    as [(message & ->)
       |(f & rest & _ & _ & Hopen & [[_ ->]|(key & info & _ & Hk & ->)])];
    [done..|].
  intros key' info' f'. cbn. rewrite lookup_insert. case_decide.
  - intros [= <-] [= <-]. cbn. by apply oak_canOpen_truthy.
  - apply Hok.
Qed.

(** ** The invariant *)

Lemma oak_Inv_init : Oak.Inv Oak.init.
Proof.
  split.
  - unfold Oak.sessions. cbn. rewrite fmap_empty. apply TimersOk_init.
  - intros key info f H. cbn in H. by rewrite lookup_empty in H.
Qed.

Lemma oak_Inv_exec cfg st ev : Oak.Inv st → Oak.Inv (Oak.exec cfg st ev).
Proof.
  intros [Htm Hfiles].
  destruct ev as [agent rnd|req uuid|key|dt]; cbn [Oak.exec].
  - split; [|by apply oak_PathsOk_generate].
    destruct (oak_generate_cases cfg st agent rnd)
      as [(key & Hfree & ->)|(resp & -> & _)]; [|done].
    unfold Oak.sessions. cbn. rewrite fmap_insert. cbn.
    apply TimersOk_generate; [|done].
    unfold Oak.sessions. by rewrite lookup_fmap, Hfree.
  - split; [|by apply oak_PathsOk_upload].
    destruct (oak_upload_cases st req uuid)
      as [(message & ->)
         |(f & rest & _ & _ & _ & [[_ ->]|(key & info & _ & Hk & ->)])];
      [done..|].
    unfold Oak.sessions. cbn. rewrite fmap_insert. cbn.
    rewrite insert_id; [done|]. by apply oak_sessions_lookup.
  - by split.
  - split; [|by apply oak_PathsOk_advance].
    unfold Oak.sessions. rewrite oak_advance_keys by done.
    destruct (oak_advance_frame dt st) as (-> & -> & ->).
    rewrite deleteKeys_fmap. by apply TimersOk_advance.
Qed.

Lemma oak_Inv_steps cfg st st' :
  Oak.steps cfg st st' → Oak.Inv st → Oak.Inv st'.
Proof.
  induction 1 as [|st st' ev _ IH]; [done|].
  intros Hinv. by apply oak_Inv_exec, IH.
Qed.

Lemma oak_Inv_reachable cfg st : Oak.reachable cfg st → Oak.Inv st.
Proof. intros H. eapply oak_Inv_steps; [exact H|apply oak_Inv_init]. Qed.

(** ** A file no session refers to stays *)





(** A run with plain uploads is a run. *)
Lemma oak_plainSteps_steps cfg st st' :
  Oak.plainSteps cfg st st' → Oak.steps cfg st st'.
Proof.
  induction 1 as [|st st' ev _ IH _]; [apply Oak.steps_refl|].
  by apply Oak.steps_step.
Qed.

End OakFacts.

(** * Expiry *)

Section Expiry.

Lemma due_timer_key sess tms now next key c o dt :
  TimersOk sess tms now next → sess !! key = Some (c, o) →
  c + ttl ≤ now + dt →
  key ∈ t_key <$> List.filter (λ tm, t_due tm <=? now + dt) tms.
Proof.
  intros (_ & _ & Hsess) Hs Hdue. destruct (Hsess key c o Hs) as [_ Hin].
  apply list_elem_of_fmap.
  exists {| t_due := c + ttl; t_key := key; t_oid := o |}. split; [done|].
  apply elem_of_filter_bool. split; [done|]. by apply N.leb_le.
Qed.

Lemma mem_expired cfg st key info dt :
  Mem.reachable cfg st → Mem.keys st !! key = Some info →
  Mem.created info + ttl ≤ Mem.now st + dt →
  Mem.keys (Mem.advance dt st) !! key = None
  ∧ ∀ id, Mem.fileId info = Some id →
          Mem.files (Mem.advance dt st) !! id = None.
Proof.
  intros [Htm Hid]%mem_Inv_reachable Hk Hdue.
  pose proof (due_timer_key _ _ _ _ _ _ _ dt Htm
                (mem_sessions_lookup _ _ _ Hk) Hdue) as Hin.
  split.
  - rewrite mem_advance_keys, lookup_deleteKeys. by rewrite decide_True.
  - intros id Hfile. unfold Mem.advance.
    eapply mem_callbacks_delete; [exact Hk|exact Hin|exact Hfile|].
    by eapply Hid.
Qed.

Lemma mem_not_expired cfg st key info :
  Mem.reachable cfg st → Mem.keys st !! key = Some info →
  Mem.now st < Mem.created info + ttl.
Proof.
  intros [Htm _]%mem_Inv_reachable Hk.
  eapply TimersOk_not_expired; [exact Htm|by apply mem_sessions_lookup].
Qed.

Lemma oak_expired cfg st key info dt :
  Oak.reachable cfg st → Oak.keys st !! key = Some info →
  Oak.created info + ttl ≤ Oak.now st + dt →
  Oak.keys (Oak.advance dt st) !! key = None
  ∧ ∀ f, Oak.file info = Some f →
         Oak.disk (Oak.advance dt st) !! Oak.path f = None.
Proof.
  intros [Htm Hpaths]%oak_Inv_reachable Hk Hdue.
  pose proof (due_timer_key _ _ _ _ _ _ _ dt Htm
                (oak_sessions_lookup _ _ _ Hk) Hdue) as Hin.
  split.
  - rewrite oak_advance_keys, lookup_deleteKeys by done.
    by rewrite decide_True.
  - intros f Hfile. unfold Oak.advance.
    eapply oak_callbacks_delete;
      [by apply oak_due_scheduledFor|exact Hk|exact Hin|exact Hfile|].
    by apply (Hpaths key info f).
Qed.

Lemma oak_not_expired cfg st key info :
  Oak.reachable cfg st → Oak.keys st !! key = Some info →
  Oak.now st < Oak.created info + ttl.
Proof.
  intros [Htm _]%oak_Inv_reachable Hk.
  eapply TimersOk_not_expired; [exact Htm|by apply oak_sessions_lookup].
Qed.

(** C7. In both variants a live session of a reachable state has not
    reached its expiry [created + ttl]; and when the clock advances to or
    past the expiry, the callback has fired: the key is no longer in the
    [keys] map and the file bound to the session at that time is no longer
    in the store ([files] in memory, [uploads/] on disk). *)
Theorem session_expires :
  (∀ cfg st key info,
     Mem.reachable cfg st → Mem.keys st !! key = Some info →
     Mem.now st < Mem.created info + ttl
     ∧ ∀ dt, Mem.created info + ttl ≤ Mem.now st + dt →
             Mem.keys (Mem.advance dt st) !! key = None
             ∧ ∀ id, Mem.fileId info = Some id →
                     Mem.files (Mem.advance dt st) !! id = None)
  ∧ (∀ cfg st key info,
       Oak.reachable cfg st → Oak.keys st !! key = Some info →
       Oak.now st < Oak.created info + ttl
       ∧ ∀ dt, Oak.created info + ttl ≤ Oak.now st + dt →
               Oak.keys (Oak.advance dt st) !! key = None
               ∧ ∀ f, Oak.file info = Some f →
                      Oak.disk (Oak.advance dt st) !! Oak.path f = None).
Proof.
  split; intros cfg st key info Hr Hk.
  - split; [by eapply mem_not_expired|]. intros dt Hdue.
    by eapply mem_expired.
  - split; [by eapply oak_not_expired|]. intros dt Hdue.
    by eapply oak_expired.
Qed.

End Expiry.

(** * Download *)

Section Download.

Lemma mem_download_unknown st key :
  Mem.keys st !! key = None → Mem.download st key = Mem.notFound.
Proof.
  intros Hk. unfold Mem.download. destruct (truthy key); [|done].
  cbn. by rewrite Hk.
Qed.

Lemma mem_download_unbound st key info :
  Mem.keys st !! key = Some info → Mem.fileId info = None →
  Mem.download st key = Mem.notFound.
Proof.
  intros Hk Hf. unfold Mem.download. destruct (truthy key); [|done].
  cbn. by rewrite Hk, Hf.
Qed.

Lemma oak_download_unknown st key :
  Oak.keys st !! key = None → Oak.download st (Some key) = Oak.notFound.
Proof.
  intros Hk. unfold Oak.download. destruct (truthy key); [|done].
  by rewrite Hk.
Qed.

Lemma oak_download_unbound st key info :
  Oak.keys st !! key = Some info → Oak.file info = None →
  Oak.download st (Some key) = Oak.notFound.
Proof.
  intros Hk Hf. unfold Oak.download. destruct (truthy key); [|done].
  by rewrite Hk, Hf.
Qed.

(** C6. In both variants the download of a code that is not in the [keys]
    map (never allocated), of a live code with no file bound, and of a code
    whose session the expiry has removed, get one and the same answer, the
    404 of the variant. *)
Theorem download_not_found :
  (∀ st key, Mem.keys st !! key = None →
             Mem.download st key = Mem.notFound)
  ∧ (∀ st key info,
       Mem.keys st !! key = Some info → Mem.fileId info = None →
       Mem.download st key = Mem.notFound)
  ∧ (∀ cfg st key info dt,
       Mem.reachable cfg st → Mem.keys st !! key = Some info →
       Mem.created info + ttl ≤ Mem.now st + dt →
       Mem.download (Mem.advance dt st) key = Mem.notFound)
  ∧ (∀ st key, Oak.keys st !! key = None →
               Oak.download st (Some key) = Oak.notFound)
  ∧ (∀ st key info,
       Oak.keys st !! key = Some info → Oak.file info = None →
       Oak.download st (Some key) = Oak.notFound)
  ∧ (∀ cfg st key info dt,
       Oak.reachable cfg st → Oak.keys st !! key = Some info →
       Oak.created info + ttl ≤ Oak.now st + dt →
       Oak.download (Oak.advance dt st) (Some key) = Oak.notFound)
  ∧ status Mem.notFound = 404 ∧ status Oak.notFound = 404.
Proof.
  repeat split.
  - apply mem_download_unknown.
  - apply mem_download_unbound.
  - intros cfg st key info dt Hr Hk Hdue. apply mem_download_unknown.
    by destruct (mem_expired cfg st key info dt Hr Hk Hdue).
  - apply oak_download_unknown.
  - apply oak_download_unbound.
  - intros cfg st key info dt Hr Hk Hdue. apply oak_download_unknown.
    by destruct (oak_expired cfg st key info dt Hr Hk Hdue).
Qed.

End Download.

(** * The expiration callback and the session it was scheduled for *)

Section Guard.

Lemma oak_expire_noop tm st :
  ¬ (∃ info, Oak.keys st !! t_key tm = Some info ∧ Oak.oid info = t_oid tm) →
  Oak.expire tm st = st.
Proof.
  intros Hno. unfold Oak.expire.
  destruct (Oak.keys st !! t_key tm) as [info|] eqn:Hk; [|done].
  case_bool_decide; [|done]. exfalso. eauto.
Qed.

Lemma oak_expire_only tm st key info :
  Oak.keys st !! key = Some info →
  Oak.keys (Oak.expire tm st) !! key = None →
  key = t_key tm ∧ Oak.oid info = t_oid tm.
Proof.
  intros Hk. unfold Oak.expire.
  destruct (Oak.keys st !! t_key tm) as [info'|] eqn:Hk'; [|congruence].
  case_bool_decide as Ho; [|congruence]. cbn.
  intros [Heq|Hnone]%lookup_delete_None.
  - subst key. split; [done|congruence].
  - congruence.
Qed.

Lemma mem_expire_noop tm st :
  Mem.keys st !! t_key tm = None → Mem.expire tm st = st.
Proof. intros Hk. unfold Mem.expire. by rewrite Hk. Qed.

Lemma mem_expire_only tm st key :
  is_Some (Mem.keys st !! key) →
  Mem.keys (Mem.expire tm st) !! key = None → key = t_key tm.
Proof.
  intros [info Hk]. rewrite mem_expire_keys.
  intros [->|?]%lookup_delete_None; [done|congruence].
Qed.

(** When a callback fires in the router variant, the session stored under
    its key is the one it was scheduled for. *)
Lemma mem_fires_scheduled cfg tm sti :
  Mem.fires cfg tm sti →
  ∃ info, Mem.keys sti !! t_key tm = Some info ∧ Mem.oid info = t_oid tm
          ∧ ∀ id, Mem.fileId info = Some id → truthy id = true.
Proof.
  intros (st & dt & before & after & Hr & Hdue & ->).
  destruct (mem_Inv_reachable cfg st Hr) as [(Hnd & Htm & _) Hid].
  assert (tm ∈ Mem.timers st) as Hin.
  { assert (tm ∈ List.filter (Mem.isDue (Mem.now st + dt)) (Mem.timers st))
      as [? _]%elem_of_filter_bool; [|done].
    rewrite Hdue. apply elem_of_app. right. apply list_elem_of_here. }
  destruct (Htm tm Hin) as (_ & c & Hc & _).
  unfold Mem.sessions in Hc.
  apply lookup_fmap_Some in Hc as (info & [= <- Ho] & Hk).
  exists info. split; [|split; [done|intros id Hf; by apply (Hid _ _ _ Hk)]].
  rewrite mem_callbacks_keys, lookup_deleteKeys. cbn [Mem.beforeCallbacks Mem.keys].
  rewrite decide_False; [done|].
  intros Hbefore.
  pose proof (NoDup_fmap_filter t_key (Mem.isDue (Mem.now st + dt)) _ Hnd)
    as Hnd'.
  rewrite Hdue, fmap_app, fmap_cons in Hnd'.
  apply NoDup_app in Hnd' as (_ & Hdisj & _).
  apply (Hdisj _ Hbefore), list_elem_of_here.
Qed.

(** C5. The Oak variant compares identities: its callback changes the
    state only when the session stored under its key is the very one the
    timer was scheduled for, which it then removes together with its file;
    when that session is gone (or another one is stored under the key) the
    callback is a no-op.  The router variant only tests [keys.has(key)]:
    its callback is a no-op when the key is absent, and whenever it fires
    in a run of the server the session stored under the key is the one it
    was scheduled for, which it removes together with its file. *)
Theorem expiration_guard :
  (∀ tm st,
     (∀ key info,
        Oak.keys st !! key = Some info →
        Oak.keys (Oak.expire tm st) !! key = None →
        key = t_key tm ∧ Oak.oid info = t_oid tm)
     ∧ (∀ info,
          Oak.keys st !! t_key tm = Some info → Oak.oid info = t_oid tm →
          Oak.keys (Oak.expire tm st) = delete (t_key tm) (Oak.keys st)
          ∧ ∀ f, Oak.file info = Some f → truthy (Oak.path f) = true →
                 Oak.disk (Oak.expire tm st) !! Oak.path f = None)
     ∧ (¬ (∃ info, Oak.keys st !! t_key tm = Some info
                   ∧ Oak.oid info = t_oid tm) →
        Oak.expire tm st = st))
  ∧ (∀ tm st, Mem.keys st !! t_key tm = None → Mem.expire tm st = st)
  ∧ (∀ cfg tm sti,
       Mem.fires cfg tm sti →
       ∃ info,
         Mem.keys sti !! t_key tm = Some info ∧ Mem.oid info = t_oid tm
         ∧ Mem.keys (Mem.expire tm sti) = delete (t_key tm) (Mem.keys sti)
         ∧ (∀ id, Mem.fileId info = Some id →
                  Mem.files (Mem.expire tm sti) !! id = None)
         ∧ ∀ key, is_Some (Mem.keys sti !! key) →
                  Mem.keys (Mem.expire tm sti) !! key = None →
                  key = t_key tm).
Proof.
  split; [|split].
  - intros tm st. split; [apply oak_expire_only|]. split.
    + intros info Hk Ho. split.
      * apply oak_expire_keys. intros info' Hk'. congruence.
      * intros f Hf Ht. by eapply oak_expire_deletes.
    + apply oak_expire_noop.
  - apply mem_expire_noop.
  - intros cfg tm sti (info & Hk & Ho & Hid)%mem_fires_scheduled.
    exists info. split; [done|]. split; [done|].
    split; [apply mem_expire_keys|]. split.
    + intros id Hf. eapply mem_expire_deletes; [exact Hk|exact Hf|by apply Hid].
    + apply mem_expire_only.
Qed.

End Guard.

(** * Uniqueness of allocated codes *)

Section Uniqueness.

Lemma mem_exec_nextOid cfg st ev :
  (Mem.nextOid st ≤ Mem.nextOid (Mem.exec cfg st ev))%nat.
Proof.
  destruct ev as [agent rnd|req uuid|key|dt]; cbn [Mem.exec].
  - destruct (mem_generate_cases cfg st agent rnd)
      as [(key & _ & ->)|(resp & -> & _)]; cbn; lia.
  - destruct (mem_upload_cases st req uuid)
      as [(key & info & file & _ & ->)|(message & ->)]; cbn; lia.
  - lia.
  - destruct (mem_advance_frame dt st) as (_ & _ & ->). lia.
Qed.

Lemma mem_steps_nextOid cfg st st' :
  Mem.steps cfg st st' → (Mem.nextOid st ≤ Mem.nextOid st')%nat.
Proof.
  induction 1 as [|st st' ev _ IH _]; [lia|].
  pose proof (mem_exec_nextOid cfg st' ev). lia.
Qed.

Lemma oak_exec_nextOid cfg st ev :
  (Oak.nextOid st ≤ Oak.nextOid (Oak.exec cfg st ev))%nat.
Proof.
  destruct ev as [agent rnd|req uuid|key|dt]; cbn [Oak.exec].
  - destruct (oak_generate_cases cfg st agent rnd)
      as [(key & _ & ->)|(resp & -> & _)]; cbn; lia.
  - destruct (oak_upload_cases st req uuid)
      as [(message & ->)
         |(f & rest & _ & _ & _ & [[_ ->]|(key & info & _ & _ & ->)])];
      cbn; lia.
  - lia.
  - destruct (oak_advance_frame dt st) as (_ & _ & ->). lia.
Qed.

Lemma oak_steps_nextOid cfg st st' :
  Oak.steps cfg st st' → (Oak.nextOid st ≤ Oak.nextOid st')%nat.
Proof.
  induction 1 as [|st st' ev _ IH]; [lia|].
  pose proof (oak_exec_nextOid cfg st' ev). lia.
Qed.

(** What a successful [generate] does: the key was not live, the new
    session is stored under it with a fresh identity, and every other
    session is left as it was. *)
Lemma mem_generate_ok cfg st agent rnd st' key :
  Mem.generate cfg st agent rnd = (st', keyResponse key) →
  Mem.keys st !! key = None
  ∧ (∃ info, Mem.keys st' !! key = Some info
             ∧ Mem.oid info = Mem.nextOid st ∧ Mem.fileId info = None)
  ∧ (∀ key', key' ≠ key → Mem.keys st' !! key' = Mem.keys st !! key')
  ∧ Mem.nextOid st' = S (Mem.nextOid st).
Proof.
  destruct (mem_generate_cases cfg st agent rnd)
    as [(key0 & Hfree & ->)|(resp & -> & [->| ->])]; [|done..].
  intros [= <- ->]. cbn. split; [done|]. split.
  - eexists. by rewrite lookup_insert_eq.
  - split; [|done]. intros key' Hne. by rewrite lookup_insert_ne.
Qed.

Lemma oak_generate_ok cfg st agent rnd st' key :
  Oak.generate cfg st agent rnd = (st', keyResponse key) →
  Oak.keys st !! key = None
  ∧ (∃ info, Oak.keys st' !! key = Some info
             ∧ Oak.oid info = Oak.nextOid st ∧ Oak.file info = None)
  ∧ (∀ key', key' ≠ key → Oak.keys st' !! key' = Oak.keys st !! key')
  ∧ Oak.nextOid st' = S (Oak.nextOid st).
Proof.
  destruct (oak_generate_cases cfg st agent rnd)
    as [(key0 & Hfree & ->)|(resp & -> & [->| ->])]; [|done..].
  intros [= <- ->]. cbn. split; [done|]. split.
  - eexists. by rewrite lookup_insert_eq.
  - split; [|done]. intros key' Hne. by rewrite lookup_insert_ne.
Qed.

(** C4. In both variants a successful [generate] never returns a code that
    is live, and it leaves the sessions of all other codes in place; and of
    two successful calls, the second after any run of the server, if the
    session the first call created is still stored under its code when the
    second call returns, the two codes differ. *)
Theorem allocate_unique :
  (∀ cfg st agent rnd st' key,
     Mem.generate cfg st agent rnd = (st', keyResponse key) →
     Mem.keys st !! key = None
     ∧ ∀ key', key' ≠ key → Mem.keys st' !! key' = Mem.keys st !! key')
  ∧ (∀ cfg st0 agent1 rnd1 st1 key1 st2 agent2 rnd2 st3 key2,
       Mem.generate cfg st0 agent1 rnd1 = (st1, keyResponse key1) →
       Mem.steps cfg st1 st2 →
       Mem.generate cfg st2 agent2 rnd2 = (st3, keyResponse key2) →
       (∃ info, Mem.keys st3 !! key1 = Some info
                ∧ Mem.oid info = Mem.nextOid st0) →
       key1 ≠ key2)
  ∧ (∀ cfg st agent rnd st' key,
       Oak.generate cfg st agent rnd = (st', keyResponse key) →
       Oak.keys st !! key = None
       ∧ ∀ key', key' ≠ key → Oak.keys st' !! key' = Oak.keys st !! key')
  ∧ (∀ cfg st0 agent1 rnd1 st1 key1 st2 agent2 rnd2 st3 key2,
       Oak.generate cfg st0 agent1 rnd1 = (st1, keyResponse key1) →
       Oak.steps cfg st1 st2 →
       Oak.generate cfg st2 agent2 rnd2 = (st3, keyResponse key2) →
       (∃ info, Oak.keys st3 !! key1 = Some info
                ∧ Oak.oid info = Oak.nextOid st0) →
       key1 ≠ key2).
Proof.
  split; [|split; [|split]].
  - intros cfg st agent rnd st' key Hg.
    by destruct (mem_generate_ok _ _ _ _ _ _ Hg) as (? & _ & ? & _).
  - intros cfg st0 agent1 rnd1 st1 key1 st2 agent2 rnd2 st3 key2
      Hg1 Hsteps Hg2 (info & Hk & Ho) <-.
    destruct (mem_generate_ok _ _ _ _ _ _ Hg1) as (_ & _ & _ & Hn1).
    destruct (mem_generate_ok _ _ _ _ _ _ Hg2) as (_ & (info' & Hk' & Ho' & _) & _).
    pose proof (mem_steps_nextOid _ _ _ Hsteps).
    assert (info = info') as <- by congruence. lia.
  - intros cfg st agent rnd st' key Hg.
    by destruct (oak_generate_ok _ _ _ _ _ _ Hg) as (? & _ & ? & _).
  - intros cfg st0 agent1 rnd1 st1 key1 st2 agent2 rnd2 st3 key2
      Hg1 Hsteps Hg2 (info & Hk & Ho) <-.
    destruct (oak_generate_ok _ _ _ _ _ _ Hg1) as (_ & _ & _ & Hn1).
    destruct (oak_generate_ok _ _ _ _ _ _ Hg2) as (_ & (info' & Hk' & Ho' & _) & _).
    pose proof (oak_steps_nextOid _ _ _ Hsteps).
    assert (info = info') as <- by congruence. lia.
Qed.

End Uniqueness.

(** * A refused upload in the Oak variant *)

Section RefusedUpload.

Lemma oak_upload_keyInvalid st req uuid f rest :
  Oak.up_body req = Oak.FormDataBody (f :: rest) →
  Js.includes allowedExtensions (Oak.fileExt f) = true →
  Oak.canOpen (Oak.uploadPath uuid f) = true →
  Oak.keyInvalid st req →
  Oak.upload st req uuid
  = (Oak.afterWrite st uuid f, Oak.badRequest "Invalid key").
Proof.
  intros Hbody Hext Hopen Hkey.
  unfold Oak.upload, Oak.handleUpload, Oak.keyInvalid in *.
  rewrite Hbody. cbn [head]. rewrite Hext, Hopen.
  destruct (Js.toUpperCase <$> Oak.up_key req) as [key|]; [|done].
  destruct Hkey as [->| Hk]; [done|].
  destruct (truthy key); [|done]. cbn [Oak.afterWrite Oak.keys].
  by rewrite Hk.
Qed.



End RefusedUpload.

(** * The retry budget *)

Section Budget.

Lemma exhausted_candidates cfg rnd (has : string → bool) :
  validConfig cfg → (∀ i, rnd i < choices cfg) →
  (∀ key, inKeySpace cfg key → has key = true) →
  ∀ i : nat, ∃ key, randomKey cfg (rnd i) = Some key ∧ has key = true.
Proof.
  intros Hv Hrnd Hlive i.
  destruct (randomKey_inKeySpace cfg Hv (rnd i) (Hrnd i)) as (key & Hkey & Hin).
  exists key. split; [done|]. by apply Hlive.
Qed.

(** C2, as the specification states it, fails: with both codes of a
    two-code key space live the loop calls [randomKey] 4 times, one more
    than the budget of [keys.size + 1 = 3]. *)
Lemma budget_counterexample :
  ¬ budget_as_specified twoCodes (λ _, 0) (Mem.has memFull)
                        (size (Mem.keys memFull)).
Proof.
  intros [Hdraws _]. vm_compute in Hdraws.
  repeat (apply le_S_n in Hdraws). inversion Hdraws.
Qed.

(** C2, amended.  The loop tests at most [keys.size + 1] candidates: its
    outcome is the first of the first [keys.size + 1] candidates that is
    not live, and "Can't generate more keys" (503) when all of them are
    live.  It calls [randomKey] at most [keys.size + 2] times: at most
    [keys.size + 1] times when it returns a key, and [keys.size + 2] times
    when it fails, the last candidate being discarded untested.  In
    particular, in either variant, when every code of the key space is
    live (two codes of two, say) [generate] answers 503 and leaves the
    state as it was. *)
Theorem allocate_budget cfg rnd has size :
  alloc_outcome (allocate cfg rnd has size) = allocate_spec cfg rnd has size
  ∧ (alloc_draws (allocate cfg rnd has size) ≤ size + 2)%nat
  ∧ (∀ key, alloc_outcome (allocate cfg rnd has size) = AllocKey key →
            (alloc_draws (allocate cfg rnd has size) ≤ size + 1)%nat
            ∧ has key = false)
  ∧ (alloc_outcome (allocate cfg rnd has size) = AllocUnavailable →
     alloc_draws (allocate cfg rnd has size) = (size + 2)%nat)
  ∧ (validConfig cfg → (∀ i, rnd i < choices cfg) →
     (∀ st agent,
        (∀ key, inKeySpace cfg key → is_Some (Mem.keys st !! key)) →
        Mem.generate cfg st agent rnd = (st, Mem.unavailable))
     ∧ (∀ st agent,
          (∀ key, inKeySpace cfg key → is_Some (Oak.keys st !! key)) →
          Oak.generate cfg st agent rnd = (st, Oak.unavailable))).
Proof.
  destruct (allocate_draws cfg rnd has size) as (Hd & Hun & Hk).
  split; [apply allocate_outcome|]. split; [lia|]. split; [|split; [done|]].
  - intros key Hkey. split; [by eapply Hk|by eapply allocate_key_free].
  - intros Hv Hrnd. split; intros st agent Hlive.
    + unfold Mem.generate. rewrite allocate_exhausted; [done|].
      intros i _. apply exhausted_candidates; [done..|].
      intros key Hin. by apply mem_has_true, Hlive.
    + unfold Oak.generate. rewrite allocate_exhausted; [done|].
      intros i _. apply exhausted_candidates; [done..|].
      intros key Hin. unfold Oak.has. by apply bool_decide_eq_true, Hlive.
Qed.

Lemma twoCodes_valid : validConfig twoCodes.
Proof. vm_compute. lia. Qed.

Lemma twoCodes_keys key :
  inKeySpace twoCodes key → key = "A" ∨ key = "B".
Proof.
  intros [Hlen Hin]. destruct key as [|c [|c' key]]; [done| |done].
  destruct (Hin c (or_introl eq_refl)) as [<-|[<-|[]]]; auto.
Qed.

Lemma allocate_budget_witness :
  validConfig twoCodes
  ∧ (∀ i : nat, (λ _ : nat, 0) i < choices twoCodes)
  ∧ (∀ key, inKeySpace twoCodes key → is_Some (Mem.keys memFull !! key))
  ∧ Mem.generate twoCodes memFull "agent" (λ _, 0) = (memFull, Mem.unavailable).
Proof.
  assert (∀ i : nat, (λ _ : nat, 0) i < choices twoCodes) as Hrnd
    by (intros i; vm_compute; reflexivity).
  assert (∀ key, inKeySpace twoCodes key → is_Some (Mem.keys memFull !! key))
    as Hlive.
  { intros key [-> | ->]%twoCodes_keys; vm_compute; eauto. }
  split; [exact twoCodes_valid|]. split; [exact Hrnd|]. split; [exact Hlive|].
  exact (proj1 (proj2 (proj2 (proj2 (proj2
           (allocate_budget twoCodes (λ _, 0) (Mem.has memFull)
              (size (Mem.keys memFull))))))
           twoCodes_valid Hrnd) memFull "agent" Hlive).
Defined.

End Budget.

(** * Rebinding and validation: where the variants fall short *)

Section Defects.

(** The Oak variant removes the file it replaces. *)
Lemma oak_rebind_removes st req uuid key info old f rest :
  Oak.up_body req = Oak.FormDataBody (f :: rest) →
  Js.includes allowedExtensions (Oak.fileExt f) = true →
  Oak.canOpen (Oak.uploadPath uuid f) = true →
  Js.toUpperCase <$> Oak.up_key req = Some key → truthy key = true →
  Oak.keys st !! key = Some info → Oak.file info = Some old →
  truthy (Oak.path old) = true → Oak.path old ≠ Oak.uploadPath uuid f →
  snd (Oak.upload st req uuid) = Oak.uploaded
  ∧ Oak.disk (fst (Oak.upload st req uuid)) !! Oak.path old = None.
Proof.
  intros Hbody Hext Hopen Hkey Ht Hk Hold Hpath Hne.
  unfold Oak.upload, Oak.handleUpload. rewrite Hbody. cbn [head].
  rewrite Hext, Hopen, Hkey, Ht. cbn [Oak.afterWrite Oak.keys]. rewrite Hk.
  cbn. split; [done|]. unfold Oak.removePrevious. rewrite Hold, Hpath.
  apply lookup_delete_eq.
Qed.

(** What the router variant does with a request that passed the checks of
    key and extension: whatever the media type and the size of the file, it
    stores it and binds it, and it leaves every other entry of [files],
    the previous file of the session included, in place. *)
Lemma mem_upload_accepts st key info f ext uuid :
  truthy (Js.toUpperCase key) = true →
  Mem.keys st !! Js.toUpperCase key = Some info →
  Mem.fileExt f = Some ext →
  truthy ext && Js.includes allowedExtensions ext = true →
  Mem.upload st (memForm key f) uuid
  = ({| Mem.keys :=
          <[Js.toUpperCase key :=
              {| Mem.created := Mem.created info; Mem.agent := Mem.agent info;
                 Mem.fileId := Some uuid; Mem.oid := Mem.oid info |}]>
            (Mem.keys st);
        Mem.files :=
          <[uuid := {| Mem.data := f_data f; Mem.name := f_name f;
                       Mem.type := f_type f |}]> (Mem.files st);
        Mem.timers := Mem.timers st;
        Mem.now := Mem.now st;
        Mem.nextOid := Mem.nextOid st |},
     Mem.uploaded).
Proof.
  intros Ht Hk Hext Hok. unfold Mem.upload, memForm. cbn [Mem.fd_key Mem.fd_file].
  cbn [fmap option_fmap option_map Mem.fvToString]. rewrite Ht, Hk, Hext, Hok.
  done.
Qed.

Lemma oak_upload_accepts st key info f uuid :
  truthy (Js.toUpperCase key) = true →
  Oak.keys st !! Js.toUpperCase key = Some info →
  Js.includes allowedExtensions (Oak.fileExt f) = true →
  Oak.canOpen (Oak.uploadPath uuid f) = true →
  Oak.upload st (oakReq (Some key) f) uuid
  = ({| Oak.keys :=
          <[Js.toUpperCase key := Oak.withFile info (Oak.fileInfoOf uuid f)]>
            (Oak.keys st);
        Oak.disk :=
          Oak.removePrevious info
            (Oak.writeFile (Oak.uploadPath uuid f) (f_data f) (Oak.disk st));
        Oak.timers := Oak.timers st;
        Oak.now := Oak.now st;
        Oak.nextOid := Oak.nextOid st |},
     Oak.uploaded).
Proof.
  intros Ht Hk Hext Hopen. unfold Oak.upload, Oak.handleUpload, oakReq.
  cbn [Oak.up_body Oak.up_key head]. rewrite Hext, Hopen.
  cbn [fmap option_fmap option_map]. rewrite Ht.
  cbn [Oak.afterWrite Oak.keys]. by rewrite Hk.
Qed.

(** C1, the failing input.  In the router variant, after [book] and then
    [book2] were uploaded to the key "2GRJ", both with success, the
    download answers with [book2] only, but the entry of [book] is still
    in [files] under its identifier, and it is still there after the
    session has expired: the second upload never deletes the file it
    replaces (the Oak variant does, [oak_rebind_removes]). *)
Theorem mem_rebind_keeps_first_blob :
  snd (Mem.upload mem1 (memForm "2grj" book) "uuid-1") = Mem.uploaded
  ∧ snd (Mem.upload mem2 (memForm "2grj" book2) "uuid-2") = Mem.uploaded
  ∧ Mem.download mem3 "2GRJ"
    = {| status := 200;
         headers := [("Content-Type", Literal "application/pdf");
                     ("Content-Disposition",
                      Literal ("attachment; filename=" +:+ dquote
                               +:+ "book2.pdf" +:+ dquote))];
         body := BodyBytes (f_data book2) |}
  ∧ Mem.files mem3 !! "uuid-1"
    = Some {| Mem.data := f_data book; Mem.name := "book.epub";
              Mem.type := TYPE_EPUB |}
  ∧ Mem.keys (Mem.advance 3600000 mem3) !! "2GRJ" = None
  ∧ Mem.files (Mem.advance 3600000 mem3) !! "uuid-1"
    = Some {| Mem.data := f_data book; Mem.name := "book.epub";
              Mem.type := TYPE_EPUB |}.
Proof. vm_compute. done. Qed.

Lemma oversized_size : f_size oversized = maxFileSize + 1.
Proof.
  unfold f_size, oversized. cbn [f_data].
  by rewrite repeat_length, N2Nat.id.
Qed.

(** C3, the failing input.  [oversized] has the extension [epub], the
    media type [application/x-msdownload], which is not in [allowedTypes],
    and [maxFileSize + 1] bytes.  Both variants answer its upload to a live
    key with success, store it and bind it to the session: [allowedTypes]
    and [maxFileSize] are declared and never consulted. *)
Theorem upload_ignores_type_and_size :
  Js.includes allowedTypes (f_type oversized) = false
  ∧ maxFileSize < f_size oversized
  ∧ snd (Mem.upload mem1 (memForm "2GRJ" oversized) "uuid-3") = Mem.uploaded
  ∧ Mem.files (fst (Mem.upload mem1 (memForm "2GRJ" oversized) "uuid-3"))
      !! "uuid-3"
    = Some {| Mem.data := f_data oversized; Mem.name := "book.epub";
              Mem.type := "application/x-msdownload" |}
  ∧ Mem.fileId <$>
      Mem.keys (fst (Mem.upload mem1 (memForm "2GRJ" oversized) "uuid-3"))
        !! "2GRJ"
    = Some (Some "uuid-3")
  ∧ snd (Oak.upload oak1 (oakReq (Some "2GRJ") oversized) "uuid-3")
    = Oak.uploaded
  ∧ Oak.disk (fst (Oak.upload oak1 (oakReq (Some "2GRJ") oversized) "uuid-3"))
      !! Oak.uploadPath "uuid-3" oversized
    = Some (f_data oversized)
  ∧ Oak.file <$>
      Oak.keys (fst (Oak.upload oak1 (oakReq (Some "2GRJ") oversized) "uuid-3"))
        !! "2GRJ"
    = Some (Some (Oak.fileInfoOf "uuid-3" oversized)).
Proof.
  split; [reflexivity|]. split; [rewrite oversized_size; lia|].
  assert (Mem.keys mem1 !! "2GRJ"
          = Some {| Mem.created := 0; Mem.agent := "agent";
                    Mem.fileId := None; Mem.oid := 0 |}) as Hm
    by (vm_compute; reflexivity).
  assert (Oak.keys oak1 !! "2GRJ"
          = Some {| Oak.created := 0; Oak.agent := "agent";
                    Oak.file := None; Oak.oid := 0 |}) as Ho
    by (vm_compute; reflexivity).
  assert (Oak.disk oak1 = ∅) as Hd by reflexivity.
  rewrite (mem_upload_accepts mem1 "2GRJ" _ oversized "epub" "uuid-3"
             eq_refl Hm eq_refl eq_refl).
  rewrite (oak_upload_accepts oak1 "2GRJ" _ oversized "uuid-3"
             eq_refl Ho eq_refl eq_refl).
  cbn [fst snd Mem.files Mem.keys Oak.disk Oak.keys].
  split; [done|]. split; [apply lookup_insert_eq|].
  split; [by rewrite lookup_insert_eq|]. split; [done|]. split.
  - unfold Oak.removePrevious. cbn [Oak.file].
    apply oak_writeFile_fresh. by rewrite Hd.
  - by rewrite lookup_insert_eq.
Qed.

End Defects.

(** * The theorems on the scenarios *)

Section Witnesses.

Lemma mem3_reachable : Mem.reachable referenceConfig mem3.
Proof.
  unfold Mem.reachable, mem3, mem2, mem1.
  repeat (apply Mem.steps_step); [apply Mem.steps_refl|done..].
Qed.

Lemma oak2_reachable : Oak.reachable referenceConfig oak2.
Proof.
  unfold Oak.reachable, oak2, oak1.
  do 2 apply Oak.steps_step. apply Oak.steps_refl.
Qed.

Lemma mem3_session :
  Mem.keys mem3 !! "2GRJ"
  = Some {| Mem.created := 0; Mem.agent := "agent";
            Mem.fileId := Some "uuid-2"; Mem.oid := 0 |}.
Proof. vm_compute. reflexivity. Qed.

Lemma oak2_session :
  Oak.keys oak2 !! "2GRJ"
  = Some {| Oak.created := 0; Oak.agent := "agent";
            Oak.file := Some (Oak.fileInfoOf "uuid-1" book); Oak.oid := 0 |}.
Proof. vm_compute. reflexivity. Qed.

Lemma session_expires_witness :
  Mem.reachable referenceConfig mem3
  ∧ 0 + ttl ≤ Mem.now mem3 + 3600000
  ∧ Mem.keys (Mem.advance 3600000 mem3) !! "2GRJ" = None
  ∧ Mem.files (Mem.advance 3600000 mem3) !! "uuid-2" = None.
Proof.
  assert (0 + ttl ≤ Mem.now mem3 + 3600000) as Hdue by (vm_compute; discriminate).
  split; [exact mem3_reachable|]. split; [exact Hdue|].
  destruct (proj1 session_expires referenceConfig mem3 "2GRJ" _
              mem3_reachable mem3_session) as [_ Hadv].
  destruct (Hadv 3600000 Hdue) as [Hkeys Hfiles].
  split; [exact Hkeys|]. exact (Hfiles "uuid-2" eq_refl).
Defined.

Lemma download_not_found_witness :
  Mem.keys mem3 !! "ZZZZ" = None
  ∧ Mem.download mem3 "ZZZZ" = Mem.notFound
  ∧ Mem.download mem1 "2GRJ" = Mem.notFound
  ∧ Mem.download (Mem.advance 3600000 mem3) "2GRJ" = Mem.notFound.
Proof.
  assert (Mem.keys mem3 !! "ZZZZ" = None) as Hk by (vm_compute; reflexivity).
  assert (Mem.keys mem1 !! "2GRJ"
          = Some {| Mem.created := 0; Mem.agent := "agent";
                    Mem.fileId := None; Mem.oid := 0 |}) as Hk1
    by (vm_compute; reflexivity).
  assert (0 + ttl ≤ Mem.now mem3 + 3600000) as Hdue by (vm_compute; discriminate).
  destruct download_not_found as (H1 & H2 & H3 & _).
  split; [exact Hk|]. split; [exact (H1 mem3 "ZZZZ" Hk)|].
  split; [exact (H2 mem1 "2GRJ" _ Hk1 eq_refl)|].
  exact (H3 referenceConfig mem3 "2GRJ" _ 3600000
            mem3_reachable mem3_session Hdue).
Defined.

Lemma expiration_guard_witness :
  Mem.fires referenceConfig {| t_due := 3600000; t_key := "2GRJ"; t_oid := 0 |}
            (Mem.beforeCallbacks 3600000 mem3)
  ∧ (∃ info,
        Mem.keys (Mem.beforeCallbacks 3600000 mem3) !! "2GRJ" = Some info
        ∧ Mem.oid info = 0%nat)
  ∧ Oak.expire {| t_due := 3600000; t_key := "2GRJ"; t_oid := 7 |} oak2 = oak2.
Proof.
  assert (Mem.fires referenceConfig
            {| t_due := 3600000; t_key := "2GRJ"; t_oid := 0 |}
            (Mem.beforeCallbacks 3600000 mem3)) as Hfires.
  { exists mem3, 3600000, [], []. split; [exact mem3_reachable|].
    split; [vm_compute; reflexivity|reflexivity]. }
  destruct expiration_guard as (Hoak & _ & Hmem).
  split; [exact Hfires|]. split.
  - destruct (Hmem _ _ _ Hfires) as (info & Hk & Ho & _).
    exists info. split; [exact Hk|exact Ho].
  - apply (proj2 (proj2 (Hoak _ oak2))).
    intros (info & Hk & Ho). cbn [t_key t_oid] in *.
    rewrite oak2_session in Hk. injection Hk as <-. discriminate Ho.
Defined.

Lemma allocate_unique_witness :
  Mem.generate referenceConfig Mem.init "agent" (λ _, 12345)
  = (mem1, keyResponse "2GRJ")
  ∧ Mem.steps referenceConfig mem1 mem3
  ∧ Mem.generate referenceConfig mem3 "agent" (λ _, 0)
    = (Mem.exec referenceConfig mem3 (Mem.EvGenerate "agent" (λ _, 0)),
       keyResponse "2222")
  ∧ "2GRJ" ≠ "2222".
Proof.
  assert (Mem.generate referenceConfig Mem.init "agent" (λ _, 12345)
          = (mem1, keyResponse "2GRJ")) as Hg1 by (vm_compute; reflexivity).
  assert (Mem.steps referenceConfig mem1 mem3) as Hsteps.
  { unfold mem3, mem2.
    apply Mem.steps_step; [apply Mem.steps_step; [apply Mem.steps_refl|]|];
      done. }
  assert (Mem.generate referenceConfig mem3 "agent" (λ _, 0)
          = (Mem.exec referenceConfig mem3 (Mem.EvGenerate "agent" (λ _, 0)),
             keyResponse "2222")) as Hg2 by (vm_compute; reflexivity).
  split; [exact Hg1|]. split; [exact Hsteps|]. split; [exact Hg2|].
  apply (proj1 (proj2 allocate_unique) _ _ _ _ _ _ _ _ _ _ _ Hg1 Hsteps Hg2).
  eexists. split; [vm_compute; reflexivity|reflexivity].
Defined.

Lemma oak2_keys :
  Oak.keys oak2
  = {[ "2GRJ" := {| Oak.created := 0; Oak.agent := "agent";
                    Oak.file := Some (Oak.fileInfoOf "uuid-1" book);
                    Oak.oid := 0 |} ]}.
Proof. vm_compute. reflexivity. Qed.




End Witnesses.

(** * [doTransliterate] *)

Section Transliterate.

Lemma length_append s1 s2 :
  Js.length (s1 +:+ s2) = (Js.length s1 + Js.length s2)%nat.
Proof.
  unfold Js.length. by rewrite <- !length_chars, chars_app, length_app.
Qed.

Lemma dashed_length s : Js.length (dashed s) = Js.length s.
Proof.
  unfold dashed, Js.length. by rewrite length_of_list, length_map, length_chars.
Qed.

Lemma dashed_chars s :
  Forall (λ c, isAlnum c = true ∨ c = "-"%char) (Js.chars (dashed s)).
Proof.
  unfold dashed. rewrite chars_of_list. apply Forall_map, Forall_forall.
  intros c _. cbn. destruct (isAlnum c) eqn:Hc; auto.
Qed.

(** X17. A name without a dot comes back as the extension of an empty name:
    [split] yields the one segment, [splice(-1)] takes it for the
    extension, and nothing is left to transliterate. *)
Theorem doTransliterate_dotless filename :
  lacks "."%char filename → doTransliterate filename = "." +:+ filename.
Proof.
  intros Hno. unfold doTransliterate. by rewrite split_lacks.
Qed.

(** X18. On a name [stem.ext] with an ASCII stem, the extension (the text
    after the last dot) is kept as it is and every character of the stem
    that is not a letter or a digit, its dots included, becomes a dash; the
    length of the name does not change. *)
Theorem doTransliterate_stem_ext stem ext :
  isAscii stem → lacks "."%char ext →
  doTransliterate (stem +:+ "." +:+ ext) = dashed stem +:+ "." +:+ ext
  ∧ Js.length (doTransliterate (stem +:+ "." +:+ ext))
    = Js.length (stem +:+ "." +:+ ext)
  ∧ Forall (λ c, isAlnum c = true ∨ c = "-"%char) (Js.chars (dashed stem)).
Proof.
  intros _ Hno.
  assert (doTransliterate (stem +:+ "." +:+ ext) = dashed stem +:+ "." +:+ ext)
    as Heq.
  { unfold doTransliterate.
    change (stem +:+ "." +:+ ext) with (stem +:+ String "."%char ext).
    rewrite split_snoc by done. rewrite pop_snoc, removelast_last.
    cbn [option_list joinWith].
    change "."%string with (String "."%char EmptyString) at 1.
    by rewrite joinWith_split. }
  split; [exact Heq|]. split; [|apply dashed_chars].
  rewrite Heq, !length_append. by rewrite dashed_length.
Qed.

End Transliterate.

(** * The extension checks *)

Section Extensions.

Lemma toLowerCase_cons c s :
  Js.toLowerCase (String c s) = String (Js.lowerChar c) (Js.toLowerCase s).
Proof. reflexivity. Qed.

Lemma takeWhile_all f l :
  Forall (λ c, f c = true) l → Js.takeWhile f l = l.
Proof. induction 1 as [|c l Hc _ IH]; cbn; [done|]. by rewrite Hc, IH. Qed.

Lemma takeWhile_stop f a x b :
  Forall (λ c, f c = true) a → f x = false →
  Js.takeWhile f (a ++ x :: b) = a.
Proof.
  intros Ha Hx. induction Ha as [|c a Hc _ IH]; cbn.
  - by rewrite Hx.
  - by rewrite Hc, IH.
Qed.

Lemma takeWhile_In f l c : In c (Js.takeWhile f l) → In c l.
Proof.
  induction l as [|d l IH]; cbn; [done|].
  destruct (f d); [|done]. intros [->|H]; [by left|right; by apply IH].
Qed.

Lemma dropWhile_In f l c : In c (Js.dropWhile f l) → In c l.
Proof.
  induction l as [|d l IH]; cbn; [done|].
  destruct (f d); [|done]. intros H. right. by apply IH.
Qed.

Lemma dropWhile_none f l :
  Forall (λ c, f c = false) l → Js.dropWhile f l = l.
Proof. destruct 1 as [|c l Hc _]; cbn; [done|]. by rewrite Hc. Qed.

Lemma baseOf_In p c : In c (Js.baseOf p) → In c p.
Proof.
  unfold Js.baseOf. intros H%in_rev%takeWhile_In%dropWhile_In.
  by apply in_rev.
Qed.

Lemma notChar_true (x : ascii) l :
  ¬ In x l → Forall (λ c, negb (Ascii.eqb c x) = true) l.
Proof.
  intros Hno. apply Forall_forall. intros c Hc%list_elem_of_In.
  apply negb_true_iff, Ascii.eqb_neq. intros ->. by apply Hno.
Qed.

Lemma isChar_false (x : ascii) l :
  ¬ In x l → Forall (λ c, Ascii.eqb c x = false) l.
Proof.
  intros Hno. apply Forall_forall. intros c Hc%list_elem_of_In.
  apply Ascii.eqb_neq. intros ->. by apply Hno.
Qed.

(** A path without a separator is its own last component. *)
Lemma baseOf_plain p : ¬ In "/"%char p → Js.baseOf p = p.
Proof.
  intros Hno. unfold Js.baseOf.
  assert (¬ In "/"%char (rev p)) as Hrev by (by rewrite <- in_rev).
  rewrite dropWhile_none by by apply isChar_false.
  rewrite takeWhile_all by by apply notChar_true.
  apply rev_involutive.
Qed.

Lemma extname_dotless path : lacks "."%char path → Js.extname path = EmptyString.
Proof.
  intros Hno. unfold Js.extname.
  rewrite takeWhile_all.
  - by rewrite length_rev, Nat.eqb_refl.
  - apply notChar_true. intros H%in_rev%baseOf_In. by apply Hno.
Qed.

Lemma extname_stem_ext stem ext :
  stem ≠ EmptyString → ext ≠ EmptyString → lacks "."%char ext →
  lacks "/"%char (stem +:+ "." +:+ ext) →
  Js.extname (stem +:+ "." +:+ ext) = "." +:+ ext.
Proof.
  intros Hstem Hext Hdot Hslash. unfold Js.extname, lacks in *.
  rewrite baseOf_plain by done. rewrite chars_dot.
  rewrite rev_app_distr. cbn [rev]. rewrite <- app_assoc. cbn [app].
  rewrite takeWhile_stop;
    [|apply notChar_true; by rewrite <- in_rev|by rewrite Ascii.eqb_refl].
  rewrite length_rev, length_app. cbn [List.length].
  destruct (Nat.eqb_spec (List.length (Js.chars ext))
              (List.length (Js.chars stem) + S (List.length (Js.chars ext))))
    as [Heq|_]; [lia|].
  replace (List.length (Js.chars stem) + S (List.length (Js.chars ext))
           - List.length (Js.chars ext) - 1)%nat
    with (List.length (Js.chars stem)) by lia.
  destruct (Nat.eqb_spec (List.length (Js.chars stem)) 0) as [H0|_].
  { destruct stem; [done|discriminate]. }
  destruct (String.eqb_spec
              (string_of_list_ascii (Js.chars stem ++ "."%char :: Js.chars ext))
              "..") as [Hdd|_].
  { exfalso. apply (f_equal Js.chars) in Hdd. rewrite chars_of_list in Hdd.
    apply (f_equal (@rev ascii)) in Hdd. rewrite rev_app_distr in Hdd.
    cbn [rev] in Hdd. rewrite <- app_assoc in Hdd.
    destruct (rev (Js.chars ext)) as [|c r] eqn:Hr.
    - apply (f_equal (@List.length ascii)) in Hr. rewrite length_rev in Hr.
      destruct ext; [done|discriminate].
    - cbn in Hdd. injection Hdd as -> _. apply Hdot, in_rev.
      rewrite Hr. by left. }
  rewrite drop_app_length. cbn. by rewrite string_of_list_ascii_of_string.
Qed.

Lemma extname_leading_dot ext :
  lacks "."%char ext → lacks "/"%char ext →
  Js.extname ("." +:+ ext) = EmptyString.
Proof.
  intros Hdot Hslash. unfold Js.extname, lacks in *.
  change ("." +:+ ext) with (String "."%char ext).
  change (Js.chars (String "."%char ext)) with ("."%char :: Js.chars ext).
  rewrite baseOf_plain; [|intros [H|H]; [discriminate|done]].
  cbn [rev].
  rewrite takeWhile_stop;
    [|apply notChar_true; by rewrite <- in_rev|by rewrite Ascii.eqb_refl].
  rewrite length_rev. cbn [List.length].
  destruct (Nat.eqb_spec (List.length (Js.chars ext))
              (S (List.length (Js.chars ext)))) as [Heq|_]; [lia|].
  by replace (S (List.length (Js.chars ext))
              - List.length (Js.chars ext) - 1)%nat with 0%nat by lia.
Qed.

(** X11. The router variant checks the text after the last dot of the file
    name, lowercased, and the whole name when it has no dot: a file named
    [EPUB] passes the check. *)
Theorem mem_fileExt_last_segment f :
  (∀ stem ext,
     f_name f = stem +:+ "." +:+ ext → lacks "."%char ext →
     Mem.fileExt f = Some (Js.toLowerCase ext))
  ∧ (lacks "."%char (f_name f) →
     Mem.fileExt f = Some (Js.toLowerCase (f_name f))).
Proof.
  unfold Mem.fileExt. split.
  - intros stem ext -> Hno.
    change (stem +:+ "." +:+ ext) with (stem +:+ String "."%char ext).
    by rewrite split_snoc, pop_snoc.
  - intros Hno. by rewrite split_lacks.
Qed.

(** X12. The Oak variant checks [extname]: for a name [stem.ext] without
    path separators, with a non-empty stem and extension, the lowercased
    text after the last dot; a name without a dot and a name whose only
    dot is its first character have the empty extension, so they are
    refused with "Invalid file type" before anything is written. *)
Theorem oak_fileExt_extname f :
  (∀ stem ext,
     f_name f = stem +:+ "." +:+ ext →
     stem ≠ EmptyString → ext ≠ EmptyString → lacks "."%char ext →
     lacks "/"%char (f_name f) →
     Oak.fileExt f = Js.toLowerCase ext)
  ∧ ((lacks "."%char (f_name f)
      ∨ ∃ ext, f_name f = "." +:+ ext ∧ lacks "."%char ext ∧ lacks "/"%char ext) →
     Oak.fileExt f = EmptyString
     ∧ ∀ st files key uuid,
         Oak.upload st {| Oak.up_body := Oak.FormDataBody (f :: files);
                          Oak.up_key := key |} uuid
         = (st, Oak.badRequest "Invalid file type")).
Proof.
  split.
  - intros stem ext Hname Hstem Hext Hdot Hslash. unfold Oak.fileExt.
    rewrite Hname in *. rewrite extname_stem_ext by done.
    change ("." +:+ ext) with (String "."%char ext).
    by rewrite toLowerCase_cons.
  - intros Hcase.
    assert (Oak.fileExt f = EmptyString) as Hext.
    { unfold Oak.fileExt. destruct Hcase as [Hno|(ext & -> & Hdot & Hslash)].
      - by rewrite extname_dotless.
      - by rewrite extname_leading_dot. }
    split; [exact Hext|]. intros st files key uuid.
    unfold Oak.upload, Oak.handleUpload. cbn [Oak.up_body head].
    by rewrite Hext.
Qed.

End Extensions.

(** * Timers and sessions of the reachable states *)

Section TimersAndSessions.

Lemma TimersOk_keep sess tms now next key c o dt :
  TimersOk sess tms now next → sess !! key = Some (c, o) →
  now + dt < c + ttl →
  key ∉ t_key <$> List.filter (λ tm, t_due tm <=? now + dt) tms.
Proof.
  intros (_ & Htm & _) Hs Hlt
    (tm & -> & [Hin Hdue]%elem_of_filter_bool)%list_elem_of_fmap.
  destruct (Htm tm Hin) as (_ & c' & Hc' & Hd).
  apply N.leb_le in Hdue. rewrite Hs in Hc'. injection Hc' as <- _. lia.
Qed.

(** X1. In every reachable state of either variant the pending timers and
    the live sessions correspond one to one: each live session has its
    timer, due at [created + ttl] and not yet due, each pending timer
    belongs to the session stored under its key, and no two timers have
    the same key. *)
Theorem timers_match_sessions :
  (∀ cfg st,
     Mem.reachable cfg st →
     NoDup (t_key <$> Mem.timers st)
     ∧ (∀ tm, tm ∈ Mem.timers st →
          Mem.now st < t_due tm
          ∧ ∃ info, Mem.keys st !! t_key tm = Some info
                    ∧ Mem.oid info = t_oid tm
                    ∧ t_due tm = Mem.created info + ttl)
     ∧ (∀ key info,
          Mem.keys st !! key = Some info →
          {| t_due := Mem.created info + ttl; t_key := key;
             t_oid := Mem.oid info |} ∈ Mem.timers st))
  ∧ (∀ cfg st,
       Oak.reachable cfg st →
       NoDup (t_key <$> Oak.timers st)
       ∧ (∀ tm, tm ∈ Oak.timers st →
            Oak.now st < t_due tm
            ∧ ∃ info, Oak.keys st !! t_key tm = Some info
                      ∧ Oak.oid info = t_oid tm
                      ∧ t_due tm = Oak.created info + ttl)
       ∧ (∀ key info,
            Oak.keys st !! key = Some info →
            {| t_due := Oak.created info + ttl; t_key := key;
               t_oid := Oak.oid info |} ∈ Oak.timers st)).
Proof.
  split; intros cfg st Hr.
  - destruct (mem_Inv_reachable cfg st Hr) as [(Hnd & Htm & Hsess) _].
    split; [done|]. split.
    + intros tm Hin. destruct (Htm tm Hin) as (Hdue & c & Hc & Hd).
      split; [done|]. unfold Mem.sessions in Hc.
      apply lookup_fmap_Some in Hc as (info & [= <- Ho] & Hk). eauto.
    + intros key info Hk.
      by destruct (Hsess _ _ _ (mem_sessions_lookup _ _ _ Hk)).
  - destruct (oak_Inv_reachable cfg st Hr) as [(Hnd & Htm & Hsess) _].
    split; [done|]. split.
    + intros tm Hin. destruct (Htm tm Hin) as (Hdue & c & Hc & Hd).
      split; [done|]. unfold Oak.sessions in Hc.
      apply lookup_fmap_Some in Hc as (info & [= <- Ho] & Hk). eauto.
    + intros key info Hk.
      by destruct (Hsess _ _ _ (oak_sessions_lookup _ _ _ Hk)).
Qed.

(** The callbacks of other sessions leave alone the file of a session
    that no other session refers to. *)
Lemma oak_callbacks_disk_keep L : ∀ st key info f,
  Oak.keys st !! key = Some info → Oak.file info = Some f →
  (∀ key' info' f',
     key' ≠ key → Oak.keys st !! key' = Some info' →
     Oak.file info' = Some f' → Oak.path f' ≠ Oak.path f) →
  key ∉ t_key <$> L →
  Oak.disk (foldl (λ s tm, Oak.expire tm s) st L) !! Oak.path f
  = Oak.disk st !! Oak.path f.
Proof.
  induction L as [|tm L IH]; intros st key info f Hk Hf Hexcl Hnot; [done|].
  cbn [foldl]. rewrite fmap_cons in Hnot.
  apply not_elem_of_cons in Hnot as [Hne Hnot].
  rewrite (IH (Oak.expire tm st) key info f);
    [|by rewrite oak_expire_keys_other|done| |done].
  - unfold Oak.expire.
    destruct (Oak.keys st !! t_key tm) as [info'|] eqn:Hk'; [|done].
    case_bool_decide; [|done]. cbn.
    destruct (Oak.file info') as [f'|] eqn:Hf'; [|done].
    destruct (truthy (Oak.path f')); [|done].
    apply lookup_delete_ne. by apply (Hexcl (t_key tm) info' f').
  - intros key' info' f' Hne' Hk'. apply (Hexcl key' info' f' Hne').
    by eapply oak_expire_keys_Some.
Qed.

(** X2. No early eviction.  In either variant a live session of a reachable
    state is still stored, unchanged, under its key after the clock has
    advanced to a time before its expiry; in the Oak variant its file on
    disk is as it was, provided no other session refers to the same
    path. *)
Theorem session_survives :
  (∀ cfg st key info dt,
     Mem.reachable cfg st → Mem.keys st !! key = Some info →
     Mem.now st + dt < Mem.created info + ttl →
     Mem.keys (Mem.advance dt st) !! key = Some info)
  ∧ (∀ cfg st key info dt,
       Oak.reachable cfg st → Oak.keys st !! key = Some info →
       Oak.now st + dt < Oak.created info + ttl →
       Oak.keys (Oak.advance dt st) !! key = Some info
       ∧ ∀ f, Oak.file info = Some f →
              (∀ key' info' f',
                 key' ≠ key → Oak.keys st !! key' = Some info' →
                 Oak.file info' = Some f' → Oak.path f' ≠ Oak.path f) →
              Oak.disk (Oak.advance dt st) !! Oak.path f
              = Oak.disk st !! Oak.path f).
Proof.
  split; intros cfg st key info dt Hr Hk Hlt.
  - destruct (mem_Inv_reachable cfg st Hr) as [Htm _].
    pose proof (TimersOk_keep _ _ _ _ _ _ _ dt Htm
                  (mem_sessions_lookup _ _ _ Hk) Hlt) as Hnot.
    rewrite mem_advance_keys, lookup_deleteKeys. by rewrite decide_False.
  - destruct (oak_Inv_reachable cfg st Hr) as [Htm _].
    pose proof (TimersOk_keep _ _ _ _ _ _ _ dt Htm
                  (oak_sessions_lookup _ _ _ Hk) Hlt) as Hnot.
    split.
    + rewrite oak_advance_keys, lookup_deleteKeys by done.
      by rewrite decide_False.
    + intros f Hf Hexcl. unfold Oak.advance.
      by rewrite (oak_callbacks_disk_keep _ _ key info f).
Qed.

End TimersAndSessions.

(** * Uploads *)

Section Uploads.

(** The file response of [GET /api/download/:key]. *)
Lemma mem_download_bound st key info id stored :
  truthy key = true → Mem.keys st !! key = Some info →
  Mem.fileId info = Some id → truthy id = true →
  Mem.files st !! id = Some stored →
  Mem.download st key
  = {| status := 200;
       headers := [("Content-Type", Literal (Mem.type stored));
                   ("Content-Disposition",
                    Literal ("attachment; filename=" +:+ dquote
                             +:+ Mem.name stored +:+ dquote))];
       body := BodyBytes (Mem.data stored) |}.
Proof.
  intros Hkey Hk Hid Ht Hfile. unfold Mem.download.
  rewrite Hkey. cbn [negb]. by rewrite Hk, Hid, Ht, Hfile.
Qed.

(** The handler that resumes in the state in which it suspended. *)
Lemma mem_upload_halves st req uuid :
  Mem.upload st req uuid
  = match Mem.suspend st req with
    | inl message => (st, Mem.badRequest message)
    | inr p => (Mem.resume st p uuid, Mem.uploaded)
    end.
Proof.
  unfold Mem.upload, Mem.suspend. destruct req as [|message|fd]; [done..|].
  destruct (Js.toUpperCase <$> _) as [key|]; [|done].
  destruct (truthy key) eqn:Ht; [|done].
  destruct (Mem.keys st !! key) as [info|] eqn:Hk; [|done].
  destruct (Mem.fd_file fd) as [[x|file]|]; [done| |done].
  destruct (Mem.fileExt file) as [ext|]; [|done].
  destruct (truthy ext && _); [|done].
  unfold Mem.resume, Mem.blobOf. cbn [Mem.pd_key Mem.pd_oid Mem.pd_file].
  by rewrite Hk, bool_decide_eq_true_2.
Qed.

(** What the handler holds when it suspends: a non-empty key and the
    session stored under it. *)
Lemma mem_suspend_ok st req p :
  Mem.suspend st req = inr p →
  truthy (Mem.pd_key p) = true
  ∧ ∃ info, Mem.keys st !! Mem.pd_key p = Some info
            ∧ Mem.oid info = Mem.pd_oid p.
Proof.
  unfold Mem.suspend. destruct req as [|message|fd]; [done..|].
  destruct (Js.toUpperCase <$> _) as [key|]; [|done].
  destruct (truthy key) eqn:Ht; [|done].
  destruct (Mem.keys st !! key) as [info|] eqn:Hk; [|done].
  destruct (Mem.fd_file fd) as [[x|file]|]; [done| |done].
  destruct (Mem.fileExt file) as [ext|]; [|done].
  destruct (truthy ext && _); [|done].
  intros [= <-]. cbn. eauto.
Qed.

(** X4. A refused upload of the router variant changes nothing.  Every
    answer of [POST /api/upload] has status 200 or 400 (an unknown key
    included), and with any status but 200 the state after the request is
    the state before it: nothing is stored, nothing is bound. *)
Theorem mem_refused_upload_unchanged st req uuid :
  (status (snd (Mem.upload st req uuid)) = 200
   ∨ status (snd (Mem.upload st req uuid)) = 400)
  ∧ (status (snd (Mem.upload st req uuid)) ≠ 200 →
     fst (Mem.upload st req uuid) = st).
Proof.
  destruct (mem_upload_cases st req uuid)
    as [(key & info & file & _ & ->)|(message & ->)]; cbn.
  - split; [by left|done].
  - split; [by right|done].
Qed.

(** X5. Round trip of the router variant, across the [await] of the upload.
    Take a request that passed every check in the state [st] in which the
    handler suspended, and any state [st'] in which it resumes.  The file
    is stored under the new identifier.  If the session the handler read
    is still stored under the key, it is bound to the file, and the
    download of the key answers 200 with exactly the bytes, the declared
    type and the name of the file (a name and a type that can be written
    to a header).  If the key is no longer live, the upload has answered
    with success all the same and the download of the key is a 404. *)
Theorem mem_upload_then_download st req p uuid st' :
  Mem.suspend st req = inr p → truthy uuid = true →
  nameSafe (f_name (Mem.pd_file p)) → typeSafe (f_type (Mem.pd_file p)) →
  Mem.upload st req uuid = (Mem.resume st p uuid, Mem.uploaded)
  ∧ Mem.files (Mem.resume st' p uuid) !! uuid
    = Some (Mem.blobOf (Mem.pd_file p))
  ∧ (∀ info,
       Mem.keys st' !! Mem.pd_key p = Some info →
       Mem.oid info = Mem.pd_oid p →
       Mem.download (Mem.resume st' p uuid) (Mem.pd_key p)
       = {| status := 200;
            headers := [("Content-Type", Literal (f_type (Mem.pd_file p)));
                        ("Content-Disposition",
                         Literal ("attachment; filename=" +:+ dquote
                                  +:+ f_name (Mem.pd_file p) +:+ dquote))];
            body := BodyBytes (f_data (Mem.pd_file p)) |})
  ∧ (Mem.keys st' !! Mem.pd_key p = None →
     Mem.keys (Mem.resume st' p uuid) = Mem.keys st'
     ∧ Mem.download (Mem.resume st' p uuid) (Mem.pd_key p) = Mem.notFound).
Proof.
  intros Hs Hu _ _. destruct (mem_suspend_ok st req p Hs) as [Ht _].
  split; [by rewrite mem_upload_halves, Hs|].
  split; [cbn; apply lookup_insert_eq|]. split.
  - intros info Hk Ho.
    rewrite (mem_download_bound _ (Mem.pd_key p)
               {| Mem.created := Mem.created info; Mem.agent := Mem.agent info;
                  Mem.fileId := Some uuid; Mem.oid := Mem.oid info |} uuid
               (Mem.blobOf (Mem.pd_file p))); [done|done|..].
    + cbn. rewrite Hk, bool_decide_eq_true_2 by done. apply lookup_insert_eq.
    + done.
    + done.
    + cbn. apply lookup_insert_eq.
  - intros Hk.
    assert (Mem.keys (Mem.resume st' p uuid) = Mem.keys st') as Hkeys
      by (cbn; by rewrite Hk).
    split; [exact Hkeys|]. apply mem_download_unknown. by rewrite Hkeys.
Qed.

(** X3. An upload never changes who is live or for how long.  In either
    variant, whatever the request and its answer, the keys of the live
    sessions with their creation times and identities, the pending timers
    and the clock are the same after the upload as before. *)
Theorem upload_keeps_lifetimes :
  (∀ st req uuid,
     Mem.sessions (fst (Mem.upload st req uuid)) = Mem.sessions st
     ∧ Mem.timers (fst (Mem.upload st req uuid)) = Mem.timers st
     ∧ Mem.now (fst (Mem.upload st req uuid)) = Mem.now st)
  ∧ (∀ st req uuid,
       Oak.sessions (fst (Oak.upload st req uuid)) = Oak.sessions st
       ∧ Oak.timers (fst (Oak.upload st req uuid)) = Oak.timers st
       ∧ Oak.now (fst (Oak.upload st req uuid)) = Oak.now st).
Proof.
  split; intros st req uuid.
  - destruct (mem_upload_cases st req uuid)
      as [(key & info & file & Hk & ->)|(message & ->)]; [|done].
    split; [|done]. unfold Mem.sessions. cbn. rewrite fmap_insert. cbn.
    apply insert_id. by apply mem_sessions_lookup.
  - destruct (oak_upload_cases st req uuid)
      as [(message & ->)
         |(f & rest & _ & _ & _ & [[_ ->]|(key & info & _ & Hk & ->)])];
      [done..|].
    split; [|done]. unfold Oak.sessions. cbn. rewrite fmap_insert. cbn.
    apply insert_id. by apply oak_sessions_lookup.
Qed.

(** X6. The router variant never removes a file on upload, and its
    expiration callback removes at most the file currently bound to the
    session stored under its key. *)
Theorem mem_files_only_removed_on_expiry :
  (∀ st req uuid id stored,
     Mem.files st !! id = Some stored → id ≠ uuid →
     Mem.files (fst (Mem.upload st req uuid)) !! id = Some stored)
  ∧ (∀ tm st id,
       is_Some (Mem.files st !! id) →
       Mem.files (Mem.expire tm st) !! id = None →
       ∃ info, Mem.keys st !! t_key tm = Some info
               ∧ Mem.fileId info = Some id).
Proof.
  split.
  - intros st req uuid id stored Hid Hne.
    destruct (mem_upload_cases st req uuid)
      as [(key & info & file & _ & ->)|(message & ->)]; [|done].
    cbn. by rewrite lookup_insert_ne.
  - intros tm st id [stored Hid]. unfold Mem.expire.
    destruct (Mem.keys st !! t_key tm) as [info|] eqn:Hk; [|congruence].
    cbn. destruct (Mem.fileId info) as [id'|] eqn:Hf; [|congruence].
    destruct (truthy id' && _); [|congruence].
    intros [->|?]%lookup_delete_None; [eauto|congruence].
Qed.

End Uploads.

(** * Uploads and downloads of the Oak variant *)

Section OakUploads.

(** X8. The download route of the Oak variant never delivers a file.  The
    handler copies the file into a response body it never assigned: every
    answer has status 404 or 500, none carries bytes, and the download of
    a live key whose file is on disk and not empty is the status 500 of
    the failed copy. *)
Theorem oak_download_never_serves :
  (∀ st key,
     (status (Oak.download st key) = 404 ∨ status (Oak.download st key) = 500)
     ∧ ∀ bytes, body (Oak.download st key) ≠ BodyBytes bytes)
  ∧ (∀ st key info f x bytes,
       truthy key = true → Oak.keys st !! key = Some info →
       Oak.file info = Some f →
       Oak.disk st !! Oak.path f = Some (x :: bytes) →
       status (Oak.download st (Some key)) = 500).
Proof.
  split.
  - intros st key. unfold Oak.download.
    destruct key as [key|]; [|by split; [left|]].
    destruct (if truthy key then _ else _) as [info|]; [|by split; [left|]].
    destruct (Oak.file info) as [f|]; [|by split; [left|]].
    destruct (Oak.disk st !! Oak.path f) as [[|x bytes]|]; cbn;
      by split; [(by left) || (by right)|].
  - intros st key info f x bytes Hkey Hk Hf Hb. unfold Oak.download.
    by rewrite Hkey, Hk, Hf, Hb.
Qed.


(** X10. A refused upload of the Oak variant touches no session and no file
    but the one at its own upload path, the normalised path [join]
    returned: with any status but 200 the [keys] map is as before and
    every other path of the disk holds what it held. *)
Theorem oak_refused_upload_frame st req uuid :
  status (snd (Oak.upload st req uuid)) ≠ 200 →
  Oak.keys (fst (Oak.upload st req uuid)) = Oak.keys st
  ∧ ∀ p, (∀ f rest, Oak.up_body req = Oak.FormDataBody (f :: rest) →
                    p ≠ Oak.uploadPath uuid f) →
         Oak.disk (fst (Oak.upload st req uuid)) !! p = Oak.disk st !! p.
Proof.
  destruct (oak_upload_cases st req uuid)
    as [(message & ->)
       |(f & rest & Hbody & _ & _ & [[_ ->]|(key & info & _ & _ & ->)])];
    cbn; intros Hstatus; [done| |done].
  split; [done|]. intros p Hp.
  rewrite oak_writeFile_lookup, decide_False; [done|].
  intros Heq. by apply (Hp f rest).
Qed.

(** X19. The identifier does not keep the paths of the uploads apart.  For
    a file named [dir/../name], [join] drops the component [<uuid>-dir]
    together with the [..]: whatever the identifier, the file is saved as
    [uploads/name].  When such an upload is refused for its key, the file
    at [uploads/name] has been written over all the same. *)
Theorem oak_upload_path_traversal uuid dir name f :
  f_name f = dir +:+ "/../" +:+ name →
  Oak.component (uuid +:+ "-" +:+ dir) → Oak.component name →
  Oak.uploadPath uuid f = "uploads/" +:+ name
  ∧ Oak.canOpen (Oak.uploadPath uuid f) = true
  ∧ ∀ st req rest,
      Oak.up_body req = Oak.FormDataBody (f :: rest) →
      Js.includes allowedExtensions (Oak.fileExt f) = true →
      Oak.asciiKey req → Oak.keyInvalid st req →
      snd (Oak.upload st req uuid) = Oak.badRequest "Invalid key"
      ∧ Oak.disk (fst (Oak.upload st req uuid)) !! ("uploads/" +:+ name)
        = Some (f_data f
                ++ drop (List.length (f_data f))
                        (default [] (Oak.disk st !! ("uploads/" +:+ name)))).
Proof.
  intros Hname Hdir Hcomp.
  assert (Oak.uploadPath uuid f = "uploads/" +:+ name) as Hpath.
  { unfold Oak.uploadPath. rewrite Hname.
    replace (uuid +:+ "-" +:+ dir +:+ "/../" +:+ name)
      with ((uuid +:+ "-" +:+ dir) +:+ "/../" +:+ name)
      by (by rewrite !append_assoc).
    by apply joinPath_dotdot_name. }
  assert (Oak.canOpen (Oak.uploadPath uuid f) = true) as Hopen.
  { rewrite Hpath. destruct Hcomp. by apply canOpen_uploads. }
  split; [exact Hpath|]. split; [exact Hopen|].
  intros st req rest Hbody Hext _ Hkey.
  rewrite (oak_upload_keyInvalid st req uuid f rest Hbody Hext Hopen Hkey).
  split; [done|]. cbn [fst Oak.afterWrite Oak.disk].
  by rewrite Hpath, oak_writeFile_lookup, decide_True.
Qed.

(** X20. A file name with a directory component is refused.  For a file
    named [dir/name] the path is [uploads/<uuid>-dir/name]; the server
    never creates a directory under [uploads/], so [Deno.open] raises, and
    the upload is answered with status 400 and changes nothing, whatever
    its key. *)
Theorem oak_upload_nested_refused st req uuid dir name f rest :
  Oak.up_body req = Oak.FormDataBody (f :: rest) →
  f_name f = dir +:+ "/" +:+ name →
  Oak.component (uuid +:+ "-" +:+ dir) → Oak.component name →
  Oak.uploadPath uuid f
  = "uploads/" +:+ uuid +:+ "-" +:+ dir +:+ "/" +:+ name
  ∧ status (snd (Oak.upload st req uuid)) = 400
  ∧ fst (Oak.upload st req uuid) = st.
Proof.
  intros Hbody Hname Hdir Hcomp.
  assert (Oak.uploadPath uuid f
          = "uploads/" +:+ (uuid +:+ "-" +:+ dir) +:+ "/" +:+ name) as Hpath.
  { unfold Oak.uploadPath. rewrite Hname.
    replace (uuid +:+ "-" +:+ dir +:+ "/" +:+ name)
      with ((uuid +:+ "-" +:+ dir) +:+ "/" +:+ name)
      by (by rewrite !append_assoc).
    by apply joinPath_nested_name. }
  split; [by rewrite Hpath, !append_assoc|].
  destruct (oak_upload_cases st req uuid)
    as [(message & ->)|(f' & rest' & Hbody' & _ & Hopen & _)]; [done|].
  rewrite Hbody in Hbody'. injection Hbody' as <- <-.
  rewrite Hpath, canOpen_nested_name in Hopen; done.
Qed.

End OakUploads.

(** * The keys of the live sessions *)

Section LiveKeys.

Lemma upperChar_idem c : Js.upperChar (Js.upperChar c) = Js.upperChar c.
Proof. destruct c as [[] [] [] [] [] [] [] []]; reflexivity. Qed.

Lemma upperChar_lowerChar c :
  Js.upperChar c = c → Js.upperChar (Js.lowerChar c) = c.
Proof. destruct c as [[] [] [] [] [] [] [] []]; intros H; done. Qed.

Lemma toUpperCase_idem s : Js.toUpperCase (Js.toUpperCase s) = Js.toUpperCase s.
Proof.
  unfold Js.toUpperCase. rewrite chars_of_list, map_map. f_equal.
  apply map_ext. intros c. apply upperChar_idem.
Qed.

Lemma toUpperCase_stable s :
  Forall (λ c, Js.upperChar c = c) (Js.chars s) → Js.toUpperCase s = s.
Proof.
  intros H. unfold Js.toUpperCase.
  rewrite <- (string_of_list_ascii_of_string s) at 2. f_equal.
  fold (Js.chars s). induction H as [|c l Hc _ IH]; cbn; [done|].
  by rewrite Hc, IH.
Qed.

Lemma toUpperCase_toLowerCase s :
  Forall (λ c, Js.upperChar c = c) (Js.chars s) →
  Js.toUpperCase (Js.toLowerCase s) = s.
Proof.
  intros H. unfold Js.toUpperCase, Js.toLowerCase.
  rewrite chars_of_list, map_map.
  rewrite <- (string_of_list_ascii_of_string s) at 2. f_equal.
  fold (Js.chars s). induction H as [|c l Hc _ IH]; cbn; [done|].
  by rewrite upperChar_lowerChar, IH.
Qed.

Lemma over_upperStable cfg s :
  upperStable cfg →
  Forall (λ c, In c (Js.chars (kc_chars cfg))) (Js.chars s) →
  Forall (λ c, Js.upperChar c = c) (Js.chars s).
Proof.
  intros Hup Hs. eapply Forall_impl; [exact Hs|].
  intros c Hc. cbn in Hc. unfold upperStable in Hup.
  rewrite Forall_forall in Hup. by apply Hup, list_elem_of_In.
Qed.

(** A key [randomKey] returns is a non-empty string over the alphabet. *)
Lemma randomKey_over cfg rnd key :
  validConfig cfg → randomKey cfg rnd = Some key →
  truthy key = true
  ∧ Forall (λ c, In c (Js.chars (kc_chars cfg))) (Js.chars key).
Proof.
  intros Hv. rewrite (randomKey_digits cfg Hv). intros [= <-]. split.
  - unfold keyDigits. cbn [Js.toDigits].
    destruct (rnd <? _); destruct (repeat _ _); try done;
      by destruct (Js.toDigits _ _ _).
  - rewrite chars_of_list. apply Forall_map.
    eapply Forall_impl; [apply (keyDigits_bounded cfg Hv)|].
    intros d Hd. by apply pick_in.
Qed.

(** A key the loop returns is one of its candidates. *)
Lemma allocate_key_candidate cfg rnd has size key :
  alloc_outcome (allocate cfg rnd has size) = AllocKey key →
  ∃ i, randomKey cfg (rnd i) = Some key.
Proof.
  rewrite allocate_outcome. unfold allocate_spec, firstFree.
  destruct (List.find _ _) as [[k|]|] eqn:Hfind; [|done..].
  intros [= ->]. apply find_some in Hfind as [Hin _].
  apply in_map_iff in Hin as (i & Hi & _). eauto.
Qed.

Lemma mem_generate_key cfg st agent rnd st' key :
  Mem.generate cfg st agent rnd = (st', keyResponse key) →
  alloc_outcome (allocate cfg rnd (Mem.has st) (size (Mem.keys st)))
  = AllocKey key.
Proof.
  unfold Mem.generate. destruct (alloc_outcome _); [|done..].
  by intros [= _ ->].
Qed.

Lemma oak_generate_key cfg st agent rnd st' key :
  Oak.generate cfg st agent rnd = (st', keyResponse key) →
  alloc_outcome (allocate cfg rnd (Oak.has st) (size (Oak.keys st)))
  = AllocKey key.
Proof.
  unfold Oak.generate. destruct (alloc_outcome _); [|done..].
  by intros [= _ ->].
Qed.

Lemma KeysOver_empty {A} cfg : KeysOver cfg (∅ : gmap string A).
Proof. intros key [x Hx]. by rewrite lookup_empty in Hx. Qed.

Lemma KeysOver_insert {A} cfg (m : gmap string A) key x :
  truthy key = true →
  Forall (λ c, In c (Js.chars (kc_chars cfg))) (Js.chars key) →
  KeysOver cfg m → KeysOver cfg (<[key := x]> m).
Proof.
  intros Ht Hover Hm key'. rewrite lookup_insert. case_decide as Hk.
  - by subst key'.
  - apply Hm.
Qed.

Lemma KeysOver_insert_live {A} cfg (m : gmap string A) key x :
  is_Some (m !! key) → KeysOver cfg m → KeysOver cfg (<[key := x]> m).
Proof.
  intros Hlive Hm. destruct (Hm key Hlive). by apply KeysOver_insert.
Qed.

Lemma KeysOver_deleteKeys {A} cfg L (m : gmap string A) :
  KeysOver cfg m → KeysOver cfg (deleteKeys L m).
Proof.
  intros Hm key. rewrite lookup_deleteKeys. case_decide.
  - by intros [x Hx].
  - apply Hm.
Qed.

Lemma mem_KeysOver_reachable cfg st :
  validConfig cfg → Mem.reachable cfg st → KeysOver cfg (Mem.keys st).
Proof.
  intros Hv Hr. unfold Mem.reachable in Hr.
  remember Mem.init as st0 eqn:Hst0.
  induction Hr as [st|st st' ev Hsteps IH Hadm].
  - subst st. apply KeysOver_empty.
  - specialize (IH Hst0).
    destruct ev as [agent rnd|req uuid|key|dt]; cbn [Mem.exec].
    + destruct (mem_generate_cases cfg st' agent rnd)
        as [(key & _ & Heq)|(resp' & Heq & _)]; rewrite Heq; [|done].
      apply mem_generate_key, allocate_key_candidate in Heq as (i & Hi).
      destruct (randomKey_over cfg _ _ Hv Hi). cbn. by apply KeysOver_insert.
    + destruct (mem_upload_cases st' req uuid)
        as [(key & info & file & Hk & ->)|(message & ->)]; [|done].
      cbn. apply KeysOver_insert_live; [by rewrite Hk|done].
    + done.
    + rewrite mem_advance_keys. by apply KeysOver_deleteKeys.
Qed.

Lemma oak_KeysOver_reachable cfg st :
  validConfig cfg → Oak.reachable cfg st → KeysOver cfg (Oak.keys st).
Proof.
  intros Hv Hr. pose proof (oak_Inv_reachable cfg st Hr) as Hinv.
  unfold Oak.reachable in Hr.
  remember Oak.init as st0 eqn:Hst0.
  induction Hr as [st|st st' ev Hsteps IH].
  - subst st. apply KeysOver_empty.
  - assert (Oak.Inv st') as Hinv'.
    { subst st. eapply oak_Inv_steps; [exact Hsteps|apply oak_Inv_init]. }
    specialize (IH Hst0 Hinv').
    destruct ev as [agent rnd|req uuid|key|dt]; cbn [Oak.exec].
    + destruct (oak_generate_cases cfg st' agent rnd)
        as [(key & _ & Heq)|(resp' & Heq & _)]; rewrite Heq; [|done].
      apply oak_generate_key, allocate_key_candidate in Heq as (i & Hi).
      destruct (randomKey_over cfg _ _ Hv Hi). cbn. by apply KeysOver_insert.
    + destruct (oak_upload_cases st' req uuid)
        as [(message & ->)
           |(f & rest & _ & _ & _ & [[_ ->]|(key & info & _ & Hk & ->)])];
        [done..|].
      cbn. apply KeysOver_insert_live; [by rewrite Hk|done].
    + done.
    + destruct Hinv' as [Htm _]. rewrite oak_advance_keys by done.
      by apply KeysOver_deleteKeys.
Qed.

End LiveKeys.

Section LiveKeyTheorems.

(** X13. In every reachable state of either variant, for a valid
    configuration, every live key is a non-empty string of characters of
    the alphabet. *)
Theorem live_keys_over_alphabet cfg :
  validConfig cfg →
  (∀ st, Mem.reachable cfg st → KeysOver cfg (Mem.keys st))
  ∧ (∀ st, Oak.reachable cfg st → KeysOver cfg (Oak.keys st)).
Proof.
  intros Hv. split; intros st Hr.
  - by apply mem_KeysOver_reachable.
  - by apply oak_KeysOver_reachable.
Qed.

Lemma not_live_lowercase {A} cfg (m : gmap string A) key :
  upperStable cfg → KeysOver cfg m →
  Js.toUpperCase key ≠ key → m !! key = None.
Proof.
  intros Hup Hm Hne. destruct (m !! key) as [x|] eqn:Hk; [|done].
  exfalso. apply Hne, toUpperCase_stable.
  destruct (Hm key ltac:(by rewrite Hk)) as [_ Hover].
  by eapply over_upperStable.
Qed.

(** X14. The key of an upload is matched whatever its letter case (both
    handlers upper-case it), but the key of a download is matched as it
    is: for an alphabet without lower-case letters, such as the reference
    one, the download of a key that [toUpperCase] changes is a 404 in
    every reachable state. *)
Theorem key_case cfg :
  validConfig cfg → upperStable cfg →
  (∀ st key f uuid,
     Mem.upload st (memForm key f) uuid
     = Mem.upload st (memForm (Js.toUpperCase key) f) uuid)
  ∧ (∀ st key f uuid,
       Oak.upload st (oakReq (Some key) f) uuid
       = Oak.upload st (oakReq (Some (Js.toUpperCase key)) f) uuid)
  ∧ (∀ st key, Mem.reachable cfg st → Js.toUpperCase key ≠ key →
               Mem.download st key = Mem.notFound)
  ∧ (∀ st key, Oak.reachable cfg st → Js.toUpperCase key ≠ key →
               Oak.download st (Some key) = Oak.notFound).
Proof.
  intros Hv Hup. split; [|split; [|split]].
  - intros st key f uuid. unfold Mem.upload, memForm.
    cbn [Mem.fd_key fmap option_fmap option_map Mem.fvToString].
    by rewrite toUpperCase_idem.
  - intros st key f uuid. unfold Oak.upload, oakReq.
    cbn [Oak.up_key fmap option_fmap option_map].
    by rewrite toUpperCase_idem.
  - intros st key Hr Hne. apply mem_download_unknown.
    eapply not_live_lowercase; [done| |done].
    by apply mem_KeysOver_reachable.
  - intros st key Hr Hne. apply oak_download_unknown.
    eapply not_live_lowercase; [done| |done].
    by apply oak_KeysOver_reachable.
Qed.

(** X15. Allocate, then bind, in the router variant.  For a valid
    configuration whose alphabet is made of ASCII characters other than
    lower-case letters, the key a successful [generate] returned is live,
    and in every state in which it is live the upload that sends it back,
    as it is or in lower case, with a file whose extension is allowed
    answers with success and stores the file under the new identifier. *)
Theorem generate_then_upload cfg st agent rnd st1 key file ext key' :
  validConfig cfg → isAscii (kc_chars cfg) → upperStable cfg →
  Mem.generate cfg st agent rnd = (st1, keyResponse key) →
  Mem.fileExt file = Some ext →
  truthy ext && Js.includes allowedExtensions ext = true →
  key' = key ∨ key' = Js.toLowerCase key →
  is_Some (Mem.keys st1 !! key)
  ∧ ∀ st2 uuid,
      is_Some (Mem.keys st2 !! key) →
      snd (Mem.upload st2 (memForm key' file) uuid) = Mem.uploaded
      ∧ Mem.files (fst (Mem.upload st2 (memForm key' file) uuid)) !! uuid
        = Some (Mem.blobOf file).
Proof.
  intros Hv _ Hup Hg Hext Hok Hkey'.
  destruct (mem_generate_ok _ _ _ _ _ _ Hg) as (_ & (info & Hk & _) & _).
  apply mem_generate_key, allocate_key_candidate in Hg as (i & Hi).
  destruct (randomKey_over cfg _ _ Hv Hi) as [Ht Hover].
  pose proof (over_upperStable cfg key Hup Hover) as Hstable.
  assert (Js.toUpperCase key' = key) as Hupper.
  { destruct Hkey' as [-> | ->];
      [by apply toUpperCase_stable|by apply toUpperCase_toLowerCase]. }
  split; [by rewrite Hk|]. intros st2 uuid [info2 Hk2].
  rewrite (mem_upload_accepts st2 key' info2 file ext uuid);
    [|by rewrite Hupper..|done|done].
  cbn [fst snd Mem.files]. split; [done|]. apply lookup_insert_eq.
Qed.

(** X16. An alphabet of fewer than 2 or more than 36 characters is no radix
    of [toString]: [randomKey] raises on every draw, and [generate] of
    either variant returns no key and leaves the state as it was. *)
Theorem generate_bad_alphabet cfg :
  (Js.length (kc_chars cfg) < 2 ∨ 36 < Js.length (kc_chars cfg))%nat →
  (∀ rnd, randomKey cfg rnd = None)
  ∧ (∀ st agent rnd, Mem.generate cfg st agent rnd = (st, Mem.serverError))
  ∧ (∀ st agent rnd, Oak.generate cfg st agent rnd = (st, Oak.serverError)).
Proof.
  intros Hlen.
  assert (radixOk cfg = false) as Hbad.
  { unfold radixOk. apply andb_false_iff.
    destruct Hlen; [left; apply N.leb_gt|right; apply N.leb_gt]; lia. }
  assert (∀ rnd has size,
            alloc_outcome (allocate cfg rnd has size) = AllocThrew) as Hthrew.
  { intros rnd has size. unfold allocate.
    replace (size + 2)%nat with (S (size + 1)) by lia. cbn [generateLoop].
    by rewrite randomKey_radixBad. }
  split; [intros rnd; by apply randomKey_radixBad|].
  split; intros st agent rnd.
  - unfold Mem.generate. by rewrite Hthrew.
  - unfold Oak.generate. by rewrite Hthrew.
Qed.

End LiveKeyTheorems.

(** * The further properties on the scenarios *)

Section FurtherWitnesses.

Local Ltac lacks_char :=
  let H := fresh in unfold lacks; cbn; intros H; intuition discriminate.

Example doTransliterate_dots : doTransliterate "my.book.epub" = "my-book.epub".
Proof. reflexivity. Qed.

Lemma upperStable_reference : upperStable referenceConfig.
Proof. unfold upperStable. cbn. repeat constructor. Qed.

Lemma doTransliterate_dotless_witness :
  lacks "."%char "README" ∧ doTransliterate "README" = "." +:+ "README".
Proof.
  assert (lacks "."%char "README") as Hno by lacks_char.
  split; [exact Hno|]. exact (doTransliterate_dotless "README" Hno).
Defined.

Lemma doTransliterate_stem_ext_witness :
  isAscii "my book.v2" ∧ lacks "."%char "epub"
  ∧ doTransliterate ("my book.v2" +:+ "." +:+ "epub")
    = dashed "my book.v2" +:+ "." +:+ "epub".
Proof.
  assert (isAscii "my book.v2") as Ha by (unfold isAscii; cbn; repeat constructor).
  assert (lacks "."%char "epub") as Hno by lacks_char.
  split; [exact Ha|]. split; [exact Hno|].
  exact (proj1 (doTransliterate_stem_ext "my book.v2" "epub" Ha Hno)).
Defined.

Lemma mem_fileExt_last_segment_witness :
  lacks "."%char "EPUB"
  ∧ Mem.fileExt {| f_name := "EPUB"; f_type := TYPE_EPUB; f_data := [] |}
    = Some (Js.toLowerCase "EPUB")
  ∧ Mem.fileExt book = Some (Js.toLowerCase "epub").
Proof.
  assert (lacks "."%char "EPUB") as Hno by lacks_char.
  assert (lacks "."%char "epub") as Hno' by lacks_char.
  split; [exact Hno|]. split.
  - exact (proj2 (mem_fileExt_last_segment
                    {| f_name := "EPUB"; f_type := TYPE_EPUB; f_data := [] |})
                 Hno).
  - exact (proj1 (mem_fileExt_last_segment book) "book" "epub" eq_refl Hno').
Defined.

Lemma oak_fileExt_extname_witness :
  lacks "."%char "EPUB"
  ∧ Oak.fileExt book = Js.toLowerCase "epub"
  ∧ Oak.upload oak1
      (oakReq (Some "2GRJ")
              {| f_name := "EPUB"; f_type := TYPE_EPUB; f_data := [] |})
      "uuid-1"
    = (oak1, Oak.badRequest "Invalid file type").
Proof.
  assert (lacks "."%char "EPUB") as Hno by lacks_char.
  assert (lacks "."%char "epub") as Hdot by lacks_char.
  assert (lacks "/"%char (f_name book)) as Hslash by lacks_char.
  split; [exact Hno|]. split.
  - apply (proj1 (oak_fileExt_extname book) "book" "epub");
      [reflexivity|discriminate|discriminate|exact Hdot|exact Hslash].
  - exact (proj2 (proj2 (oak_fileExt_extname
                           {| f_name := "EPUB"; f_type := TYPE_EPUB;
                              f_data := [] |})
                        (or_introl Hno))
                 oak1 [] (Some "2GRJ") "uuid-1").
Defined.

Lemma timers_match_sessions_witness :
  Mem.reachable referenceConfig mem3
  ∧ {| t_due := 0 + ttl; t_key := "2GRJ"; t_oid := 0 |} ∈ Mem.timers mem3.
Proof.
  split; [exact mem3_reachable|].
  exact (proj2 (proj2 (proj1 timers_match_sessions referenceConfig mem3
                         mem3_reachable))
               "2GRJ" _ mem3_session).
Defined.

Lemma session_survives_witness :
  Mem.reachable referenceConfig mem3
  ∧ Mem.now mem3 + 1000 < 0 + ttl
  ∧ is_Some (Mem.keys (Mem.advance 1000 mem3) !! "2GRJ")
  ∧ Oak.reachable referenceConfig oak2
  ∧ Oak.now oak2 + 1000 < 0 + ttl
  ∧ Oak.disk (Oak.advance 1000 oak2) !! Oak.uploadPath "uuid-1" book
    = Oak.disk oak2 !! Oak.uploadPath "uuid-1" book.
Proof.
  assert (Mem.now mem3 + 1000 < 0 + ttl) as Hlt by (vm_compute; reflexivity).
  assert (Oak.now oak2 + 1000 < 0 + ttl) as Hlt' by (vm_compute; reflexivity).
  split; [exact mem3_reachable|]. split; [exact Hlt|]. split.
  { eexists.
    exact (proj1 session_survives referenceConfig mem3 "2GRJ" _ 1000
                 mem3_reachable mem3_session Hlt). }
  split; [exact oak2_reachable|]. split; [exact Hlt'|].
  apply (proj2 (proj2 session_survives referenceConfig oak2 "2GRJ" _ 1000
                  oak2_reachable oak2_session Hlt')
               (Oak.fileInfoOf "uuid-1" book) eq_refl).
  intros key' info' f' Hne. rewrite oak2_keys.
  intros [Heq _]%lookup_singleton_Some. congruence.
Defined.

Lemma mem_refused_upload_unchanged_witness :
  status (snd (Mem.upload mem1 Mem.NoBody "uuid-1")) ≠ 200
  ∧ fst (Mem.upload mem1 Mem.NoBody "uuid-1") = mem1.
Proof.
  assert (status (snd (Mem.upload mem1 Mem.NoBody "uuid-1")) ≠ 200) as Hs
    by (cbn; discriminate).
  split; [exact Hs|].
  exact (proj2 (mem_refused_upload_unchanged mem1 Mem.NoBody "uuid-1") Hs).
Defined.

Lemma mem_upload_then_download_witness :
  Mem.suspend mem1 (memForm "2grj" book)
  = inr {| Mem.pd_key := "2GRJ"; Mem.pd_oid := 0; Mem.pd_file := book |}
  ∧ nameSafe (f_name book) ∧ typeSafe (f_type book)
  ∧ Mem.download
      (Mem.resume mem1
         {| Mem.pd_key := "2GRJ"; Mem.pd_oid := 0; Mem.pd_file := book |}
         "uuid-1") "2GRJ"
    = {| status := 200;
         headers := [("Content-Type", Literal (f_type book));
                     ("Content-Disposition",
                      Literal ("attachment; filename=" +:+ dquote
                               +:+ f_name book +:+ dquote))];
         body := BodyBytes (f_data book) |}
  ∧ Mem.keys (Mem.advance 3600000 mem1) !! "2GRJ" = None
  ∧ Mem.files
      (Mem.resume (Mem.advance 3600000 mem1)
         {| Mem.pd_key := "2GRJ"; Mem.pd_oid := 0; Mem.pd_file := book |}
         "uuid-1") !! "uuid-1"
    = Some (Mem.blobOf book)
  ∧ Mem.download
      (Mem.resume (Mem.advance 3600000 mem1)
         {| Mem.pd_key := "2GRJ"; Mem.pd_oid := 0; Mem.pd_file := book |}
         "uuid-1") "2GRJ"
    = Mem.notFound.
Proof.
  assert (Mem.suspend mem1 (memForm "2grj" book)
          = inr {| Mem.pd_key := "2GRJ"; Mem.pd_oid := 0; Mem.pd_file := book |})
    as Hs by (vm_compute; reflexivity).
  assert (nameSafe (f_name book)) as Hname
    by (unfold nameSafe; cbn; repeat constructor; vm_compute; discriminate).
  assert (typeSafe (f_type book)) as Htype
    by (unfold typeSafe; cbn; repeat constructor; vm_compute; discriminate).
  assert (Mem.keys mem1 !! "2GRJ"
          = Some {| Mem.created := 0; Mem.agent := "agent";
                    Mem.fileId := None; Mem.oid := 0 |}) as Hk
    by (vm_compute; reflexivity).
  assert (Mem.keys (Mem.advance 3600000 mem1) !! "2GRJ" = None) as Hgone
    by (vm_compute; reflexivity).
  split; [exact Hs|]. split; [exact Hname|]. split; [exact Htype|].
  destruct (mem_upload_then_download mem1 _ _ "uuid-1" mem1
              Hs eq_refl Hname Htype) as (_ & _ & Hlive & _).
  destruct (mem_upload_then_download mem1 _ _ "uuid-1"
              (Mem.advance 3600000 mem1) Hs eq_refl Hname Htype)
    as (_ & Hstored & _ & Hdead).
  split; [exact (Hlive _ Hk eq_refl)|]. split; [exact Hgone|].
  split; [exact Hstored|]. exact (proj2 (Hdead Hgone)).
Defined.

Lemma generate_then_upload_witness :
  isAscii (kc_chars referenceConfig)
  ∧ Mem.generate referenceConfig Mem.init "agent" (λ _, 12345)
    = (mem1, keyResponse "2GRJ")
  ∧ snd (Mem.upload mem1 (memForm "2grj" book) "uuid-1") = Mem.uploaded
  ∧ Mem.files (fst (Mem.upload mem1 (memForm "2grj" book) "uuid-1"))
      !! "uuid-1"
    = Some (Mem.blobOf book).
Proof.
  assert (isAscii (kc_chars referenceConfig)) as Hascii
    by (unfold isAscii; cbn; repeat constructor).
  assert (Mem.generate referenceConfig Mem.init "agent" (λ _, 12345)
          = (mem1, keyResponse "2GRJ")) as Hg by (vm_compute; reflexivity).
  split; [exact Hascii|]. split; [exact Hg|].
  destruct (generate_then_upload referenceConfig Mem.init "agent" (λ _, 12345)
              mem1 "2GRJ" book "epub" "2grj"
              referenceConfig_valid Hascii upperStable_reference Hg
              eq_refl eq_refl (or_intror eq_refl)) as [Hlive Hup].
  exact (Hup mem1 "uuid-1" Hlive).
Defined.

Lemma mem_files_only_removed_on_expiry_witness :
  Mem.files mem2 !! "uuid-1"
  = Some {| Mem.data := f_data book; Mem.name := "book.epub";
            Mem.type := TYPE_EPUB |}
  ∧ Mem.files (fst (Mem.upload mem2 (memForm "2grj" book2) "uuid-2"))
      !! "uuid-1"
    = Some {| Mem.data := f_data book; Mem.name := "book.epub";
              Mem.type := TYPE_EPUB |}.
Proof.
  assert (Mem.files mem2 !! "uuid-1"
          = Some {| Mem.data := f_data book; Mem.name := "book.epub";
                    Mem.type := TYPE_EPUB |}) as Hf
    by (vm_compute; reflexivity).
  split; [exact Hf|].
  apply (proj1 mem_files_only_removed_on_expiry mem2 _ "uuid-2" "uuid-1" _ Hf).
  discriminate.
Defined.

Lemma oak_download_never_serves_witness :
  Oak.disk oak2 !! Oak.path (Oak.fileInfoOf "uuid-1" book)
  = Some (Byte.x00 :: repeat Byte.x00 9)
  ∧ status (Oak.download oak2 (Some "2GRJ")) = 500.
Proof.
  assert (Oak.disk oak2 !! Oak.path (Oak.fileInfoOf "uuid-1" book)
          = Some (Byte.x00 :: repeat Byte.x00 9)) as Hdisk
    by (vm_compute; reflexivity).
  split; [exact Hdisk|].
  exact (proj2 oak_download_never_serves oak2 "2GRJ" _
               (Oak.fileInfoOf "uuid-1" book) Byte.x00 (repeat Byte.x00 9)
               eq_refl oak2_session eq_refl Hdisk).
Defined.


Lemma oak_upload_path_traversal_witness :
  Oak.component "uuid-3-x"
  ∧ Oak.component "uuid-2-book2.pdf"
  ∧ Oak.uploadPath "uuid-3" crafted = "uploads/" +:+ "uuid-2-book2.pdf"
  ∧ Oak.uploadPath "uuid-3" crafted = Oak.uploadPath "uuid-2" book2.
Proof.
  assert (Oak.component "uuid-3-x") as Hdir
    by (split; [lacks_char|reflexivity]).
  assert (Oak.component "uuid-2-book2.pdf") as Hname
    by (split; [lacks_char|reflexivity]).
  split; [exact Hdir|]. split; [exact Hname|].
  pose proof (proj1 (oak_upload_path_traversal "uuid-3" "x" "uuid-2-book2.pdf"
                       crafted eq_refl Hdir Hname)) as Hpath.
  split; [exact Hpath|]. rewrite Hpath. reflexivity.
Defined.

Lemma oak_upload_nested_refused_witness :
  Oak.component "uuid-2-sub" ∧ Oak.component "b.epub"
  ∧ status (snd (Oak.upload oak2 (oakReq (Some "2grj") nested) "uuid-2")) = 400
  ∧ fst (Oak.upload oak2 (oakReq (Some "2grj") nested) "uuid-2") = oak2.
Proof.
  assert (Oak.component "uuid-2-sub") as Hdir
    by (split; [lacks_char|reflexivity]).
  assert (Oak.component "b.epub") as Hname
    by (split; [lacks_char|reflexivity]).
  split; [exact Hdir|]. split; [exact Hname|].
  exact (proj2 (oak_upload_nested_refused oak2 (oakReq (Some "2grj") nested)
                  "uuid-2" "sub" "b.epub" nested [] eq_refl eq_refl
                  Hdir Hname)).
Defined.

Lemma oak_refused_upload_frame_witness :
  status (snd (Oak.upload oak2 (oakReq None book2) "uuid-2")) ≠ 200
  ∧ Oak.disk (fst (Oak.upload oak2 (oakReq None book2) "uuid-2"))
      !! Oak.uploadPath "uuid-1" book
    = Oak.disk oak2 !! Oak.uploadPath "uuid-1" book.
Proof.
  assert (status (snd (Oak.upload oak2 (oakReq None book2) "uuid-2")) ≠ 200)
    as Hs by (vm_compute; discriminate).
  split; [exact Hs|].
  apply (proj2 (oak_refused_upload_frame oak2 (oakReq None book2) "uuid-2" Hs)).
  intros f rest [= <- _]. vm_compute. discriminate.
Defined.

Lemma live_keys_over_alphabet_witness :
  validConfig referenceConfig ∧ Mem.reachable referenceConfig mem3
  ∧ truthy "2GRJ" = true
  ∧ Forall (λ c, In c (Js.chars keyChars)) (Js.chars "2GRJ").
Proof.
  split; [exact referenceConfig_valid|]. split; [exact mem3_reachable|].
  apply (proj1 (live_keys_over_alphabet referenceConfig referenceConfig_valid)
               mem3 mem3_reachable "2GRJ").
  rewrite mem3_session. eauto.
Defined.

Lemma key_case_witness :
  validConfig referenceConfig ∧ upperStable referenceConfig
  ∧ Js.toUpperCase "2grj" ≠ "2grj"
  ∧ Mem.download mem3 "2grj" = Mem.notFound.
Proof.
  assert (Js.toUpperCase "2grj" ≠ "2grj") as Hne by (vm_compute; discriminate).
  split; [exact referenceConfig_valid|]. split; [exact upperStable_reference|].
  split; [exact Hne|].
  exact (proj1 (proj2 (proj2 (key_case referenceConfig referenceConfig_valid
                                upperStable_reference)))
               mem3 "2grj" mem3_reachable Hne).
Defined.

Lemma generate_bad_alphabet_witness :
  (Js.length (kc_chars {| kc_chars := "A"; kc_length := 4 |}) < 2)%nat
  ∧ Mem.generate {| kc_chars := "A"; kc_length := 4 |} mem1 "agent" (λ _, 0)
    = (mem1, Mem.serverError).
Proof.
  assert (Js.length (kc_chars {| kc_chars := "A"; kc_length := 4 |}) < 2)%nat
    as Hlen by (cbn; lia).
  split; [exact Hlen|].
  exact (proj1 (proj2 (generate_bad_alphabet _ (or_introl Hlen)))
               mem1 "agent" (λ _, 0)).
Defined.

End FurtherWitnesses.
